(** * Mission Control: the orbit scene of [SolarSystem.tsx]

    A shallow embedding of the grouping function ([utils/grouping.ts]), the
    selection store ([state/selection.ts]) and the orbit / reconciliation
    engine ([components/SolarSystem.tsx]) of the dashboard, with the
    properties of the design document stated over it.  The embedding also
    covers the keyboard listener of the engine, the VarInt codec and the
    packet builders of the Minecraft adapter ([adapters/minecraft.ts]), the
    group derivation of the Docker service ([services/docker.ts]) and the
    status and uptime texts, with properties read off the code.

    Conventions of the embedding.
    - A JavaScript [number] that the engine computes (radius, angle, speed,
      sprite size) is an exact real ([R]): IEEE rounding is left out.  The
      two metrics of an entity arrive as JSON numbers, so they are rationals
      ([Q]) and the tests on them compute; [Q2R] takes them into the
      formulas.  A metric that is [undefined] is [None]; the source reads
      it through [x || 0].
    - A JavaScript [Map] is an association list in insertion order: [forEach]
      visits the pairs from the head, [set] on a fresh key appends, [set] on a
      present key rewrites the value in place, [delete] drops the pair.
    - Every [new PIXI.*] display object is a natural number taken from the
      allocation counter of the scene; a PIXI container is the list of its
      direct children.  Drawing commands, tints and alphas are rendering
      detail that no property below reads; they are left out.
    - The React closure variable [selection] read by [handleHover] and by
      [handleKeyDown] is an explicit argument of the handler.
    - A JavaScript [number] that goes through a bit operator or counts
      seconds is an integer ([Z]); the bit operators wrap their operands
      and results to 32 bits as [ToInt32] and [ToUint32] do, and the
      properties of the texts made from counts of seconds are stated for
      safe integers ([safeInteger]), where the arithmetic of the code is
      exact.  A [Buffer] is the list of its bytes, and a string stands for
      the sequence of its UTF-8 bytes; the titles are those of the code for
      ASCII keys ([isAscii]).  A thrown [Error] is [Throw] with its
      message.
    - [Math.sqrt] is [sqrt] on the reals, for an argument that is not
      negative. *)

From Stdlib Require Import Reals QArith Qreals ZArith Lra Lia List String Ascii
  Bool Arith DecimalString.
Import ListNotations.
Close Scope Q_scope.
Open Scope string_scope.
Open Scope list_scope.

(* ================================================================== *)
(** * Part I: definitions                                              *)
(* ================================================================== *)

(** ** JavaScript helpers *)

(** [x > y] on metrics. *)
Definition gtb (x y : Q) : bool := negb (Qle_bool x y).

(** [x || 0] on a metric that may be missing. *)
Definition orZero (x : option Q) : Q :=
  match x with Some v => v | None => 0%Q end.

(** Truthiness of a [string | null] reference: [null] and the empty string
    are falsy. *)
Definition truthy (r : option string) : bool :=
  match r with
  | None => false
  | Some s => negb (s =? "")
  end.

(** [r === s] for a [string | null] reference [r] and a string [s]. *)
Definition refIs (r : option string) (s : string) : bool :=
  match r with
  | None => false
  | Some t => t =? s
  end.

(** The insertion-ordered [Map<string, V>]. *)
Section JsMap.
Context {V : Type}.

Definition JsMap := list (string * V).

Fixpoint map_get (k : string) (m : JsMap) : option V :=
    match m with
    | [] => None
    | (k', v) :: rest => if k' =? k then Some v else map_get k rest
    end.

Definition map_has (k : string) (m : JsMap) : bool :=
    match map_get k m with Some _ => true | None => false end.

Fixpoint map_set (k : string) (v : V) (m : JsMap) : JsMap :=
    match m with
    | [] => [(k, v)]
    | (k', v') :: rest =>
        if k' =? k then (k, v) :: rest else (k', v') :: map_set k v rest
    end.

Definition map_delete (k : string) (m : JsMap) : JsMap :=
    filter (fun e => negb (fst e =? k)) m.

Definition map_keys (m : JsMap) : list string := List.map fst m.

  (** The invariant of a [Map]: no key occurs twice. *)
Definition map_wf (m : JsMap) : Prop := NoDup (map_keys m).
End JsMap.
Arguments JsMap : clear implicits.

(** ** Data model ([types.ts]) *)

(** The fields of [ContainerStats] that the engine reads.  The remaining
    fields (image, status text, byte counters, labels, extras) are display
    data carried along untouched. *)
Record ContainerStats : Type := mkContainer {
  id : string;
  name : string;
  state : string;
  cpuPercent : option Q;
  memoryPercent : option Q;
  group : string
}.

Inductive DominantState : Type := Running | Paused | Exited | Restarting.

Record Group : Type := mkGroup {
  key : string;
  title : string;
  containers : list ContainerStats;
  dominantState : DominantState
}.

(** ** Grouping function ([utils/grouping.ts]) *)

(** [states.some(s => s === st)] *)
Definition someState (st : string) (cs : list ContainerStats) : bool :=
  existsb (fun c => state c =? st) cs.

Definition getDominantState (cs : list ContainerStats) : DominantState :=
  if someState "running" cs then Running
  else if someState "restarting" cs then Restarting
  else if someState "paused" cs then Paused
  else Exited.

(** [key.split(/[-_]/)] *)
Definition isSeparator (ch : ascii) : bool :=
  (Ascii.eqb ch "-" || Ascii.eqb ch "_")%char.

Fixpoint splitWords (s : string) : list string :=
  match s with
  | EmptyString => [EmptyString]
  | String ch rest =>
      if isSeparator ch then EmptyString :: splitWords rest
      else match splitWords rest with
           | w :: ws => String ch w :: ws
           | [] => [String ch EmptyString]
           end
  end.

(** [toUpperCase] on one character of an ASCII string, where it maps the
    letters [a] to [z] and nothing else.  Outside ASCII [toUpperCase]
    follows Unicode, which is left out: the title of a key is the title of
    the code for the keys that [isAscii] accepts. *)
Definition toUpper (ch : ascii) : ascii :=
  let n := nat_of_ascii ch in
  if ((97 <=? n) && (n <=? 122))%nat then ascii_of_nat (n - 32) else ch.

(** [word.charAt(0).toUpperCase() + word.slice(1)] *)
Definition capitalize (w : string) : string :=
  match w with
  | EmptyString => EmptyString
  | String ch rest => String (toUpper ch) rest
  end.

Definition formatGroupTitle (k : string) : string :=
  String.concat " " (List.map capitalize (splitWords k)).

(** The body of [containers.forEach] in [groupContainers]: make the bucket
    of the key if it is missing, then push the container onto it. *)
Definition addToGroupMap (m : JsMap (list ContainerStats)) (c : ContainerStats)
  : JsMap (list ContainerStats) :=
  let k := group c in
  let m' := if map_has k m then m else map_set k [] m in
  match map_get k m' with
  | Some bucket => map_set k (bucket ++ [c]) m'
  | None => m'
  end.

Definition toGroup (e : string * list ContainerStats) : Group :=
  {| key := fst e;
     title := formatGroupTitle (fst e);
     containers := snd e;
     dominantState := getDominantState (snd e) |}.

Definition groupContainers (cs : list ContainerStats) : list Group :=
  List.map toGroup (fold_left addToGroupMap cs []).

(** The words of the design document, to compare [groupContainers] with:
    the distinct keys of a list in the order of their first occurrence. *)
Fixpoint firstEncounter (ks : list string) : list string :=
  match ks with
  | [] => []
  | k :: rest => k :: filter (fun k' => negb (k' =? k)) (firstEncounter rest)
  end.

(** The members of the group [k], in input order. *)
Definition membersOf (k : string) (cs : list ContainerStats)
  : list ContainerStats :=
  filter (fun c => group c =? k) cs.

(** The table [key |-> bucket] that the design document describes. *)
Definition bucketTable (ks : list string) (cs : list ContainerStats)
  : JsMap (list ContainerStats) :=
  List.map (fun k => (k, membersOf k cs)) ks.

(** ** Theme constants ([theme.ts]) *)

Module theme.
Module planet.
Definition minRadius : R := 12.
Definition maxRadius : R := 18.
Definition largeMaxRadius : R := 12.
Definition glowMultiplier : R := 1.2.
End planet.
Module hover.
Definition focusScale : R := 1.5.
Definition debounceMs : nat := 20.
End hover.
End theme.

(** ** Selection store ([state/selection.ts]) *)

Inductive Selection : Type :=
| SelNone
| SelPlanet (pid : string) (container : ContainerStats) (persistent : bool)
| SelGroup (gkey : string) (grp : Group).

Record Hover : Type := mkHover {
  planetId : option string;
  hoverContainer : option ContainerStats
}.

Record SelectionState : Type := mkStore {
  selection : Selection;
  hover : Hover
}.

Definition initialStore : SelectionState :=
  {| selection := SelNone;
     hover := {| planetId := None; hoverContainer := None |} |}.

(** zustand's [set(partial)] merges the given fields into the state. *)
Definition setSelection (sel : Selection) (st : SelectionState) : SelectionState :=
  {| selection := sel; hover := hover st |}.

Definition selectPlanet (pid : string) (c : ContainerStats) (persistent : bool)
  (st : SelectionState) : SelectionState :=
  {| selection := SelPlanet pid c persistent; hover := hover st |}.

Definition selectGroup (k : string) (g : Group) (st : SelectionState)
  : SelectionState :=
  {| selection := SelGroup k g; hover := hover st |}.

Definition clearSelection (st : SelectionState) : SelectionState :=
  {| selection := SelNone; hover := hover st |}.

Definition setHover (pid : option string) (c : option ContainerStats)
  (st : SelectionState) : SelectionState :=
  {| selection := selection st;
     hover := {| planetId := pid; hoverContainer := c |} |}.

Definition clearHover (st : SelectionState) : SelectionState :=
  {| selection := selection st;
     hover := {| planetId := None; hoverContainer := None |} |}.

(** [selection.kind === 'planet' && selection.persistent] *)
Definition isPersistentPlanet (sel : Selection) : bool :=
  match sel with SelPlanet _ _ p => p | _ => false end.

(** [selection.kind === 'group'] *)
Definition isGroup (sel : Selection) : bool :=
  match sel with SelGroup _ _ => true | _ => false end.

(** ** Orbit radius policy ([calculateOrbitRadius]) *)

(** [app.screen]: width and height of the render surface. *)
Record Screen : Type := mkScreen { width : R; height : R }.

Definition calculateOrbitRadius (app : option Screen) (index totalGroups : nat)
  : R :=
  match app with
  | None => 120%R
  | Some scr =>
      let viewportSize := Rmin (width scr) (height scr) in
      let BASE := (viewportSize * 0.12)%R in
      let STEP := (viewportSize * 0.075)%R in
      let MAX_ORBIT := (viewportSize * 0.46)%R in
      let STEP := if (6 <? totalGroups)%nat then (STEP * 0.85)%R else STEP in
      let radius := (BASE + INR index * STEP)%R in
      Rmin radius MAX_ORBIT
  end.

(** ** Per-body formulas of the refresh (size, speed, particles) *)

(** [size] of the update step: radius of the body from its memory share.
    [Math.sqrt] of a negative number is [NaN], which the reals do not have
    ([sqrt] is 0 there): the definition stands for the code where the
    memory share is not negative. *)
Definition planetSize (c : ContainerStats) : R :=
  let memoryPercent := orZero (memoryPercent c) in
  let baseSize := theme.planet.minRadius in
  let maxSize := if gtb memoryPercent 70 then theme.planet.largeMaxRadius
                 else theme.planet.maxRadius in
  (baseSize + sqrt (Q2R memoryPercent / 100) * (maxSize - baseSize))%R.

Definition planetOrbitSpeed (c : ContainerStats) : R :=
  let cpuPercent := orZero (cpuPercent c) in
  (0.05 + (Q2R cpuPercent / 100) * 0.45)%R.

Definition shouldShowParticles (c : ContainerStats) : bool :=
  gtb (orZero (cpuPercent c)) 50 || (state c =? "restarting").

(** ** The scene owned by the engine ([SolarSystem.tsx])

    A [Planet] carries the display objects of one body ([sprite], [glow],
    [rimGlow], [particles]) as object numbers, its [angle] and [orbitSpeed],
    and the [width] / [height] of its sprite. *)

Record Planet : Type := mkPlanet {
  container : ContainerStats;
  sprite : nat;
  glow : nat;
  rimGlow : nat;
  particles : list nat;
  angle : R;
  orbitSpeed : R;
  spriteWidth : R;
  spriteHeight : R
}.

Definition set_particles (v : list nat) (p : Planet) : Planet :=
  {| container := container p; sprite := sprite p; glow := glow p;
     rimGlow := rimGlow p; particles := v; angle := angle p;
     orbitSpeed := orbitSpeed p; spriteWidth := spriteWidth p;
     spriteHeight := spriteHeight p |}.

Definition set_angle (v : R) (p : Planet) : Planet :=
  {| container := container p; sprite := sprite p; glow := glow p;
     rimGlow := rimGlow p; particles := particles p; angle := v;
     orbitSpeed := orbitSpeed p; spriteWidth := spriteWidth p;
     spriteHeight := spriteHeight p |}.

(** [GroupOrbit.group] is [orbitGroup] here: the projection [group] is taken
    by [ContainerStats]. *)

Record GroupOrbit : Type := mkGroupOrbit {
  orbitGroup : Group;
  orbitRadius : R;
  orbitLine : nat;
  orbitGlow : nat;
  labelText : nat;
  planets : JsMap Planet;
  randomStartAngle : R;
  hitArea : nat
}.

Definition set_orbitGroup (v : Group) (o : GroupOrbit) : GroupOrbit :=
  {| orbitGroup := v; orbitRadius := orbitRadius o; orbitLine := orbitLine o;
     orbitGlow := orbitGlow o; labelText := labelText o;
     planets := planets o; randomStartAngle := randomStartAngle o;
     hitArea := hitArea o |}.

Definition set_orbitRadius (v : R) (o : GroupOrbit) : GroupOrbit :=
  {| orbitGroup := orbitGroup o; orbitRadius := v; orbitLine := orbitLine o;
     orbitGlow := orbitGlow o; labelText := labelText o;
     planets := planets o; randomStartAngle := randomStartAngle o;
     hitArea := hitArea o |}.

Definition set_planets (v : JsMap Planet) (o : GroupOrbit) : GroupOrbit :=
  {| orbitGroup := orbitGroup o; orbitRadius := orbitRadius o;
     orbitLine := orbitLine o; orbitGlow := orbitGlow o;
     labelText := labelText o; planets := v;
     randomStartAngle := randomStartAngle o; hitArea := hitArea o |}.

(** The refs of the component and what they point to.
    - [appRef]: [appRef.current], with [app.screen].  The mount effect sets
      [appRef], [hoverOverlayRef], [baseLayerRef], [focusLayerRef] and
      [gradientTextureRef] together and nothing resets them: the guards on
      any of them are the guard on [appRef].
    - [store]: the zustand selection store.
    - [stage], [baseLayer], [focusLayer]: the children of [app.stage] and of
      the two layer containers.
    - [nextObject]: the number the next [new PIXI.*] object gets.
    - [timers], [nextTimer]: the timeouts that are armed, and the handle the
      next [setTimeout] returns.
    - [randomCount]: how many times [Math.random] has been called. *)

Record Scene : Type := mkScene {
  appRef : option Screen;
  groupOrbitsRef : JsMap GroupOrbit;
  focusedPlanetIdRef : option string;
  unfocusTimeoutRef : option nat;
  store : SelectionState;
  overlayVisible : bool;
  stage : list nat;
  baseLayer : list nat;
  focusLayer : list nat;
  nextObject : nat;
  timers : list nat;
  nextTimer : nat;
  randomCount : nat
}.

Definition set_appRef (v : option Screen) (s : Scene) : Scene :=
  {| appRef := v; groupOrbitsRef := groupOrbitsRef s;
     focusedPlanetIdRef := focusedPlanetIdRef s;
     unfocusTimeoutRef := unfocusTimeoutRef s; store := store s;
     overlayVisible := overlayVisible s; stage := stage s;
     baseLayer := baseLayer s; focusLayer := focusLayer s;
     nextObject := nextObject s; timers := timers s;
     nextTimer := nextTimer s; randomCount := randomCount s |}.

Definition set_groupOrbitsRef (v : JsMap GroupOrbit) (s : Scene) : Scene :=
  {| appRef := appRef s; groupOrbitsRef := v;
     focusedPlanetIdRef := focusedPlanetIdRef s;
     unfocusTimeoutRef := unfocusTimeoutRef s; store := store s;
     overlayVisible := overlayVisible s; stage := stage s;
     baseLayer := baseLayer s; focusLayer := focusLayer s;
     nextObject := nextObject s; timers := timers s;
     nextTimer := nextTimer s; randomCount := randomCount s |}.

Definition set_focusedPlanetIdRef (v : option string) (s : Scene) : Scene :=
  {| appRef := appRef s; groupOrbitsRef := groupOrbitsRef s;
     focusedPlanetIdRef := v; unfocusTimeoutRef := unfocusTimeoutRef s;
     store := store s; overlayVisible := overlayVisible s; stage := stage s;
     baseLayer := baseLayer s; focusLayer := focusLayer s;
     nextObject := nextObject s; timers := timers s;
     nextTimer := nextTimer s; randomCount := randomCount s |}.

Definition set_unfocusTimeoutRef (v : option nat) (s : Scene) : Scene :=
  {| appRef := appRef s; groupOrbitsRef := groupOrbitsRef s;
     focusedPlanetIdRef := focusedPlanetIdRef s; unfocusTimeoutRef := v;
     store := store s; overlayVisible := overlayVisible s; stage := stage s;
     baseLayer := baseLayer s; focusLayer := focusLayer s;
     nextObject := nextObject s; timers := timers s;
     nextTimer := nextTimer s; randomCount := randomCount s |}.

Definition set_store (v : SelectionState) (s : Scene) : Scene :=
  {| appRef := appRef s; groupOrbitsRef := groupOrbitsRef s;
     focusedPlanetIdRef := focusedPlanetIdRef s;
     unfocusTimeoutRef := unfocusTimeoutRef s; store := v;
     overlayVisible := overlayVisible s; stage := stage s;
     baseLayer := baseLayer s; focusLayer := focusLayer s;
     nextObject := nextObject s; timers := timers s;
     nextTimer := nextTimer s; randomCount := randomCount s |}.

Definition set_overlayVisible (v : bool) (s : Scene) : Scene :=
  {| appRef := appRef s; groupOrbitsRef := groupOrbitsRef s;
     focusedPlanetIdRef := focusedPlanetIdRef s;
     unfocusTimeoutRef := unfocusTimeoutRef s; store := store s;
     overlayVisible := v; stage := stage s; baseLayer := baseLayer s;
     focusLayer := focusLayer s; nextObject := nextObject s;
     timers := timers s; nextTimer := nextTimer s;
     randomCount := randomCount s |}.

Definition set_stage (v : list nat) (s : Scene) : Scene :=
  {| appRef := appRef s; groupOrbitsRef := groupOrbitsRef s;
     focusedPlanetIdRef := focusedPlanetIdRef s;
     unfocusTimeoutRef := unfocusTimeoutRef s; store := store s;
     overlayVisible := overlayVisible s; stage := v;
     baseLayer := baseLayer s; focusLayer := focusLayer s;
     nextObject := nextObject s; timers := timers s;
     nextTimer := nextTimer s; randomCount := randomCount s |}.

Definition set_baseLayer (v : list nat) (s : Scene) : Scene :=
  {| appRef := appRef s; groupOrbitsRef := groupOrbitsRef s;
     focusedPlanetIdRef := focusedPlanetIdRef s;
     unfocusTimeoutRef := unfocusTimeoutRef s; store := store s;
     overlayVisible := overlayVisible s; stage := stage s; baseLayer := v;
     focusLayer := focusLayer s; nextObject := nextObject s;
     timers := timers s; nextTimer := nextTimer s;
     randomCount := randomCount s |}.

Definition set_focusLayer (v : list nat) (s : Scene) : Scene :=
  {| appRef := appRef s; groupOrbitsRef := groupOrbitsRef s;
     focusedPlanetIdRef := focusedPlanetIdRef s;
     unfocusTimeoutRef := unfocusTimeoutRef s; store := store s;
     overlayVisible := overlayVisible s; stage := stage s;
     baseLayer := baseLayer s; focusLayer := v; nextObject := nextObject s;
     timers := timers s; nextTimer := nextTimer s;
     randomCount := randomCount s |}.

Definition set_nextObject (v : nat) (s : Scene) : Scene :=
  {| appRef := appRef s; groupOrbitsRef := groupOrbitsRef s;
     focusedPlanetIdRef := focusedPlanetIdRef s;
     unfocusTimeoutRef := unfocusTimeoutRef s; store := store s;
     overlayVisible := overlayVisible s; stage := stage s;
     baseLayer := baseLayer s; focusLayer := focusLayer s; nextObject := v;
     timers := timers s; nextTimer := nextTimer s;
     randomCount := randomCount s |}.

Definition set_timers (v : list nat) (s : Scene) : Scene :=
  {| appRef := appRef s; groupOrbitsRef := groupOrbitsRef s;
     focusedPlanetIdRef := focusedPlanetIdRef s;
     unfocusTimeoutRef := unfocusTimeoutRef s; store := store s;
     overlayVisible := overlayVisible s; stage := stage s;
     baseLayer := baseLayer s; focusLayer := focusLayer s;
     nextObject := nextObject s; timers := v; nextTimer := nextTimer s;
     randomCount := randomCount s |}.

Definition set_nextTimer (v : nat) (s : Scene) : Scene :=
  {| appRef := appRef s; groupOrbitsRef := groupOrbitsRef s;
     focusedPlanetIdRef := focusedPlanetIdRef s;
     unfocusTimeoutRef := unfocusTimeoutRef s; store := store s;
     overlayVisible := overlayVisible s; stage := stage s;
     baseLayer := baseLayer s; focusLayer := focusLayer s;
     nextObject := nextObject s; timers := timers s; nextTimer := v;
     randomCount := randomCount s |}.

Definition set_randomCount (v : nat) (s : Scene) : Scene :=
  {| appRef := appRef s; groupOrbitsRef := groupOrbitsRef s;
     focusedPlanetIdRef := focusedPlanetIdRef s;
     unfocusTimeoutRef := unfocusTimeoutRef s; store := store s;
     overlayVisible := overlayVisible s; stage := stage s;
     baseLayer := baseLayer s; focusLayer := focusLayer s;
     nextObject := nextObject s; timers := timers s;
     nextTimer := nextTimer s; randomCount := v |}.

(** ** PIXI containers *)

(** The three containers a display object can be a direct child of. *)
Inductive Layer : Type := OnStage | OnBase | OnFocus.

Definition childrenOf (l : Layer) (s : Scene) : list nat :=
  match l with
  | OnStage => stage s
  | OnBase => baseLayer s
  | OnFocus => focusLayer s
  end.

Definition set_childrenOf (l : Layer) (v : list nat) (s : Scene) : Scene :=
  match l with
  | OnStage => set_stage v s
  | OnBase => set_baseLayer v s
  | OnFocus => set_focusLayer v s
  end.

(** Remove the first occurrence of [o] from a children array. *)
Fixpoint dropChild (o : nat) (children : list nat) : list nat :=
  match children with
  | [] => []
  | x :: rest => if (x =? o)%nat then rest else x :: dropChild o rest
  end.

(** [container.removeChild(o)]: [o] is looked up among the direct children of
    that container; nothing happens when it is not one of them. *)
Definition removeChild (l : Layer) (o : nat) (s : Scene) : Scene :=
  set_childrenOf l (dropChild o (childrenOf l s)) s.

(** [o.parent === container] *)
Definition hasChild (l : Layer) (o : nat) (s : Scene) : bool :=
  existsb (Nat.eqb o) (childrenOf l s).

(** [container.addChild(o)]: [o] leaves its present parent, if it has one,
    and becomes the last child of the container. *)
Definition addChild (l : Layer) (o : nat) (s : Scene) : Scene :=
  let s := removeChild OnStage o s in
  let s := removeChild OnBase o s in
  let s := removeChild OnFocus o s in
  set_childrenOf l (childrenOf l s ++ [o]) s.

(** ** Access to the rings and bodies of the scene *)

(** Mutation of the object stored under [k]. *)
Fixpoint map_adjust {V : Type} (k : string) (f : V -> V) (m : JsMap V)
  : JsMap V :=
  match m with
  | [] => []
  | (k', v) :: rest =>
      if k' =? k then (k', f v) :: rest else (k', v) :: map_adjust k f rest
  end.

Definition adjustOrbit (k : string) (f : GroupOrbit -> GroupOrbit) (s : Scene)
  : Scene :=
  set_groupOrbitsRef (map_adjust k f (groupOrbitsRef s)) s.

Definition adjustPlanet (k pid : string) (f : Planet -> Planet) (s : Scene)
  : Scene :=
  adjustOrbit k (fun o => set_planets (map_adjust pid f (planets o)) o) s.

(** The search loop of the handlers:
    [groupOrbitsRef.current.forEach(o => { const p = o.planets.get(id); if (p) target = p })].
    The last ring that holds the id wins; the ring is returned by its key. *)
Definition findPlanet (pid : string) (orbits : JsMap GroupOrbit)
  : option (string * Planet) :=
  fold_left
    (fun acc e =>
       match map_get pid (planets (snd e)) with
       | Some p => Some (fst e, p)
       | None => acc
       end)
    orbits None.

(** [sprite.width *= f; sprite.height *= f] *)
Definition scaleSprite (f : R) (p : Planet) : Planet :=
  {| container := container p; sprite := sprite p; glow := glow p;
     rimGlow := rimGlow p; particles := particles p; angle := angle p;
     orbitSpeed := orbitSpeed p; spriteWidth := (spriteWidth p * f)%R;
     spriteHeight := (spriteHeight p * f)%R |}.

(** [sprite.width /= f; sprite.height /= f] *)
Definition unscaleSprite (f : R) (p : Planet) : Planet :=
  {| container := container p; sprite := sprite p; glow := glow p;
     rimGlow := rimGlow p; particles := particles p; angle := angle p;
     orbitSpeed := orbitSpeed p; spriteWidth := (spriteWidth p / f)%R;
     spriteHeight := (spriteHeight p / f)%R |}.

(** The three [removeChild] and three [addChild] calls that take a body from
    layer [from] to layer [to]. *)
Definition moveBody (from to : Layer) (p : Planet) (s : Scene) : Scene :=
  let s := removeChild from (sprite p) s in
  let s := removeChild from (glow p) s in
  let s := removeChild from (rimGlow p) s in
  let s := addChild to (glow p) s in
  let s := addChild to (sprite p) s in
  addChild to (rimGlow p) s.

(** ** Focus handlers *)

(** [unfocusPlanet] *)
Definition unfocusPlanet (s : Scene) : Scene :=
  match appRef s, focusedPlanetIdRef s with
  | Some _, Some planetId =>
      if negb (truthy (Some planetId)) then s else
      let s := set_focusedPlanetIdRef None s in
      let s := set_store (clearHover (clearSelection (store s))) s in
      let s :=
        match findPlanet planetId (groupOrbitsRef s) with
        | Some (k, planet) =>
            let s := moveBody OnFocus OnBase planet s in
            adjustPlanet k planetId (unscaleSprite theme.hover.focusScale) s
        | None => s
        end in
      set_overlayVisible false s
  | _, _ => s
  end.

(** [clearTimeout(t)] *)
Definition clearTimeout (t : nat) (s : Scene) : Scene :=
  set_timers (filter (fun t' => negb (t' =? t)%nat) (timers s)) s.

(** [if (unfocusTimeoutRef.current) { clearTimeout(...); unfocusTimeoutRef.current = null }] *)
Definition clearPendingUnfocus (s : Scene) : Scene :=
  match unfocusTimeoutRef s with
  | Some t => set_unfocusTimeoutRef None (clearTimeout t s)
  | None => s
  end.

(** [selection.id !== planetId] for a planet selection *)
Definition selectionIsOther (sel : Selection) (planetId : string) : bool :=
  match sel with
  | SelPlanet pid _ _ => negb (pid =? planetId)
  | _ => false
  end.

(** [handleHover]; [sel] is the [selection] of the closure. *)
Definition handleHover (sel : Selection) (planetId : string) (s : Scene)
  : Scene :=
  match appRef s with
  | None => s
  | Some _ =>
      let s := if isPersistentPlanet sel && selectionIsOther sel planetId
               then unfocusPlanet s else s in
      if isGroup sel then s else
      let s := clearPendingUnfocus s in
      if refIs (focusedPlanetIdRef s) planetId then s else
      match findPlanet planetId (groupOrbitsRef s) with
      | None => s
      | Some (k, planet) =>
          let s := set_focusedPlanetIdRef (Some planetId) s in
          let s := set_store
                     (setHover (Some planetId) (Some (container planet)) (store s))
                     s in
          let s := moveBody OnBase OnFocus planet s in
          let s := adjustPlanet k planetId (scaleSprite theme.hover.focusScale) s in
          set_overlayVisible true s
      end
  end.

(** [handleClick] *)
Definition handleClick (planetId : string) (c : ContainerStats) (s : Scene)
  : Scene :=
  match appRef s with
  | None => s
  | Some _ =>
      let s := clearPendingUnfocus s in
      match findPlanet planetId (groupOrbitsRef s) with
      | None => s
      | Some (k, planet) =>
          let s := if truthy (focusedPlanetIdRef s)
                      && negb (refIs (focusedPlanetIdRef s) planetId)
                   then unfocusPlanet s else s in
          let s := set_focusedPlanetIdRef (Some planetId) s in
          let s := set_store (selectPlanet planetId c true (store s)) s in
          let s :=
            if hasChild OnBase (sprite planet) s then
              let s := moveBody OnBase OnFocus planet s in
              adjustPlanet k planetId (scaleSprite theme.hover.focusScale) s
            else s in
          set_overlayVisible true s
      end
  end.

(** [maybeUnfocus]: drop the timeout the ref names and arm a new one. *)
Definition maybeUnfocus (s : Scene) : Scene :=
  let s := match unfocusTimeoutRef s with
           | Some t => clearTimeout t s
           | None => s
           end in
  let t := nextTimer s in
  let s := set_timers (timers s ++ [t]) s in
  let s := set_nextTimer (S t) s in
  set_unfocusTimeoutRef (Some t) s.

(** The callback that [maybeUnfocus] hands to [setTimeout]: it reads the
    selection of the store when it runs. *)
Definition unfocusCallback (s : Scene) : Scene :=
  let currentSelection := selection (store s) in
  if isPersistentPlanet currentSelection then s
  else if isGroup currentSelection then s
  else unfocusPlanet s.

(** The browser runs the timeout [t]: only an armed timeout can run, and it
    runs once. *)
Definition fireTimeout (t : nat) (s : Scene) : Scene :=
  if existsb (Nat.eqb t) (timers s)
  then unfocusCallback (clearTimeout t s)
  else s.

(** The [pointerdown] listener of a ring's hit area. *)
Definition ringPointerDown (g : Group) (s : Scene) : Scene :=
  set_store (selectGroup (key g) g (store s)) s.

(** The [Escape] branch of [handleKeyDown]; [sel] is the [selection] of the
    closure. *)
Definition allPlanetIds (s : Scene) : list string :=
  flat_map (fun e => List.map (fun pe => id (container (snd pe))) (planets (snd e)))
           (groupOrbitsRef s).

Definition handleEscape (sel : Selection) (s : Scene) : Scene :=
  match allPlanetIds s with
  | [] => s
  | _ :: _ => match sel with SelNone => s | _ => unfocusPlanet s end
  end.

(** ** Reconciliation (the effect on [containers]) *)

(** [array.forEach((x, i) => ...)]: the elements with their indices. *)
Definition indexed {A : Type} (l : list A) : list (nat * A) :=
  combine (seq 0 (List.length l)) l.

(** The four [app.stage.removeChild] calls on the display objects of a body
    that is being dropped. *)
Definition removePlanetGraphics (planet : Planet) (s : Scene) : Scene :=
  let s := removeChild OnStage (sprite planet) s in
  let s := removeChild OnStage (glow planet) s in
  let s := removeChild OnStage (rimGlow planet) s in
  fold_left (fun s p => removeChild OnStage p s) (particles planet) s.

(** One step of the first loop: a ring whose key is not among the current
    groups goes, with its bodies. *)
Definition removeStaleOrbit (currentGroupKeys : list string) (s : Scene)
  (e : string * GroupOrbit) : Scene :=
  let k := fst e in
  let groupOrbit := snd e in
  if existsb (String.eqb k) currentGroupKeys then s else
  let s := fold_left (fun s pe => removePlanetGraphics (snd pe) s)
                     (planets groupOrbit) s in
  let s := removeChild OnStage (orbitLine groupOrbit) s in
  let s := removeChild OnStage (orbitGlow groupOrbit) s in
  let s := removeChild OnStage (labelText groupOrbit) s in
  set_groupOrbitsRef (map_delete k (groupOrbitsRef s)) s.

(** The ring of a key that is seen for the first time.  [random] is the
    stream that [Math.random] reads. *)
Definition createGroupOrbit (random : nat -> R) (g : Group)
  (groupIndex totalGroups : nat) (s : Scene) : Scene :=
  let orbitRadius := calculateOrbitRadius (appRef s) groupIndex totalGroups in
  let orbitLine := nextObject s in
  let orbitGlow := S orbitLine in
  let labelText := S orbitGlow in
  let hitArea := S labelText in
  let s := set_nextObject (S hitArea) s in
  let s := addChild OnBase orbitLine s in
  let s := addChild OnBase orbitGlow s in
  let s := addChild OnBase labelText s in
  let s := addChild OnBase hitArea s in
  let startAngle := (random (randomCount s) * PI * 2)%R in
  let s := set_randomCount (S (randomCount s)) s in
  let groupOrbit :=
    {| orbitGroup := g; orbitRadius := orbitRadius; orbitLine := orbitLine;
       orbitGlow := orbitGlow; labelText := labelText; planets := [];
       randomStartAngle := startAngle; hitArea := hitArea |} in
  set_groupOrbitsRef (map_set (key g) groupOrbit (groupOrbitsRef s)) s.

(** One step of the loop that drops the bodies of a ring whose ids are gone:
    a dedicated unfocus when the body is the focused one, then the
    [removeChild] calls, then [planets.delete(id)]. *)
Definition removeStalePlanet (k : string) (currentContainerIds : list string)
  (s : Scene) (e : string * Planet) : Scene :=
  let pid := fst e in
  let planet := snd e in
  if existsb (String.eqb pid) currentContainerIds then s else
  let s := if refIs (focusedPlanetIdRef s) pid then unfocusPlanet s else s in
  let s := removePlanetGraphics planet s in
  adjustOrbit k (fun o => set_planets (map_delete pid (planets o)) o) s.

(** The body of an id that is seen for the first time in its ring. *)
Definition createPlanet (k : string) (g : Group) (groupOrbit : GroupOrbit)
  (containerIndex : nat) (c : ContainerStats) (s : Scene) : Scene :=
  let spacing := (PI * 2 / INR (Nat.max (List.length (containers g)) 1))%R in
  let angle := (randomStartAngle groupOrbit + INR containerIndex * spacing)%R in
  let sprite := nextObject s in
  let glow := S sprite in
  let rimGlow := S glow in
  let s := set_nextObject (S rimGlow) s in
  let planet :=
    {| container := c; sprite := sprite; glow := glow; rimGlow := rimGlow;
       particles := []; angle := angle; orbitSpeed := 0.1%R;
       spriteWidth := 64%R; spriteHeight := 64%R |} in
  let s := addChild OnBase glow s in
  let s := addChild OnBase sprite s in
  let s := addChild OnBase rimGlow s in
  adjustOrbit k (fun o => set_planets (map_set (id c) planet (planets o)) o) s.

(** The property update of a body from its entity: entity, sprite size
    (with the focus scale when the body is the focused one), orbit speed. *)
Definition updateProperties (isFocused : bool) (c : ContainerStats) (p : Planet)
  : Planet :=
  let size := planetSize c in
  let targetSize := (size * 2)%R in
  let w := if isFocused then (targetSize * theme.hover.focusScale)%R
           else targetSize in
  {| container := c; sprite := sprite p; glow := glow p; rimGlow := rimGlow p;
     particles := particles p; angle := angle p;
     orbitSpeed := planetOrbitSpeed c; spriteWidth := w; spriteHeight := w |}.

(** The particle branch of the update: six particles are created on the base
    layer when they are wanted and the body has none; the particles are
    handed to [app.stage.removeChild] and the array is emptied when they are
    not wanted and the body has some. *)
Definition updateParticles (k : string) (c : ContainerStats) (p : Planet)
  (s : Scene) : Scene :=
  if shouldShowParticles c && (List.length (particles p) =? 0)%nat then
    let created := seq (nextObject s) 6 in
    let s := set_nextObject (nextObject s + 6) s in
    let s := fold_left (fun s o => addChild OnBase o s) created s in
    adjustPlanet k (id c) (set_particles created) s
  else if negb (shouldShowParticles c) && (0 <? List.length (particles p))%nat then
    let s := fold_left (fun s o => removeChild OnStage o s) (particles p) s in
    adjustPlanet k (id c) (set_particles []) s
  else s.

(** One step of [group.containers.forEach]: get or create the body, then
    update it. *)
Definition addOrUpdatePlanet (g : Group) (s : Scene)
  (ic : nat * ContainerStats) : Scene :=
  let containerIndex := fst ic in
  let c := snd ic in
  let k := key g in
  match map_get k (groupOrbitsRef s) with
  | None => s
  | Some groupOrbit =>
      let s := if map_has (id c) (planets groupOrbit) then s
               else createPlanet k g groupOrbit containerIndex c s in
      let isFocused := refIs (focusedPlanetIdRef s) (id c) in
      let s := adjustPlanet k (id c) (updateProperties isFocused c) s in
      match map_get k (groupOrbitsRef s) with
      | None => s
      | Some groupOrbit =>
          match map_get (id c) (planets groupOrbit) with
          | None => s
          | Some planet => updateParticles k c planet s
          end
      end
  end.

(** One step of [groups.forEach]: get or create the ring, store the group,
    drop the bodies that are gone, add or update the others. *)
Definition reconcileGroup (random : nat -> R) (totalGroups : nat) (s : Scene)
  (ig : nat * Group) : Scene :=
  let groupIndex := fst ig in
  let g := snd ig in
  let s := if map_has (key g) (groupOrbitsRef s) then s
           else createGroupOrbit random g groupIndex totalGroups s in
  let s := adjustOrbit (key g) (set_orbitGroup g) s in
  let currentContainerIds := List.map id (containers g) in
  let s := match map_get (key g) (groupOrbitsRef s) with
           | Some groupOrbit =>
               fold_left (removeStalePlanet (key g) currentContainerIds)
                         (planets groupOrbit) s
           | None => s
           end in
  fold_left (addOrUpdatePlanet g) (indexed (containers g)) s.

(** The reconciliation effect. *)
Definition reconcile (random : nat -> R) (cs : list ContainerStats) (s : Scene)
  : Scene :=
  match appRef s with
  | None => s
  | Some _ =>
      let groups := groupContainers cs in
      let currentGroupKeys := List.map key groups in
      let s := fold_left (removeStaleOrbit currentGroupKeys) (groupOrbitsRef s) s in
      fold_left (reconcileGroup random (List.length groups)) (indexed groups) s
  end.

(** ** Mount, resize and the animation clock *)

(** The scene after the mount effect, in a window of the given inner size:
    the stage holds the overlay container (0), the base layer (1) and the
    focus layer (2); the base layer holds the sun glow (3) and the sun (4). *)
Definition mount (innerWidth innerHeight : R) : Scene :=
  {| appRef := Some {| width := (innerWidth - 300)%R;
                       height := (innerHeight - 52)%R |};
     groupOrbitsRef := [];
     focusedPlanetIdRef := None;
     unfocusTimeoutRef := None;
     store := initialStore;
     overlayVisible := false;
     stage := [0; 1; 2];
     baseLayer := [3; 4];
     focusLayer := [];
     nextObject := 5;
     timers := [];
     nextTimer := 1;
     randomCount := 0 |}.

(** [handleResize]: every ring gets the radius of its position in the map. *)
Definition handleResize (innerWidth innerHeight : R) (s : Scene) : Scene :=
  let s := set_appRef (Some {| width := (innerWidth - 300)%R;
                               height := (innerHeight - 52)%R |}) s in
  let orbits := groupOrbitsRef s in
  set_groupOrbitsRef
    (List.map
       (fun ie =>
          (fst (snd ie),
           set_orbitRadius
             (calculateOrbitRadius (appRef s) (fst ie) (List.length orbits))
             (snd (snd ie))))
       (indexed orbits))
    s.

(** The orbital part of the ticker: every body advances by
    [orbitSpeed * delta]. *)
Definition tick (delta : R) (s : Scene) : Scene :=
  set_groupOrbitsRef
    (List.map
       (fun e =>
          (fst e,
           set_planets
             (List.map
                (fun pe =>
                   (fst pe,
                    set_angle (angle (snd pe) + orbitSpeed (snd pe) * delta)%R
                              (snd pe)))
                (planets (snd e)))
             (snd e)))
       (groupOrbitsRef s))
    s.

(** ** Events *)

Inductive Event : Type :=
| PointerOver (closureSelection : Selection) (planetId : string)
| PointerOut
| PointerDown (planetId : string) (c : ContainerStats)
| RingPointerDown (g : Group)
| TimeoutFires (t : nat)
| KeyEscape (closureSelection : Selection)
| Refresh (random : nat -> R) (cs : list ContainerStats)
| Tick (delta : R)
| Resize (innerWidth innerHeight : R).

Definition step (s : Scene) (e : Event) : Scene :=
  match e with
  | PointerOver sel planetId => handleHover sel planetId s
  | PointerOut => maybeUnfocus s
  | PointerDown planetId c => handleClick planetId c s
  | RingPointerDown g => ringPointerDown g s
  | TimeoutFires t => fireTimeout t s
  | KeyEscape sel => handleEscape sel s
  | Refresh random cs => reconcile random cs s
  | Tick delta => tick delta s
  | Resize w h => handleResize w h s
  end.

Definition run (s : Scene) (es : list Event) : Scene := fold_left step es s.

(** The bodies whose sprite is a child of the focus layer. *)
Definition bodiesOn (l : Layer) (s : Scene) : list string :=
  flat_map
    (fun e =>
       List.map fst
         (filter (fun pe => hasChild l (sprite (snd pe)) s) (planets (snd e))))
    (groupOrbitsRef s).

(** ** Reading the scene *)

(** The body [pid] of the ring [k]. *)
Definition getPlanet (k pid : string) (s : Scene) : option Planet :=
  match map_get k (groupOrbitsRef s) with
  | Some o => map_get pid (planets o)
  | None => None
  end.

(** The display objects of a body. *)
Definition graphicsOf (p : Planet) : list nat :=
  sprite p :: glow p :: rimGlow p :: particles p.

(** The radii of the rings, in the order of the map. *)
Definition ringRadii (s : Scene) : list (string * R) :=
  List.map (fun e => (fst e, orbitRadius (snd e))) (groupOrbitsRef s).

(** ** Invariants of the scene *)

(** The maps of the scene are maps: the rings have distinct keys and so
    have the bodies of each ring. *)
Definition sceneWf (s : Scene) : Prop :=
  map_wf (groupOrbitsRef s) /\
  Forall (fun o => map_wf (planets o)) (List.map snd (groupOrbitsRef s)).

(** The sprite width of an unfocused body: the diameter. *)
Definition plainWidth (c : ContainerStats) : R := (planetSize c * 2)%R.

(** The sprite width that the update step gives a body under the focus
    ref [foc]. *)
Definition targetWidth (foc : option string) (c : ContainerStats) : R :=
  if refIs foc (id c) then (plainWidth c * theme.hover.focusScale)%R
  else plainWidth c.

(** The sprite of a body is square and has the width that the update step
    gives it under the present focus ref [foc]; or it still has the focus
    scale although the ref has been cleared since the refresh began, when
    the ref named the body ([foc0] is the ref at the beginning). *)
Definition sizeOK (foc0 foc : option string) (p : Planet) : Prop :=
  spriteHeight p = spriteWidth p /\
  (spriteWidth p = targetWidth foc (container p) \/
   (spriteWidth p = (plainWidth (container p) * theme.hover.focusScale)%R /\
    foc = None /\ refIs foc0 (id (container p)) = true)).

(** The body has particles exactly when its entity wants them. *)
Definition particlesOK (p : Planet) : Prop :=
  negb (List.length (particles p) =? 0)%nat = shouldShowParticles (container p).

(** The body carries what the update step computes from its entity. *)
Definition Updated (foc0 foc : option string) (p : Planet) : Prop :=
  orbitSpeed p = planetOrbitSpeed (container p) /\ sizeOK foc0 foc p /\
  particlesOK p.

(** The ring [o] shows the group [g]: it stores [g], each of its bodies is
    the updated body of a member of [g] under that member's id, and every
    member has a body. *)
Definition orbitSettled (g : Group) (foc0 foc : option string)
  (o : GroupOrbit) : Prop :=
  orbitGroup o = g /\
  (forall pid p, map_get pid (planets o) = Some p ->
     In (container p) (containers g) /\ id (container p) = pid /\
     Updated foc0 foc p) /\
  (forall c, In c (containers g) -> map_has (id c) (planets o) = true).

(** The rings of the groups [gs] are settled in the scene, in a refresh
    that began with the focus ref [foc0]: the ref is still [foc0] or has
    been cleared. *)
Definition settled (gs : list Group) (foc0 : option string) (s : Scene)
  : Prop :=
  (focusedPlanetIdRef s = foc0 \/ focusedPlanetIdRef s = None) /\
  forall g, In g gs ->
    exists o, map_get (key g) (groupOrbitsRef s) = Some o /\
              orbitSettled g foc0 (focusedPlanetIdRef s) o.

(** [s'] has the surface, the rings with their bodies and the focus ref of
    [s]. *)
Definition sameCore (s s' : Scene) : Prop :=
  appRef s' = appRef s /\
  groupOrbitsRef s' = groupOrbitsRef s /\
  focusedPlanetIdRef s' = focusedPlanetIdRef s.

(** The ring [o'] stores the group of [o] and has bodies under the same
    ids. *)
Definition sameShape (o o' : GroupOrbit) : Prop :=
  orbitGroup o' = orbitGroup o /\
  forall pid, map_has pid (planets o') = map_has pid (planets o).

(** [s'] comes from [s] by steps that keep the surface, the keys of the
    rings, the map invariant and the settled rings other than [k]. *)
Definition keepsOthers (k : string) (s s' : Scene) : Prop :=
  appRef s' = appRef s /\
  map_keys (groupOrbitsRef s') = map_keys (groupOrbitsRef s) /\
  (sceneWf s -> sceneWf s') /\
  (forall gs foc0, (forall g, In g gs -> key g <> k) ->
                   settled gs foc0 s -> settled gs foc0 s').

(** A change [F] of the bodies of the ring [k]. *)
Definition onPlanets (k : string) (F : JsMap Planet -> JsMap Planet)
  (orbits : JsMap GroupOrbit) : JsMap GroupOrbit :=
  map_adjust k (fun o => set_planets (F (planets o)) o) orbits.

(** The body without its sprite size. *)
Definition eraseSize (p : Planet) : Planet :=
  {| container := container p; sprite := sprite p; glow := glow p;
     rimGlow := rimGlow p; particles := particles p; angle := angle p;
     orbitSpeed := orbitSpeed p; spriteWidth := 0%R; spriteHeight := 0%R |}.

(** The scene without the sprite sizes of its bodies: the rings, the
    identity, entity, angle, speed and particles of every body, the layers,
    the store, the focus ref, the timers and the counters are all there. *)
Definition eraseSizes (s : Scene) : Scene :=
  set_groupOrbitsRef
    (List.map
       (fun e =>
          (fst e,
           set_planets
             (List.map (fun pe => (fst pe, eraseSize (snd pe)))
                       (planets (snd e)))
             (snd e)))
       (groupOrbitsRef s))
    s.

(** The ring has, for every member of [g], a body that shows the member
    with its speed and its particles. *)
Definition orbitShows (g : Group) (o : GroupOrbit) : Prop :=
  forall c, In c (containers g) ->
    exists p, map_get (id c) (planets o) = Some p /\ container p = c /\
              orbitSpeed p = planetOrbitSpeed c /\ particlesOK p.

(** [p'] is the body [p]: the same display objects at the same angle. *)
Definition sameBody (p p' : Planet) : Prop :=
  sprite p' = sprite p /\ glow p' = glow p /\ rimGlow p' = rimGlow p /\
  angle p' = angle p.

(** [o'] is the ring [o]: the same display objects, radius and start
    angle. *)
Definition sameRing (o o' : GroupOrbit) : Prop :=
  orbitLine o' = orbitLine o /\ orbitGlow o' = orbitGlow o /\
  labelText o' = labelText o /\ hitArea o' = hitArea o /\
  orbitRadius o' = orbitRadius o /\
  randomStartAngle o' = randomStartAngle o.

(** Every body of [P] is still in [P'], under its id. *)
Definition bodiesKept (P P' : JsMap Planet) : Prop :=
  forall pid p, map_get pid P = Some p ->
    exists p', map_get pid P' = Some p' /\ sameBody p p'.

(** Every ring of [s] with a key in [keys] is still in [s'], and so is every
    body of such a ring [k] whose id is in [idsOf k]. *)
Definition keptScene (keys : list string) (idsOf : string -> list string)
  (s s' : Scene) : Prop :=
  forall k o, In k keys -> map_get k (groupOrbitsRef s) = Some o ->
    exists o', map_get k (groupOrbitsRef s') = Some o' /\ sameRing o o' /\
      forall pid p, In pid (idsOf k) -> map_get pid (planets o) = Some p ->
        exists p', map_get pid (planets o') = Some p' /\ sameBody p p'.

(** The ids of the entities of the group [k]. *)
Definition idsOfGroup (cs : list ContainerStats) (k : string) : list string :=
  List.map id (membersOf k cs).

(** ** The VarInt codec of the Minecraft adapter ([adapters/minecraft.ts]) *)

(** The 32-bit conversions that the bit operators of JavaScript apply to
    their operands; the numbers are integers. *)
Definition toInt32 (x : Z) : Z := ((x + 2 ^ 31) mod 2 ^ 32 - 2 ^ 31)%Z.
Definition toUint32 (x : Z) : Z := (x mod 2 ^ 32)%Z.

(** [x & y], [x | y], [x << n], [x >> n] and [x >>> n] *)
Definition jsAnd (x y : Z) : Z := toInt32 (Z.land (toInt32 x) (toInt32 y)).
Definition jsOr (x y : Z) : Z := toInt32 (Z.lor (toInt32 x) (toInt32 y)).
Definition jsShl (x n : Z) : Z := toInt32 (Z.shiftl (toInt32 x) (toUint32 n mod 32)).
Definition jsSar (x n : Z) : Z := Z.shiftr (toInt32 x) (toUint32 n mod 32).
Definition jsShr (x n : Z) : Z := Z.shiftr (toUint32 x) (toUint32 n mod 32).

(** A result or a thrown [Error] with its message. *)
Inductive Thrown (A : Type) : Type :=
| Ok (a : A)
| Throw (message : string).
Arguments Ok {A} a.
Arguments Throw {A} message.

(** The [do ... while (value !== 0)] loop of [writeVarInt].  After the first
    [value >>>= 7] the value is below [2^25], so the body runs five times at
    most; [rounds] counts the rounds that are left and [None] stands for a
    loop that would go on. *)
Fixpoint writeVarInt_loop (rounds : nat) (value : Z) : option (list Z) :=
  match rounds with
  | O => None
  | S rounds =>
      let temp := jsAnd value 127 in
      let value := jsShr value 7 in
      if (value =? 0)%Z then Some [temp]
      else option_map (cons (jsOr temp 128)) (writeVarInt_loop rounds value)
  end.

(** [Buffer.from(array)]: every entry is stored [& 255]. *)
Definition bufferFrom (bytes : list Z) : list Z :=
  List.map (fun b => jsAnd b 255) bytes.

Definition writeVarInt (value : Z) : option (list Z) :=
  option_map bufferFrom (writeVarInt_loop 5 value).

Record VarInt : Type := mkVarInt { value : Z; bytesRead : nat }.

(** The loop of [readVarInt] on the bytes from [offset + numRead] on. *)
Fixpoint readVarInt_loop (bytes : list Z) (numRead : nat) (result : Z)
  : Thrown VarInt :=
  match bytes with
  | [] => Throw "VarInt is too short"
  | read :: rest =>
      let value := jsAnd read 127 in
      let result := jsOr result (jsShl value (7 * Z.of_nat numRead)) in
      let numRead := S numRead in
      if (5 <? numRead)%nat then Throw "VarInt is too big"
      else if (jsAnd read 128 =? 0)%Z then
        Ok {| value := result; bytesRead := numRead |}
      else readVarInt_loop rest numRead result
  end.

Definition readVarInt (buffer : list Z) (offset : nat) : Thrown VarInt :=
  readVarInt_loop (skipn offset buffer) 0 0.


(** [Buffer.from(host, 'utf8')]: a string is the sequence of its UTF-8
    bytes. *)
Definition utf8Bytes (s : string) : list Z :=
  List.map (fun ch => Z.of_nat (nat_of_ascii ch)) (list_ascii_of_string s).

(** Sequencing of the [writeVarInt] calls of a packet builder. *)
Definition andThen {A B : Type} (x : option A) (f : A -> option B) : option B :=
  match x with
  | Some a => f a
  | None => None
  end.

Definition buildHandshakePacket (host : string) (port : Z) : option (list Z) :=
  let packetId := 0%Z in
  let protocolVersion := 47%Z in
  let nextState := 1%Z in
  let hostBuffer := utf8Bytes host in
  andThen (writeVarInt protocolVersion) (fun pv =>
  andThen (writeVarInt (Z.of_nat (List.length hostBuffer))) (fun hl =>
  andThen (writeVarInt nextState) (fun ns =>
  let data := pv ++ hl ++ hostBuffer
              ++ bufferFrom [jsSar port 8; jsAnd port 255] ++ ns in
  andThen (writeVarInt (Z.of_nat (List.length data) + 1)) (fun pl =>
  andThen (writeVarInt packetId) (fun pid =>
  Some (pl ++ pid ++ data)))))).

Definition buildStatusRequestPacket : option (list Z) :=
  let packetId := 0%Z in
  andThen (writeVarInt 1) (fun pl =>
  andThen (writeVarInt packetId) (fun pid =>
  Some (pl ++ pid))).

(** The bytes of one VarInt: continuation bytes, then a final byte. *)
Inductive VarIntBytes : list Z -> Prop :=
| VarIntLast (b : Z) : (0 <= b < 128)%Z -> VarIntBytes [b]
| VarIntMore (b : Z) (bs : list Z) :
    (128 <= b < 256)%Z -> VarIntBytes bs -> VarIntBytes (b :: bs).

(** ** Group of a container ([services/docker.ts]) *)

(** [labels[k]] when it is truthy: the label is there and is not the empty
    string. *)
Definition truthyLabel (k : string) (labels : JsMap string) : option string :=
  match map_get k labels with
  | Some v => if v =? "" then None else Some v
  | None => None
  end.

(** The longest prefix without [-] and [_]. *)
Fixpoint leadingWord (s : string) : string :=
  match s with
  | EmptyString => EmptyString
  | String ch rest =>
      if isSeparator ch then EmptyString else String ch (leadingWord rest)
  end.

(** [name.match(/^([^-_]+)/)]: the group of the match, when there is one. *)
Definition matchNamePrefix (name : string) : option string :=
  match leadingWord name with
  | EmptyString => None
  | String ch w => Some (String ch w)
  end.

(** [deriveGroupFromContainer]; [labels] is [containerInfo.Labels], which may
    be missing. *)
Definition deriveGroupFromContainer (labels : option (JsMap string))
  (name : string) : string :=
  let labels := match labels with Some l => l | None => [] end in
  match truthyLabel "mission.group" labels with
  | Some g => g
  | None =>
      match truthyLabel "com.docker.compose.project" labels with
      | Some g => g
      | None =>
          match matchNamePrefix name with
          | Some w => w
          | None => name
          end
      end
  end.

(** A string of ASCII characters: on these [toUpper] is the [toUpperCase]
    of the code, so [formatGroupTitle] gives the title that the code gives. *)
Fixpoint isAscii (s : string) : bool :=
  match s with
  | EmptyString => true
  | String ch rest => (nat_of_ascii ch <? 128)%nat && isAscii rest
  end.

(** A string without [-] and [_]. *)
Fixpoint noSeparator (s : string) : bool :=
  match s with
  | EmptyString => true
  | String ch rest => negb (isSeparator ch) && noSeparator rest
  end.

(** The first character of a string is a separator. *)
Definition startsWithSeparator (s : string) : bool :=
  match s with
  | EmptyString => false
  | String ch _ => isSeparator ch
  end.

(** The sizes of the groups, added up. *)
Definition memberCount (gs : list Group) : nat :=
  list_sum (List.map (fun g => List.length (containers g)) gs).

(** ** Status and uptime texts ([DockerService] of [adapters/index.ts],
    [PlanetDetails.tsx]) *)

(** [Number.isSafeInteger(n)]: the integers that a JavaScript number holds
    exactly.  On them the sums, the [%] and the [Math.floor] of a quotient
    by a positive integer are the exact ones (the rounding error of the
    quotient is below the inverse of the divisor), and a template literal
    prints every digit.  The texts below stand for the code on safe
    integers only: from [2^53] on the code rounds, and from [1e21] on it
    prints an exponent. *)
Definition safeInteger (n : Z) : bool :=
  ((- 2 ^ 53 <? n) && (n <? 2 ^ 53))%Z.

(** [`${n}`] for a safe integer [n]. *)
Definition showInt (n : Z) : string := NilZero.string_of_int (Z.to_int n).

(** [formatContainerStatus]; [uptimeSeconds] is a safe integer:
    [getContainerStats] computes it with [Math.floor] from two times in
    milliseconds and replaces a negative or infinite value by 0. *)
Definition formatContainerStatus (state : string) (uptimeSeconds : Z)
  (originalStatus : string) : string :=
  if (state =? "running") && (0 <? uptimeSeconds)%Z then
    let days := (uptimeSeconds / 86400)%Z in
    let hours := (Z.rem uptimeSeconds 86400 / 3600)%Z in
    let minutes := (Z.rem uptimeSeconds 3600 / 60)%Z in
    let seconds := Z.rem uptimeSeconds 60 in
    if (0 <? days)%Z then
      "Up " ++ showInt days ++ " day" ++ (if negb (days =? 1)%Z then "s" else "")
    else if (0 <? hours)%Z then
      "Up " ++ showInt hours ++ " hour" ++ (if negb (hours =? 1)%Z then "s" else "")
    else if (0 <? minutes)%Z then
      "Up " ++ showInt minutes ++ " minute"
        ++ (if negb (minutes =? 1)%Z then "s" else "")
    else
      "Up " ++ showInt seconds ++ " second"
        ++ (if negb (seconds =? 1)%Z then "s" else "")
  else originalStatus.

(** [formatUptime] of the details panel; [now] is [Date.now()] in
    milliseconds and [created] a time in seconds, both integers, with
    [now], [created * 1000] and their difference safe integers. *)
Definition formatUptime (now created : Z) : string :=
  let diff := (now - created * 1000)%Z in
  let seconds := (diff / 1000)%Z in
  let minutes := (seconds / 60)%Z in
  let hours := (minutes / 60)%Z in
  let days := (hours / 24)%Z in
  if (0 <? days)%Z then showInt days ++ "d " ++ showInt (Z.rem hours 24) ++ "h"
  else if (0 <? hours)%Z then
    showInt hours ++ "h " ++ showInt (Z.rem minutes 60) ++ "m"
  else if (0 <? minutes)%Z then showInt minutes ++ "m"
  else showInt seconds ++ "s".

(** The text ["Up <n> <unit>"] with the plural [s]. *)
Definition upText (n : Z) (unit : string) : string :=
  "Up " ++ showInt n ++ " " ++ unit ++ (if (n =? 1)%Z then "" else "s").

(** ** Keyboard navigation ([handleKeyDown]) *)

(** [array.indexOf(x)]: the first position of [x], or -1. *)
Fixpoint indexOf (x : string) (l : list string) : Z :=
  match l with
  | [] => (-1)%Z
  | y :: rest =>
      if y =? x then 0%Z
      else let i := indexOf x rest in
           if (i <? 0)%Z then (-1)%Z else (i + 1)%Z
  end.

(** [array[i]] for an integer [i]: [undefined] outside the array. *)
Definition arrayGet {A : Type} (l : list A) (i : Z) : option A :=
  if (i <? 0)%Z then None else nth_error l (Z.to_nat i).

(** The loop that looks a body up by its id and takes its entity:
    [forEach(o => { const p = o.planets.get(id); if (p) c = p.container })]. *)
Definition containerOf (pid : string) (s : Scene) : option ContainerStats :=
  match findPlanet pid (groupOrbitsRef s) with
  | Some (_, planet) => Some (container planet)
  | None => None
  end.

(** [handleKeyDown]; [key] is [e.key] and [sel] the [selection] of the
    closure. *)
Definition handleKeyDown (key : string) (sel : Selection) (s : Scene) : Scene :=
  let allIds := allPlanetIds s in
  match allIds with
  | [] => s
  | _ :: _ =>
      if key =? "Escape" then
        match sel with
        | SelNone => s
        | _ => unfocusPlanet s
        end
      else if (key =? "ArrowRight") || (key =? "ArrowDown") then
        let currentIndex :=
          match sel with
          | SelPlanet pid _ _ => indexOf pid allIds
          | _ => (-1)%Z
          end in
        let nextIndex :=
          Z.rem (currentIndex + 1) (Z.of_nat (List.length allIds)) in
        match arrayGet allIds nextIndex with
        | Some nextPlanetId =>
            match containerOf nextPlanetId s with
            | Some nextContainer => handleClick nextPlanetId nextContainer s
            | None => s
            end
        | None => s
        end
      else if (key =? "ArrowLeft") || (key =? "ArrowUp") then
        let currentIndex :=
          match sel with
          | SelPlanet pid _ _ => indexOf pid allIds
          | _ => 0%Z
          end in
        let prevIndex :=
          if (currentIndex <=? 0)%Z then (Z.of_nat (List.length allIds) - 1)%Z
          else (currentIndex - 1)%Z in
        match arrayGet allIds prevIndex with
        | Some prevPlanetId =>
            match containerOf prevPlanetId s with
            | Some prevContainer => handleClick prevPlanetId prevContainer s
            | None => s
            end
        | None => s
        end
      else if key =? "Enter" then
        match sel with
        | SelPlanet pid c false =>
            if truthy (focusedPlanetIdRef s)
            then set_store (selectPlanet pid c true (store s)) s
            else s
        | _ => s
        end
      else s
  end.

(** What the component reacts to: the events of the scene and the keys. *)
Inductive Input : Type :=
| FromEvent (e : Event)
| KeyDown (key : string) (closureSelection : Selection).

Definition stepInput (s : Scene) (i : Input) : Scene :=
  match i with
  | FromEvent e => step s e
  | KeyDown key sel => handleKeyDown key sel s
  end.

Definition runInputs (s : Scene) (inputs : list Input) : Scene :=
  fold_left stepInput inputs s.

(** ** More invariants of the scene *)

(** The display object [o] is a child of the base layer or of the focus
    layer. *)
Definition attached (o : nat) (s : Scene) : Prop :=
  In o (baseLayer s) \/ In o (focusLayer s).

(** Whatever is attached in [s] is attached in [s']. *)
Definition keepsAttached (s s' : Scene) : Prop :=
  forall o, attached o s -> attached o s'.

(** At most one timeout is armed, and the ref names it. *)
Definition pendingOK (s : Scene) : Prop :=
  (List.length (timers s) <= 1) /\
  forall t, In t (timers s) -> unfocusTimeoutRef s = Some t.

(** The selection is none, a group, or a pinned body. *)
Definition pinnedOrGroup (sel : Selection) : Prop :=
  match sel with
  | SelPlanet _ _ persistent => persistent = true
  | _ => True
  end.

(** Every body is stored under the id of its entity. *)
Definition idsAreKeys (s : Scene) : Prop :=
  forall k o pid p,
    In (k, o) (groupOrbitsRef s) -> In (pid, p) (planets o) ->
    id (container p) = pid.

(** The id of the pinned or selected body of the store. *)
Definition selectedId (s : Scene) : option string :=
  match selection (store s) with
  | SelPlanet pid _ _ => Some pid
  | _ => None
  end.

(** The rings with their bodies, without the sprite sizes. *)
Definition sizeless (s : Scene) : JsMap GroupOrbit :=
  groupOrbitsRef (eraseSizes s).

(** ** Entities and event sequences used as test inputs *)

Definition entity (i g st : string) (cpu mem : Q) : ContainerStats :=
  {| id := i; name := i; state := st; cpuPercent := Some cpu;
     memoryPercent := Some mem; group := g |}.

(** The two entities of the scenario of the design document. *)
Definition entA : ContainerStats := entity "a" "web" "running" 80 50.
Definition entB : ContainerStats := entity "b" "web" "exited" 0 10.

(** Entity [a] once its load has dropped. *)
Definition entA_idle : ContainerStats := entity "a" "web" "running" 10 50.

(** An entity of another group. *)
Definition entD : ContainerStats := entity "d" "db" "running" 20 30.

(** Entities of the groups [cache] and [queue]. *)
Definition entC : ContainerStats := entity "c" "cache" "running" 5 5.
Definition entQ : ContainerStats := entity "q" "queue" "paused" 0 5.

(** Entity [b] after it has been renamed into the group [db]. *)
Definition entB_moved : ContainerStats := entity "b" "db" "exited" 0 10.

(** Entity [e], a second member of the group [web]. *)
Definition entE : ContainerStats := entity "e" "web" "running" 1 1.

(** A stream for [Math.random]. *)
Definition noRandom (n : nat) : R := 0%R.

(** A 1300 x 852 window: the render surface is 1000 x 800. *)
Definition window0 : Scene := mount 1300 852.

(** What an unfocus would touch: the store, the focus ref, the rings with
    their bodies, the two layers and the overlay. *)
Definition focusState (s : Scene)
  : SelectionState * option string * JsMap GroupOrbit * list nat * list nat * bool :=
  (store s, focusedPlanetIdRef s, groupOrbitsRef s, baseLayer s, focusLayer s,
   overlayVisible s).

(** Normalisation that leaves the arithmetic of the reals alone. *)
Ltac crunch :=
  lazy -[IZR INR Rmult Rplus Rdiv Rminus Rinv Ropp PI sqrt Rmin Q2R].

(* ================================================================== *)
(** * Part II: properties                                              *)
(* ================================================================== *)

(** ** Selection store *)

(** C10. In the selection store the two fields are framed apart: [setHover]
    and [clearHover] leave [selection] as it was, and [selectPlanet],
    [selectGroup] and [clearSelection] leave [hover] as it was. *)
Theorem store_frame :
  forall st : SelectionState,
    (forall pid c, selection (setHover pid c st) = selection st) /\
    selection (clearHover st) = selection st /\
    (forall pid c p, hover (selectPlanet pid c p st) = hover st) /\
    (forall k g, hover (selectGroup k g st) = hover st) /\
    hover (clearSelection st) = hover st.
Proof.
  intros st; repeat split.
Qed.

(** ** Orbit radius policy *)

Lemma radius_step_nonneg (V : R) (N : nat) :
  (0 <= V)%R ->
  (0 <= (if (6 <? N)%nat then V * 0.075 * 0.85 else V * 0.075))%R.
Proof.
  intros HV; destruct (6 <? N)%nat; nra.
Qed.

(** C3. With a render surface of smaller side [V], [N >= 1] groups and
    0-based indices [i <= j < N], the radius of ring [i] is
    [min (0.12 V + i * step, 0.46 V)], where [step] is [0.075 V], times
    [0.85] exactly when [N > 6]; it never exceeds [0.46 V]; and, [V] being
    a length ([V >= 0]), it does not decrease from [i] to [j]. *)
Theorem orbit_radius_policy :
  forall (scr : Screen) (N i j : nat),
    let V := Rmin (width scr) (height scr) in
    let step := (if (6 <? N)%nat then 0.075 * V * 0.85 else 0.075 * V)%R in
    (1 <= N)%nat -> (i <= j)%nat -> (j < N)%nat ->
    calculateOrbitRadius (Some scr) i N
      = Rmin (0.12 * V + INR i * step) (0.46 * V) /\
    (calculateOrbitRadius (Some scr) i N <= 0.46 * V)%R /\
    ((0 <= V)%R ->
     (calculateOrbitRadius (Some scr) i N
        <= calculateOrbitRadius (Some scr) j N)%R).
Proof.
  intros scr N i j V step HN Hij HjN.
  unfold calculateOrbitRadius; fold V.
  assert (Hinr : (INR i <= INR j)%R) by (apply le_INR; exact Hij).
  split; [| split].
  - f_equal; [| lra].
    unfold step; destruct (6 <? N)%nat; lra.
  - replace (0.46 * V)%R with (V * 0.46)%R by lra.
    apply Rmin_r.
  - intros HV. pose proof (radius_step_nonneg V N HV) as Hstep.
    apply Rle_min_compat_r.
    apply Rplus_le_compat_l.
    apply Rmult_le_compat_r; assumption.
Qed.

(** The policy at a 1000 x 800 surface with eight groups: rings 2 and 5. *)
Lemma orbit_radius_policy_witness :
  let scr := {| width := 1000; height := 800 |} in
  let V := Rmin 1000 800 in
  calculateOrbitRadius (Some scr) 2 8
    = Rmin (0.12 * V + INR 2 * (0.075 * V * 0.85)) (0.46 * V) /\
  (calculateOrbitRadius (Some scr) 2 8 <= 0.46 * V)%R /\
  ((0 <= V)%R ->
   (calculateOrbitRadius (Some scr) 2 8 <= calculateOrbitRadius (Some scr) 5 8)%R).
Proof.
  apply (orbit_radius_policy {| width := 1000; height := 800 |} 8 2 5); lia.
Defined.

(** ** The insertion-ordered map *)

Section JsMapFacts.
Context {V : Type}.
Implicit Types (m : JsMap V) (k : string) (v : V).

Lemma map_get_none m k : ~ In k (map_keys m) -> map_get k m = None.
Proof.
  induction m as [| [k' v'] m IH]; simpl; intros H; [reflexivity |].
  destruct (String.eqb_spec k' k) as [-> | Hne].
  - exfalso; apply H; now left.
  - apply IH; intros Hin; apply H; now right.
Qed.

Lemma map_get_in_keys m k v : map_get k m = Some v -> In k (map_keys m).
Proof.
  induction m as [| [k' v'] m IH]; simpl; [discriminate |].
  destruct (String.eqb_spec k' k) as [-> | Hne]; intros H.
  - now left.
  - right; now apply IH.
Qed.

Lemma map_get_In m k v : map_get k m = Some v -> In (k, v) m.
Proof.
  induction m as [| [k' v'] m IH]; simpl; [discriminate |].
  destruct (String.eqb_spec k' k) as [-> | Hne]; intros H.
  - left; congruence.
  - right; now apply IH.
Qed.

Lemma map_In_get m k v : map_wf m -> In (k, v) m -> map_get k m = Some v.
Proof.
  unfold map_wf.
  induction m as [| [k' v'] m IH]; simpl; intros Hwf Hin; [contradiction |].
  inversion Hwf as [| ? ? Hnotin Hwf']; subst.
  destruct Hin as [Heq | Hin].
  - inversion Heq; subst. now rewrite String.eqb_refl.
  - destruct (String.eqb_spec k' k) as [-> | Hne].
    + exfalso; apply Hnotin. change (In (fst (k, v)) (List.map fst m)).
      now apply in_map.
    + now apply IH.
Qed.

Lemma map_set_fresh m k v : ~ In k (map_keys m) -> map_set k v m = m ++ [(k, v)].
Proof.
  induction m as [| [k' v'] m IH]; simpl; intros H; [reflexivity |].
  destruct (String.eqb_spec k' k) as [-> | Hne].
  - exfalso; apply H; now left.
  - f_equal; apply IH; intros Hin; apply H; now right.
Qed.

Lemma map_keys_set m k v :
  map_keys (map_set k v m) =
  if map_has k m then map_keys m else map_keys m ++ [k].
Proof.
  unfold map_has.
  induction m as [| [k' v'] m IH]; simpl; [reflexivity |].
  destruct (String.eqb_spec k' k) as [-> | Hne]; simpl; [reflexivity |].
  rewrite IH. destruct (map_get k m); reflexivity.
Qed.

Lemma map_has_true m k : map_has k m = true <-> In k (map_keys m).
Proof.
  unfold map_has; split.
  - destruct (map_get k m) eqn:E; [| discriminate].
    intros _; eapply map_get_in_keys; eassumption.
  - intros Hin. destruct (map_get k m) eqn:E; [reflexivity |].
    exfalso. revert E. induction m as [| [k' v'] m IH]; simpl in *; [contradiction |].
    destruct (String.eqb_spec k' k) as [-> | Hne]; [discriminate |].
    destruct Hin as [Heq | Hin]; [contradiction | now apply IH].
Qed.

Lemma map_has_false m k : map_has k m = false <-> ~ In k (map_keys m).
Proof.
  rewrite <- map_has_true. destruct (map_has k m); split; intros; congruence.
Qed.

Lemma map_get_set_same m k v : map_get k (map_set k v m) = Some v.
Proof.
  induction m as [| [k' v'] m IH]; simpl.
  - now rewrite String.eqb_refl.
  - destruct (String.eqb_spec k' k) as [-> | Hne]; simpl.
    + now rewrite String.eqb_refl.
    + destruct (String.eqb_spec k' k); [contradiction | exact IH].
Qed.

Lemma map_get_set_other m k k' v :
  k' <> k -> map_get k' (map_set k v m) = map_get k' m.
Proof.
  intros Hne.
  induction m as [| [k0 v0] m IH]; simpl.
  - destruct (String.eqb_spec k k'); [congruence | reflexivity].
  - destruct (String.eqb_spec k0 k) as [-> | Hne0]; simpl.
    + destruct (String.eqb_spec k k'); [congruence | reflexivity].
    + destruct (k0 =? k'); [reflexivity | exact IH].
Qed.

Lemma map_wf_set m k v : map_wf m -> map_wf (map_set k v m).
Proof.
  unfold map_wf; intros Hwf. rewrite map_keys_set.
  destruct (map_has k m) eqn:E; [exact Hwf |].
  apply map_has_false in E.
  apply NoDup_app; [exact Hwf | repeat constructor; simpl; tauto |].
  intros x Hx [<- | []]; contradiction.
Qed.

Lemma map_keys_delete m k :
  map_keys (map_delete k m) = filter (fun k' => negb (k' =? k)) (map_keys m).
Proof.
  unfold map_delete, map_keys.
  induction m as [| [k' v'] m IH]; simpl; [reflexivity |].
  destruct (k' =? k); simpl; now rewrite IH.
Qed.

Lemma NoDup_filter {A} (f : A -> bool) (l : list A) :
  NoDup l -> NoDup (filter f l).
Proof.
  induction 1 as [| x l Hx Hl IH]; simpl; [constructor |].
  destruct (f x); [| exact IH].
  constructor; [| exact IH].
  intros Hin; apply filter_In in Hin; tauto.
Qed.

Lemma map_wf_delete m k : map_wf m -> map_wf (map_delete k m).
Proof.
  unfold map_wf; intros H. rewrite map_keys_delete. now apply NoDup_filter.
Qed.

Lemma map_get_delete_same m k : map_get k (map_delete k m) = None.
Proof.
  apply map_get_none. rewrite map_keys_delete. intros Hin.
  apply filter_In in Hin. destruct Hin as [_ Hin].
  now rewrite String.eqb_refl in Hin.
Qed.

Lemma map_get_delete_other m k k' :
  k' <> k -> map_get k' (map_delete k m) = map_get k' m.
Proof.
  intros Hne. unfold map_delete.
  induction m as [| [k0 v0] m IH]; simpl; [reflexivity |].
  destruct (String.eqb_spec k0 k) as [-> | Hne0]; simpl.
  - destruct (String.eqb_spec k k'); [congruence | exact IH].
  - destruct (k0 =? k'); [reflexivity | exact IH].
Qed.
End JsMapFacts.

(** ** Grouping function *)

Lemma firstEncounter_In (ks : list string) (k : string) :
  In k (firstEncounter ks) <-> In k ks.
Proof.
  induction ks as [| a ks IH]; simpl; [tauto |].
  rewrite filter_In, IH.
  destruct (String.eqb_spec k a) as [-> | Hne]; simpl.
  - split; [intros _; now left | intros _; now left].
  - split.
    + intros [H | [H _]]; [now left | now right].
    + intros [H | H]; [now left | right; split; [exact H | reflexivity]].
Qed.

Lemma firstEncounter_NoDup (ks : list string) : NoDup (firstEncounter ks).
Proof.
  induction ks as [| a ks IH]; simpl; constructor.
  - intros Hin; apply filter_In in Hin. destruct Hin as [_ Hin].
    now rewrite String.eqb_refl in Hin.
  - now apply NoDup_filter.
Qed.

Lemma firstEncounter_snoc (ks : list string) (k : string) :
  firstEncounter (ks ++ [k]) =
  if in_dec string_dec k ks then firstEncounter ks else firstEncounter ks ++ [k].
Proof.
  induction ks as [| a ks IH]; simpl; [reflexivity |].
  rewrite IH.
  destruct (string_dec a k) as [-> | Hne].
  - destruct (in_dec string_dec k ks); [reflexivity |].
    rewrite filter_app; simpl. rewrite String.eqb_refl; simpl.
    now rewrite app_nil_r.
  - destruct (in_dec string_dec k ks) as [Hin | Hnin]; [reflexivity |].
    rewrite filter_app; simpl.
    destruct (String.eqb_spec k a) as [-> | _]; [contradiction | reflexivity].
Qed.

Lemma membersOf_snoc (k : string) (cs : list ContainerStats) (c : ContainerStats) :
  membersOf k (cs ++ [c]) =
  membersOf k cs ++ (if group c =? k then [c] else []).
Proof.
  unfold membersOf. rewrite filter_app; simpl.
  destruct (group c =? k); reflexivity.
Qed.

Lemma membersOf_absent (k : string) (cs : list ContainerStats) :
  ~ In k (List.map group cs) -> membersOf k cs = [].
Proof.
  unfold membersOf.
  induction cs as [| c cs IH]; simpl; intros H; [reflexivity |].
  destruct (String.eqb_spec (group c) k) as [Heq | Hne].
  - exfalso; apply H; now left.
  - apply IH; intros Hin; apply H; now right.
Qed.

Lemma bucketTable_keys ks cs : map_keys (bucketTable ks cs) = ks.
Proof.
  unfold bucketTable, map_keys. rewrite map_map; simpl. apply map_id.
Qed.

Lemma bucketTable_get ks cs k :
  In k ks -> map_get k (bucketTable ks cs) = Some (membersOf k cs).
Proof.
  unfold bucketTable.
  induction ks as [| a ks IH]; simpl; intros Hin; [contradiction |].
  destruct (String.eqb_spec a k) as [-> | Hne]; [reflexivity |].
  destruct Hin as [Heq | Hin]; [contradiction | now apply IH].
Qed.

Lemma bucketTable_push ks cs c :
  NoDup ks -> In (group c) ks ->
  map_set (group c) (membersOf (group c) cs ++ [c]) (bucketTable ks cs)
  = bucketTable ks (cs ++ [c]).
Proof.
  unfold bucketTable.
  induction ks as [| a ks IH]; simpl; intros Hnd Hin; [contradiction |].
  inversion Hnd as [| ? ? Hna Hnd']; subst.
  destruct (String.eqb_spec a (group c)) as [-> | Hne].
  - rewrite membersOf_snoc, String.eqb_refl. f_equal.
    apply map_ext_in. intros k Hk.
    rewrite membersOf_snoc.
    destruct (String.eqb_spec (group c) k) as [<- | _]; [contradiction |].
    now rewrite app_nil_r.
  - destruct Hin as [Heq | Hin]; [contradiction |].
    rewrite IH by assumption. f_equal.
    rewrite membersOf_snoc.
    destruct (String.eqb_spec (group c) a) as [Heq | _]; [congruence |].
    now rewrite app_nil_r.
Qed.

Lemma bucketTable_same ks cs c :
  ~ In (group c) ks -> bucketTable ks (cs ++ [c]) = bucketTable ks cs.
Proof.
  intros Hnin. unfold bucketTable. apply map_ext_in. intros k Hk.
  rewrite membersOf_snoc.
  destruct (String.eqb_spec (group c) k) as [<- | _]; [contradiction |].
  now rewrite app_nil_r.
Qed.

(** The loop of [groupContainers] builds the table of the design document. *)
Lemma groupMap_is_bucketTable (cs : list ContainerStats) :
  fold_left addToGroupMap cs []
  = bucketTable (firstEncounter (List.map group cs)) cs.
Proof.
  induction cs as [| c cs IH] using rev_ind; [reflexivity |].
  rewrite fold_left_app; simpl. rewrite IH; clear IH.
  rewrite map_app; simpl. rewrite firstEncounter_snoc.
  set (ks := firstEncounter (List.map group cs)).
  assert (Hnd : NoDup ks) by apply firstEncounter_NoDup.
  unfold addToGroupMap.
  destruct (in_dec string_dec (group c) (List.map group cs)) as [Hin | Hnin].
  - assert (Hin' : In (group c) ks) by now apply firstEncounter_In.
    assert (Hhas : map_has (group c) (bucketTable ks cs) = true)
      by (apply map_has_true; now rewrite bucketTable_keys).
    rewrite Hhas, bucketTable_get by assumption.
    now apply bucketTable_push.
  - assert (Hnin' : ~ In (group c) ks)
      by (intros H; apply Hnin; now apply firstEncounter_In).
    assert (Hhas : map_has (group c) (bucketTable ks cs) = false)
      by (apply map_has_false; now rewrite bucketTable_keys).
    rewrite Hhas, map_get_set_same.
    rewrite (map_set_fresh (bucketTable ks cs) (group c) [])
      by (now rewrite bucketTable_keys).
    assert (Hset : forall m : JsMap (list ContainerStats),
               ~ In (group c) (map_keys m) ->
               map_set (group c) ([] ++ [c]) (m ++ [(group c, [])])
               = m ++ [(group c, [c])]).
    { induction m as [| [k' v'] m IHm]; simpl; intros H.
      - now rewrite String.eqb_refl.
      - destruct (String.eqb_spec k' (group c)) as [Heq | Hne].
        + exfalso; apply H; now left.
        + f_equal; apply IHm; intros Hi; apply H; now right. }
    rewrite Hset by (now rewrite bucketTable_keys).
    unfold bucketTable at 2. rewrite map_app; simpl.
    fold (bucketTable ks (cs ++ [c])).
    rewrite bucketTable_same by assumption.
    rewrite membersOf_snoc, String.eqb_refl, membersOf_absent by assumption.
    reflexivity.
Qed.

Lemma groupContainers_eq (cs : list ContainerStats) :
  groupContainers cs
  = List.map (fun k => toGroup (k, membersOf k cs))
             (firstEncounter (List.map group cs)).
Proof.
  unfold groupContainers. rewrite groupMap_is_bucketTable.
  unfold bucketTable. now rewrite map_map.
Qed.

Lemma groupContainers_keys (cs : list ContainerStats) :
  List.map key (groupContainers cs) = firstEncounter (List.map group cs).
Proof.
  rewrite groupContainers_eq, map_map; simpl. apply map_id.
Qed.

Lemma someState_true (st : string) (cs : list ContainerStats) :
  someState st cs = true <-> exists c, In c cs /\ state c = st.
Proof.
  unfold someState. rewrite existsb_exists.
  split; intros [c [Hin H]]; exists c; split; try assumption.
  - now apply String.eqb_eq.
  - now apply String.eqb_eq.
Qed.

(** C5. [groupContainers] returns one group per distinct group key of the
    input, in the order in which the keys are first met; the members of a
    group are the entities of that key; and the dominant state of a group is
    the first of running, restarting, paused, exited that one of its members
    is in (exited too when none is in any of the four). *)
Theorem groupContainers_contract :
  forall cs : list ContainerStats,
    let gs := groupContainers cs in
    List.map key gs = firstEncounter (List.map group cs) /\
    NoDup (List.map key gs) /\
    (forall k, In k (List.map key gs) <-> exists c, In c cs /\ group c = k) /\
    (forall g, In g gs ->
       let has st := exists c, In c (containers g) /\ state c = st in
       containers g = membersOf (key g) cs /\
       containers g <> [] /\
       (has "running" -> dominantState g = Running) /\
       (~ has "running" -> has "restarting" -> dominantState g = Restarting) /\
       (~ has "running" -> ~ has "restarting" -> has "paused" ->
        dominantState g = Paused) /\
       (~ has "running" -> ~ has "restarting" -> ~ has "paused" ->
        dominantState g = Exited)).
Proof.
  intros cs gs.
  assert (Hkeys : List.map key gs = firstEncounter (List.map group cs))
    by apply groupContainers_keys.
  split; [exact Hkeys |].
  split; [rewrite Hkeys; apply firstEncounter_NoDup |].
  split.
  - intros k. rewrite Hkeys, firstEncounter_In, in_map_iff.
    split; intros [c [H1 H2]]; exists c; tauto.
  - intros g Hg has.
    unfold gs in Hg. rewrite groupContainers_eq in Hg.
    apply in_map_iff in Hg. destruct Hg as [k [<- Hk]].
    apply (proj1 (firstEncounter_In _ _)) in Hk. simpl.
    split; [reflexivity |].
    split.
    + apply in_map_iff in Hk. destruct Hk as [c [Hgc Hc]].
      intros Hnil.
      assert (Hin : In c (membersOf k cs)).
      { unfold membersOf. apply filter_In. split; [exact Hc |].
        now apply String.eqb_eq. }
      rewrite Hnil in Hin. exact Hin.
    + unfold getDominantState, has; simpl.
      repeat split.
      * intros H. apply someState_true in H. now rewrite H.
      * intros H1 H2.
        destruct (someState "running" (membersOf k cs)) eqn:E1.
        { exfalso; apply H1; now apply someState_true. }
        apply someState_true in H2. now rewrite H2.
      * intros H1 H2 H3.
        destruct (someState "running" (membersOf k cs)) eqn:E1.
        { exfalso; apply H1; now apply someState_true. }
        destruct (someState "restarting" (membersOf k cs)) eqn:E2.
        { exfalso; apply H2; now apply someState_true. }
        apply someState_true in H3. now rewrite H3.
      * intros H1 H2 H3.
        destruct (someState "running" (membersOf k cs)) eqn:E1.
        { exfalso; apply H1; now apply someState_true. }
        destruct (someState "restarting" (membersOf k cs)) eqn:E2.
        { exfalso; apply H2; now apply someState_true. }
        destruct (someState "paused" (membersOf k cs)) eqn:E3.
        { exfalso; apply H3; now apply someState_true. }
        reflexivity.
Qed.

(** ** Focus layer *)

(** C2. Hovering body [a], leaving it, and hovering body [b] before the
    debounce has run leaves both bodies in the focus layer: [handleHover]
    cancels the pending unfocus and focuses [b] without taking [a] back to
    the base layer.  The closure selection handed to [handleHover] is the
    selection of the store at that moment. *)
Theorem hover_then_hover_fills_focus_layer :
  let before := run window0 [Refresh noRandom [entA; entB];
                             PointerOver SelNone "a"; PointerOut] in
  let s := step before (PointerOver SelNone "b") in
  selection (store before) = SelNone /\
  bodiesOn OnFocus s = ["a"; "b"] /\
  bodiesOn OnBase s = [] /\
  focusedPlanetIdRef s = Some "b" /\
  timers s = [].
Proof.
  crunch. repeat split.
Qed.

(** ** The debounced unfocus *)

Lemma unfocusPlanet_frame (s : Scene) :
  appRef (unfocusPlanet s) = appRef s /\
  timers (unfocusPlanet s) = timers s /\
  unfocusTimeoutRef (unfocusPlanet s) = unfocusTimeoutRef s /\
  nextTimer (unfocusPlanet s) = nextTimer s.
Proof.
  unfold unfocusPlanet.
  destruct (appRef s) eqn:Eapp; [| now rewrite Eapp].
  destruct (focusedPlanetIdRef s) as [pid |]; [| now rewrite Eapp].
  destruct (negb (truthy (Some pid))); [now rewrite Eapp |].
  simpl.
  destruct (findPlanet pid (groupOrbitsRef s)) as [[k p] |]; simpl; auto.
Qed.

(** A timeout that runs while the store holds a persistent planet selection
    or a group selection unfocuses nothing. *)
Lemma fireTimeout_rechecks (t : nat) (s : Scene) :
  isPersistentPlanet (selection (store s)) || isGroup (selection (store s)) = true ->
  focusState (fireTimeout t s) = focusState s.
Proof.
  intros H. unfold fireTimeout.
  destruct (existsb (Nat.eqb t) (timers s)); [| reflexivity].
  unfold unfocusCallback; simpl.
  destruct (isPersistentPlanet (selection (store s))); [reflexivity |].
  simpl in H. now rewrite H.
Qed.

Lemma clearPendingUnfocus_frame (s : Scene) :
  appRef (clearPendingUnfocus s) = appRef s /\
  groupOrbitsRef (clearPendingUnfocus s) = groupOrbitsRef s /\
  (forall t, unfocusTimeoutRef s = Some t ->
             ~ In t (timers (clearPendingUnfocus s))).
Proof.
  unfold clearPendingUnfocus.
  destruct (unfocusTimeoutRef s) as [t0 |]; simpl; repeat split; auto;
    try discriminate.
  intros t [= <-] Hin. apply filter_In in Hin.
  destruct Hin as [_ Hin]. now rewrite Nat.eqb_refl in Hin.
Qed.

(** A pointer-down on a body of the scene pins it and disarms the timeout
    that the ref names. *)
Lemma handleClick_pins (s : Scene) (planetId : string) (c : ContainerStats)
  (k : string) (p : Planet) :
  appRef s <> None ->
  findPlanet planetId (groupOrbitsRef s) = Some (k, p) ->
  selection (store (handleClick planetId c s)) = SelPlanet planetId c true /\
  focusedPlanetIdRef (handleClick planetId c s) = Some planetId /\
  (forall t, unfocusTimeoutRef s = Some t ->
             ~ In t (timers (handleClick planetId c s))).
Proof.
  intros Happ Hfind.
  destruct (appRef s) as [scr |] eqn:Eapp; [clear Happ | congruence].
  unfold handleClick. rewrite Eapp.
  destruct (clearPendingUnfocus_frame s) as (_ & Horb & Htimer).
  revert Horb Htimer. generalize (clearPendingUnfocus s) as s1.
  intros s1 Horb Htimer. rewrite Horb, Hfind.
  assert (Hkeep : forall t, unfocusTimeoutRef s = Some t ->
            ~ In t (timers (if truthy (focusedPlanetIdRef s1)
                               && negb (refIs (focusedPlanetIdRef s1) planetId)
                            then unfocusPlanet s1 else s1))).
  { intros t Ht.
    destruct (truthy (focusedPlanetIdRef s1)
              && negb (refIs (focusedPlanetIdRef s1) planetId)).
    - destruct (unfocusPlanet_frame s1) as (_ & Hti & _). rewrite Hti. auto.
    - auto. }
  revert Hkeep.
  generalize (if truthy (focusedPlanetIdRef s1)
                 && negb (refIs (focusedPlanetIdRef s1) planetId)
              then unfocusPlanet s1 else s1) as s2.
  intros s2 Hkeep.
  destruct (hasChild OnBase (sprite p) _); simpl; auto.
Qed.

(** C6. When a pointer-leave has armed the debounced unfocus and a
    pointer-down on a body of the scene comes before the timeout runs, the
    timeout is cancelled and the new pin stands; any timeout that runs later
    reads the selection of the store at that moment and unfocuses nothing
    while it is a persistent planet selection or a group selection. *)
Theorem pin_survives_pending_unfocus :
  forall (s : Scene) (planetId : string) (c : ContainerStats)
         (k : string) (p : Planet),
    appRef s <> None ->
    findPlanet planetId (groupOrbitsRef s) = Some (k, p) ->
    let scheduled := nextTimer s in
    let s1 := maybeUnfocus s in
    let s2 := handleClick planetId c s1 in
    In scheduled (timers s1) /\
    ~ In scheduled (timers s2) /\
    selection (store s2) = SelPlanet planetId c true /\
    focusedPlanetIdRef s2 = Some planetId /\
    (forall t, focusState (fireTimeout t s2) = focusState s2) /\
    (forall (s' : Scene) (t : nat),
        isPersistentPlanet (selection (store s'))
        || isGroup (selection (store s')) = true ->
        focusState (fireTimeout t s') = focusState s').
Proof.
  intros s planetId c k p Happ Hfind scheduled s1 s2.
  assert (Hs1 : appRef s1 = appRef s /\ groupOrbitsRef s1 = groupOrbitsRef s /\
                unfocusTimeoutRef s1 = Some scheduled /\
                In scheduled (timers s1)).
  { unfold s1, maybeUnfocus.
    destruct (unfocusTimeoutRef s); simpl; repeat split; auto;
      apply in_or_app; right; now left. }
  destruct Hs1 as (Happ1 & Horb1 & Href1 & Hin1).
  destruct (handleClick_pins s1 planetId c k p) as (Hsel & Hfoc & Hnot).
  { now rewrite Happ1. }
  { now rewrite Horb1. }
  fold s2 in Hsel, Hfoc, Hnot.
  repeat split; auto.
  - intros t. apply fireTimeout_rechecks. now rewrite Hsel.
  - intros s' t H. now apply fireTimeout_rechecks.
Qed.

(** Pointer-leave on [a], then pointer-down on [b], in the scene of the two
    entities of the design document with [a] hovered. *)
Lemma pin_survives_pending_unfocus_witness :
  let s := run window0 [Refresh noRandom [entA; entB]; PointerOver SelNone "a"] in
  let s2 := handleClick "b" entB (maybeUnfocus s) in
  In (nextTimer s) (timers (maybeUnfocus s)) /\
  ~ In (nextTimer s) (timers s2) /\
  selection (store s2) = SelPlanet "b" entB true /\
  focusedPlanetIdRef s2 = Some "b" /\
  (forall t, focusState (fireTimeout t s2) = focusState s2) /\
  (forall (s' : Scene) (t : nat),
      isPersistentPlanet (selection (store s'))
      || isGroup (selection (store s')) = true ->
      focusState (fireTimeout t s') = focusState s').
Proof.
  refine (pin_survives_pending_unfocus
            (run window0 [Refresh noRandom [entA; entB]; PointerOver SelNone "a"])
            "b" entB "web"
            {| container := entB; sprite := 18; glow := 19; rimGlow := 20;
               particles := []; angle := (0 * PI * 2 + INR 1 * (PI * 2 / INR 2))%R;
               orbitSpeed := (0.05 + Q2R 0 / 100 * 0.45)%R;
               spriteWidth := ((12 + sqrt (Q2R 10 / 100) * (18 - 12)) * 2)%R;
               spriteHeight := ((12 + sqrt (Q2R 10 / 100) * (18 - 12)) * 2)%R |}
            _ _).
  - crunch. discriminate.
  - crunch. reflexivity.
Defined.

(** ** Particles *)

(** C9. Entity [a] is shown with a load of 80, then with a load of 10.  The
    second refresh empties the particle array of the body, yet the six
    particle graphics stay children of the base layer: they were added with
    [baseLayer.addChild] and are handed to [app.stage.removeChild], and the
    stage is not their parent. *)
Theorem dropped_particles_stay_on_base_layer :
  let s1 := run window0 [Refresh noRandom [entA]] in
  let s2 := step s1 (Refresh noRandom [entA_idle]) in
  option_map particles (getPlanet "web" "a" s1) = Some [12; 13; 14; 15; 16; 17] /\
  shouldShowParticles entA_idle = false /\
  option_map particles (getPlanet "web" "a" s2) = Some [] /\
  baseLayer s2 = [3; 4; 5; 6; 7; 8; 10; 9; 11; 12; 13; 14; 15; 16; 17] /\
  baseLayer s2 = baseLayer s1 /\
  stage s2 = [0; 1; 2].
Proof.
  crunch. repeat split.
Qed.

(** ** Removal of the pinned body *)

(** C7. Entity [a] (group [web]) is pinned and the next refresh lists only
    entity [d] (group [db]): the ring of [a] goes in the first loop, which
    has no unfocus step, so the selection stays the pin on [a], the focus
    ref still names [a], the overlay stays shown and the graphics of [a]
    stay in the focus layer.  Body [d] keeps its angle. *)
Theorem pinned_body_of_vanished_group_stays_selected :
  let before := run window0 [Refresh noRandom [entA; entD]; Tick 2;
                             PointerDown "a" entA] in
  let s := step before (Refresh noRandom [entD]) in
  map_keys (groupOrbitsRef s) = ["db"] /\
  getPlanet "web" "a" s = None /\
  selection (store s) = SelPlanet "a" entA true /\
  focusedPlanetIdRef s = Some "a" /\
  overlayVisible s = true /\
  focusLayer s = [10; 9; 11] /\
  option_map angle (getPlanet "db" "d" s)
    = option_map angle (getPlanet "db" "d" before).
Proof.
  crunch. repeat split.
Qed.

(** The scenario of the design document: [a] and [b] share the ring, [a] is
    pinned, the next refresh lists [b] alone.  The selection is cleared, the
    body leaves the map and [b] keeps its angle; the graphics of [a] are
    handed to [app.stage.removeChild] and stay children of the base layer. *)
Lemma pinned_body_removed_stays_on_base_layer :
  let before := run window0 [Refresh noRandom [entA; entB]; Tick 2;
                             PointerDown "a" entA] in
  let s := step before (Refresh noRandom [entB]) in
  option_map graphicsOf (getPlanet "web" "a" before)
    = Some [9; 10; 11; 12; 13; 14; 15; 16; 17] /\
  getPlanet "web" "a" s = None /\
  selection (store s) = SelNone /\
  focusedPlanetIdRef s = None /\
  option_map angle (getPlanet "web" "b" s)
    = option_map angle (getPlanet "web" "b" before) /\
  baseLayer s = [3; 4; 5; 6; 7; 8; 12; 13; 14; 15; 16; 17; 19; 18; 20; 10; 9; 11].
Proof.
  crunch. repeat split.
Qed.

(** ** Ring radii across refreshes *)

Lemma viewport0 : Rmin (1300 - 300) (852 - 52) = 800%R.
Proof.
  unfold Rmin. destruct (Rle_dec (1300 - 300) (852 - 52)); lra.
Qed.

Lemma Rmin_of_le (x y : R) : (x <= y)%R -> Rmin x y = x.
Proof.
  intros H. unfold Rmin. destruct (Rle_dec x y); [reflexivity | contradiction].
Qed.

(** C4. Three groups are shown, then the third alone, then the third with a
    new fourth.  The ring of the third group keeps the radius of index 2 of
    3 (216) through both later refreshes, where index 0 of 1 and index 0 of
    2 give 96; the new ring gets the radius of index 1 of 2 (156), so the
    radii decrease along the rings. *)
Theorem ring_radius_kept_from_creation :
  let s1 := run window0 [Refresh noRandom [entA; entD; entC]] in
  let s2 := step s1 (Refresh noRandom [entC]) in
  let s3 := step s2 (Refresh noRandom [entC; entQ]) in
  ringRadii s1 = [("web", 96%R); ("db", 156%R); ("cache", 216%R)] /\
  ringRadii s2 = [("cache", 216%R)] /\
  calculateOrbitRadius (appRef s2) 0 1 = 96%R /\
  ringRadii s3 = [("cache", 216%R); ("queue", 156%R)] /\
  List.map key (groupContainers [entC; entQ]) = ["cache"; "queue"] /\
  calculateOrbitRadius (appRef s3) 0 2 = 96%R /\
  ringRadii (handleResize 1300 852 s3) = [("cache", 96%R); ("queue", 156%R)].
Proof.
  crunch. rewrite !viewport0. simpl INR.
  assert (H0 : Rmin (800 * 0.12 + 0 * (800 * 0.075)) (800 * 0.46) = 96%R)
    by (rewrite Rmin_of_le; lra).
  assert (H1 : Rmin (800 * 0.12 + 1 * (800 * 0.075)) (800 * 0.46) = 156%R)
    by (rewrite Rmin_of_le; lra).
  assert (H2 : Rmin (800 * 0.12 + (1 + 1) * (800 * 0.075)) (800 * 0.46) = 216%R)
    by (rewrite Rmin_of_le; lra).
  rewrite H0, H1, H2. repeat split.
Qed.

(** ** Reconciling twice *)

(** C1. Entity [b] is pinned in the ring [web] and is then listed under the
    group [db], ahead of the group [web].  The first reconciliation creates
    the body of [b] in the ring [db] at the focus scale, because the focus
    ref still names [b], and then unfocuses while it drops the old body from
    the ring [web]; [unfocusPlanet] restores the size of the old body.  The
    second reconciliation with the same list sets the sprite of the new body
    back to its plain size: the scene has changed. *)
Theorem reconcile_twice_changes_sprite_size :
  let s0 := run window0 [Refresh noRandom [entD; entB]; PointerDown "b" entB] in
  let cs := [entD; entB_moved; entE] in
  let s1 := reconcile noRandom cs s0 in
  let s2 := reconcile noRandom cs s1 in
  let plain := ((12 + sqrt (Q2R 10 / 100) * (18 - 12)) * 2)%R in
  NoDup (List.map id cs) /\
  focusedPlanetIdRef s1 = None /\
  option_map spriteWidth (getPlanet "db" "b" s1) = Some (plain * 1.5)%R /\
  option_map spriteWidth (getPlanet "db" "b" s2) = Some plain /\
  (plain * 1.5)%R <> plain /\
  s2 <> s1.
Proof.
  intros s0 cs s1 s2 plain.
  assert (Hcs : NoDup (List.map id cs)).
  { repeat constructor; simpl; intuition discriminate. }
  assert (H1 : option_map spriteWidth (getPlanet "db" "b" s1) = Some (plain * 1.5)%R)
    by (crunch; reflexivity).
  assert (H2 : option_map spriteWidth (getPlanet "db" "b" s2) = Some plain)
    by (crunch; reflexivity).
  assert (Hne : (plain * 1.5)%R <> plain).
  { unfold plain. pose proof (sqrt_pos (Q2R 10 / 100)). nra. }
  assert (Hfoc : focusedPlanetIdRef s1 = None) by (crunch; reflexivity).
  clearbody s2 s1 plain.
  assert (Hdiff : s2 <> s1).
  { intros Heq. rewrite Heq in H2. rewrite H1 in H2.
    injection H2 as H2. contradiction. }
  exact (conj Hcs (conj Hfoc (conj H1 (conj H2 (conj Hne Hdiff))))).
Qed.

(** ** Mutation inside a map *)

Section MapAdjust.
Context {V : Type}.
Implicit Types (m : JsMap V) (k : string) (f : V -> V).

Lemma map_keys_adjust m k f : map_keys (map_adjust k f m) = map_keys m.
Proof.
  induction m as [| [k' v'] m IH]; simpl; [reflexivity |].
  destruct (k' =? k); simpl; [reflexivity | now rewrite IH].
Qed.

Lemma map_get_adjust m k k' f :
  map_get k' (map_adjust k f m) =
  if k =? k' then option_map f (map_get k' m) else map_get k' m.
Proof.
  induction m as [| [k0 v0] m IH]; simpl.
  - now destruct (k =? k').
  - destruct (String.eqb_spec k0 k) as [-> | Hne]; simpl.
    + destruct (String.eqb_spec k k'); reflexivity.
    + destruct (String.eqb_spec k0 k') as [-> | Hne'].
      * destruct (String.eqb_spec k k'); [congruence | reflexivity].
      * exact IH.
Qed.

Lemma map_get_adjust_same m k f :
  map_get k (map_adjust k f m) = option_map f (map_get k m).
Proof. now rewrite map_get_adjust, String.eqb_refl. Qed.

Lemma map_get_adjust_other m k k' f :
  k <> k' -> map_get k' (map_adjust k f m) = map_get k' m.
Proof.
  intros H. rewrite map_get_adjust.
  destruct (String.eqb_spec k k'); [contradiction | reflexivity].
Qed.

Lemma map_has_adjust m k k' f : map_has k' (map_adjust k f m) = map_has k' m.
Proof.
  unfold map_has. rewrite map_get_adjust.
  destruct (k =? k'); [| reflexivity].
  now destruct (map_get k' m).
Qed.

Lemma map_wf_adjust m k f : map_wf m -> map_wf (map_adjust k f m).
Proof. unfold map_wf. now rewrite map_keys_adjust. Qed.

Lemma Forall_values_adjust (P : V -> Prop) m k f :
  (forall v, P v -> P (f v)) ->
  Forall P (List.map snd m) -> Forall P (List.map snd (map_adjust k f m)).
Proof.
  intros Hf. induction m as [| [k' v'] m IH]; simpl; intros H; [constructor |].
  inversion H as [| ? ? Hv Hm]; subst.
  destruct (k' =? k); simpl; constructor; auto.
Qed.

Lemma Forall_values_set (P : V -> Prop) m k v :
  P v -> Forall P (List.map snd m) -> Forall P (List.map snd (map_set k v m)).
Proof.
  intros Hv. induction m as [| [k' v'] m IH]; simpl; intros H.
  - constructor; [exact Hv | constructor].
  - inversion H as [| ? ? Hv' Hm]; subst.
    destruct (k' =? k); simpl; constructor; auto.
Qed.

Lemma Forall_values_delete (P : V -> Prop) m k :
  Forall P (List.map snd m) -> Forall P (List.map snd (map_delete k m)).
Proof.
  unfold map_delete.
  induction m as [| [k' v'] m IH]; simpl; intros H; [constructor |].
  inversion H as [| ? ? Hv' Hm]; subst.
  destruct (negb (k' =? k)); simpl; auto.
Qed.

Lemma Forall_values_get (P : V -> Prop) m k v :
  Forall P (List.map snd m) -> map_get k m = Some v -> P v.
Proof.
  intros H Hget. apply map_get_In in Hget.
  rewrite Forall_forall in H. apply H.
  change v with (snd (k, v)). now apply in_map.
Qed.

Lemma map_adjust_id m k f :
  (forall v, map_get k m = Some v -> f v = v) -> map_adjust k f m = m.
Proof.
  induction m as [| [k' v'] m IH]; simpl; intros H; [reflexivity |].
  destruct (String.eqb_spec k' k) as [-> | Hne].
  - now rewrite H.
  - now rewrite IH.
Qed.

Lemma map_has_delete m k k' :
  map_has k' (map_delete k m) = negb (k =? k') && map_has k' m.
Proof.
  unfold map_has.
  destruct (String.eqb_spec k k') as [<- | Hne]; simpl.
  - now rewrite map_get_delete_same.
  - rewrite map_get_delete_other by congruence. reflexivity.
Qed.
End MapAdjust.

(** ** What the scene operations leave alone *)

Lemma sameCore_refl (s : Scene) : sameCore s s.
Proof. now repeat split. Qed.

Lemma sameCore_trans (s1 s2 s3 : Scene) :
  sameCore s1 s2 -> sameCore s2 s3 -> sameCore s1 s3.
Proof.
  intros (A1 & B1 & C1) (A2 & B2 & C2). repeat split; congruence.
Qed.

Lemma removeChild_core (l : Layer) (o : nat) (s : Scene) :
  sameCore s (removeChild l o s).
Proof. destruct l; now repeat split. Qed.

Lemma addChild_core (l : Layer) (o : nat) (s : Scene) :
  sameCore s (addChild l o s).
Proof. destruct l; now repeat split. Qed.

Lemma fold_core {A : Type} (f : Scene -> A -> Scene) (l : list A) :
  (forall s a, sameCore s (f s a)) ->
  forall s, sameCore s (fold_left f l s).
Proof.
  intros Hf. induction l as [| a l IH]; simpl; intros s.
  - apply sameCore_refl.
  - eapply sameCore_trans; [apply Hf | apply IH].
Qed.

Lemma removePlanetGraphics_core (p : Planet) (s : Scene) :
  sameCore s (removePlanetGraphics p s).
Proof.
  unfold removePlanetGraphics.
  eapply sameCore_trans; [| apply fold_core; intros; apply removeChild_core].
  now repeat split.
Qed.

Lemma moveBody_core (from to : Layer) (p : Planet) (s : Scene) :
  sameCore s (moveBody from to p s).
Proof. destruct from, to; now repeat split. Qed.

(** What [unfocusPlanet] does to the rings and to the focus ref: nothing,
    or the ref is cleared and at most the body of the focused id in one ring
    is scaled back. *)
Lemma unfocusPlanet_core (s : Scene) :
  appRef (unfocusPlanet s) = appRef s /\
  (sameCore s (unfocusPlanet s) \/
   exists pid,
     focusedPlanetIdRef s = Some pid /\
     focusedPlanetIdRef (unfocusPlanet s) = None /\
     (groupOrbitsRef (unfocusPlanet s) = groupOrbitsRef s \/
      exists k,
        groupOrbitsRef (unfocusPlanet s) =
        map_adjust k
          (fun o => set_planets
                      (map_adjust pid (unscaleSprite theme.hover.focusScale)
                                  (planets o)) o)
          (groupOrbitsRef s))).
Proof.
  unfold unfocusPlanet.
  destruct (appRef s) as [scr |] eqn:Eapp;
    [| split; [exact Eapp | left; apply sameCore_refl]].
  destruct (focusedPlanetIdRef s) as [pid |] eqn:Efoc;
    [| split; [exact Eapp | left; apply sameCore_refl]].
  destruct (negb (truthy (Some pid)));
    [split; [exact Eapp | left; apply sameCore_refl] |].
  simpl.
  destruct (findPlanet pid (groupOrbitsRef s)) as [[k p] |] eqn:Efind.
  - split; [simpl; exact Eapp |].
    right. exists pid. split; [reflexivity |]. split; [reflexivity |].
    right. exists k. reflexivity.
  - split; [exact Eapp |].
    right. exists pid. split; [reflexivity |]. split; [reflexivity |].
    left. reflexivity.
Qed.

(** ** Unfocus and the settled rings *)

(** The focus ref [Some x] is cleared: a body that is not scaled back keeps
    its place in the invariant. *)
Lemma Updated_cleared (x : string) (p : Planet) :
  Updated (Some x) (Some x) p -> Updated (Some x) None p.
Proof.
  intros (Hs & (Hh & Hw) & Hp).
  split; [exact Hs |]. split; [| exact Hp]. split; [exact Hh |].
  destruct Hw as [Hw | (_ & Hnone & _)]; [| discriminate].
  unfold targetWidth in *.
  destruct (refIs (Some x) (id (container p))) eqn:E.
  - right. now repeat split.
  - left. exact Hw.
Qed.

(** The focus ref [Some x] is cleared and the body [x] is scaled back. *)
Lemma Updated_unscale (x : string) (p : Planet) :
  id (container p) = x ->
  Updated (Some x) (Some x) p ->
  Updated (Some x) None (unscaleSprite theme.hover.focusScale p).
Proof.
  intros Hid (Hs & (Hh & Hw) & Hp).
  split; [exact Hs |]. split; [| exact Hp].
  unfold sizeOK; simpl. split; [now rewrite Hh |].
  left. destruct Hw as [Hw | (_ & Hnone & _)]; [| discriminate].
  unfold targetWidth in *. simpl in *.
  rewrite Hid, String.eqb_refl in Hw. rewrite Hw.
  unfold theme.hover.focusScale. lra.
Qed.

Lemma orbitSettled_cleared (g : Group) (x : string) (o : GroupOrbit) :
  orbitSettled g (Some x) (Some x) o -> orbitSettled g (Some x) None o.
Proof.
  intros (Hg & Hp & Hc). split; [exact Hg |]. split; [| exact Hc].
  intros pid p H. destruct (Hp pid p H) as (A & B & C).
  split; [exact A |]. split; [exact B |]. now apply Updated_cleared.
Qed.

Lemma orbitSettled_unscale (g : Group) (x : string) (o : GroupOrbit) :
  orbitSettled g (Some x) (Some x) o ->
  orbitSettled g (Some x) None
    (set_planets (map_adjust x (unscaleSprite theme.hover.focusScale)
                             (planets o)) o).
Proof.
  intros (Hg & Hp & Hc). split; [exact Hg |]. split.
  - simpl. intros pid' p' Hget. rewrite map_get_adjust in Hget.
    destruct (String.eqb_spec x pid') as [<- | Hne].
    + destruct (map_get x (planets o)) as [p |] eqn:E; [| discriminate].
      injection Hget as <-.
      destruct (Hp x p E) as (A & B & C).
      split; [exact A |]. split; [exact B |].
      now apply Updated_unscale.
    + destruct (Hp pid' p' Hget) as (A & B & C).
      split; [exact A |]. split; [exact B |]. now apply Updated_cleared.
  - simpl. intros c Hc'. rewrite map_has_adjust. now apply Hc.
Qed.

Lemma settled_unfocus (gs : list Group) (foc0 : option string) (s : Scene) :
  settled gs foc0 s -> settled gs foc0 (unfocusPlanet s).
Proof.
  intros (Hmono & Hset).
  destruct (unfocusPlanet_core s) as (_ & [(_ & B & C) | (x & Hf & Hf' & Horb)]).
  - split; [now rewrite C |].
    intros g Hg. destruct (Hset g Hg) as (o & Hget & Ho).
    exists o. now rewrite B, C.
  - split; [now right |].
    assert (Hfoc0 : foc0 = Some x).
    { destruct Hmono as [H | H]; congruence. }
    subst foc0. intros g Hg. destruct (Hset g Hg) as (o & Hget & Ho).
    rewrite Hf', Hf in *.
    destruct Horb as [-> | (k & ->)].
    + exists o. split; [exact Hget |]. now apply orbitSettled_cleared.
    + rewrite map_get_adjust, Hget.
      destruct (k =? key g); simpl; eexists; split; try reflexivity.
      * now apply orbitSettled_unscale.
      * now apply orbitSettled_cleared.
Qed.

Lemma sceneWf_adjustPlanets (orbits : JsMap GroupOrbit) (k pid : string)
  (f : Planet -> Planet) :
  map_wf orbits /\ Forall (fun o => map_wf (planets o)) (List.map snd orbits) ->
  let orbits' :=
    map_adjust k (fun o => set_planets (map_adjust pid f (planets o)) o) orbits in
  map_wf orbits' /\ Forall (fun o => map_wf (planets o)) (List.map snd orbits').
Proof.
  intros (H1 & H2). split.
  - now apply map_wf_adjust.
  - apply Forall_values_adjust; [| exact H2].
    intros o Ho. simpl. now apply map_wf_adjust.
Qed.

Lemma sceneWf_unfocus (s : Scene) : sceneWf s -> sceneWf (unfocusPlanet s).
Proof.
  unfold sceneWf. intros Hwf.
  destruct (unfocusPlanet_core s) as (_ & [(_ & B & _) | (pid & _ & _ & Horb)]).
  - now rewrite B.
  - destruct Horb as [-> | (k & ->)]; [exact Hwf |].
    now apply sceneWf_adjustPlanets.
Qed.

Lemma sameShape_refl (o : GroupOrbit) : sameShape o o.
Proof. now split. Qed.

Lemma unfocus_shape (s : Scene) (k : string) (o : GroupOrbit) :
  map_get k (groupOrbitsRef s) = Some o ->
  exists o', map_get k (groupOrbitsRef (unfocusPlanet s)) = Some o' /\
             sameShape o o'.
Proof.
  intros Hget.
  destruct (unfocusPlanet_core s) as (_ & [(_ & B & _) | (pid & _ & _ & Horb)]).
  - exists o. rewrite B. split; [exact Hget | apply sameShape_refl].
  - destruct Horb as [-> | (k' & ->)].
    + exists o. split; [exact Hget | apply sameShape_refl].
    + rewrite map_get_adjust, Hget.
      destruct (k' =? k); simpl; eexists; split; try reflexivity.
      * split; [reflexivity |]. intros pid'. simpl. apply map_has_adjust.
      * apply sameShape_refl.
Qed.

Lemma unfocus_keys (s : Scene) :
  map_keys (groupOrbitsRef (unfocusPlanet s)) = map_keys (groupOrbitsRef s).
Proof.
  destruct (unfocusPlanet_core s) as (_ & [(_ & B & _) | (pid & _ & _ & Horb)]).
  - now rewrite B.
  - destruct Horb as [-> | (k' & ->)]; [reflexivity | apply map_keys_adjust].
Qed.

(** ** Dropping the bodies whose ids are gone *)

Lemma keepsOthers_refl (k : string) (s : Scene) : keepsOthers k s s.
Proof. unfold keepsOthers. auto. Qed.

Lemma keepsOthers_trans (k : string) (s1 s2 s3 : Scene) :
  keepsOthers k s1 s2 -> keepsOthers k s2 s3 -> keepsOthers k s1 s3.
Proof.
  intros (A1 & B1 & C1 & D1) (A2 & B2 & C2 & D2).
  split; [congruence |]. split; [congruence |]. split; [auto |].
  intros gs foc0 Hgs Hs. apply D2; [exact Hgs |]. now apply D1.
Qed.

Lemma keepsOthers_core (k : string) (s s' : Scene) :
  sameCore s s' -> keepsOthers k s s'.
Proof.
  intros (A & B & C). split; [exact A |]. split; [now rewrite B |].
  split.
  - unfold sceneWf. now rewrite B.
  - intros gs foc0 _ (Hmono & Hs). split; [now rewrite C |].
    intros g Hg. destruct (Hs g Hg) as (o & Hget & Ho).
    exists o. now rewrite B, C.
Qed.

Lemma keepsOthers_unfocus (k : string) (s : Scene) :
  keepsOthers k s (unfocusPlanet s).
Proof.
  split; [apply unfocusPlanet_core |]. split; [apply unfocus_keys |].
  split; [apply sceneWf_unfocus |].
  intros gs foc0 _. apply settled_unfocus.
Qed.

(** A mutation of the ring [k] that keeps its bodies well keyed. *)
Lemma keepsOthers_adjustOrbit (k : string) (f : GroupOrbit -> GroupOrbit)
  (s : Scene) :
  (forall o, map_wf (planets o) -> map_wf (planets (f o))) ->
  keepsOthers k s (adjustOrbit k f s).
Proof.
  intros Hf. split; [reflexivity |]. split; [apply map_keys_adjust |].
  split.
  - unfold sceneWf; simpl. intros (H1 & H2). split.
    + now apply map_wf_adjust.
    + now apply Forall_values_adjust.
  - intros gs foc0 Hgs (Hmono & Hs). split; [exact Hmono |].
    intros g Hg. destruct (Hs g Hg) as (o & Hget & Ho).
    exists o. simpl. split; [| exact Ho].
    rewrite map_get_adjust_other; [exact Hget |].
    intros Heq. apply (Hgs g Hg). now symmetry.
Qed.

Lemma existsb_eqb_In (x : string) (l : list string) :
  existsb (String.eqb x) l = true <-> In x l.
Proof.
  rewrite existsb_exists. split.
  - intros (y & Hin & Heq). apply String.eqb_eq in Heq. now subst.
  - intros Hin. exists x. split; [exact Hin | apply String.eqb_refl].
Qed.

Lemma removeStalePlanet_step (k : string) (ids : list string) (s : Scene)
  (e : string * Planet) (o : GroupOrbit) :
  map_get k (groupOrbitsRef s) = Some o ->
  let s' := removeStalePlanet k ids s e in
  keepsOthers k s s' /\
  exists o', map_get k (groupOrbitsRef s') = Some o' /\
             orbitGroup o' = orbitGroup o /\
             (forall pid, map_has pid (planets o') = true ->
                          map_has pid (planets o) = true) /\
             (map_has (fst e) (planets o') = true -> In (fst e) ids).
Proof.
  intros Hget. destruct e as [pid0 pl0]. unfold removeStalePlanet; simpl.
  destruct (existsb (String.eqb pid0) ids) eqn:Eex.
  - split; [apply keepsOthers_refl |].
    exists o. repeat split; auto. intros _. now apply existsb_eqb_In.
  - set (s1 := if refIs (focusedPlanetIdRef s) pid0 then unfocusPlanet s else s).
    assert (H1 : keepsOthers k s s1 /\
                 exists o1, map_get k (groupOrbitsRef s1) = Some o1 /\
                            sameShape o o1).
    { unfold s1. destruct (refIs (focusedPlanetIdRef s) pid0).
      - split; [apply keepsOthers_unfocus | now apply unfocus_shape].
      - split; [apply keepsOthers_refl |].
        exists o. split; [exact Hget | apply sameShape_refl]. }
    destruct H1 as (Hk1 & o1 & Hget1 & (Hgrp1 & Hhas1)).
    clearbody s1.
    pose proof (removePlanetGraphics_core pl0 s1) as Hcore.
    set (s2 := removePlanetGraphics pl0 s1) in *. clearbody s2.
    split.
    + eapply keepsOthers_trans; [exact Hk1 |].
      eapply keepsOthers_trans; [apply keepsOthers_core; exact Hcore |].
      apply keepsOthers_adjustOrbit. intros o0. simpl. apply map_wf_delete.
    + destruct Hcore as (_ & B & _).
      simpl. rewrite B, map_get_adjust_same, Hget1. simpl.
      eexists. split; [reflexivity |]. simpl.
      split; [exact Hgrp1 |]. split.
      * intros pid. rewrite map_has_delete, Hhas1.
        intros H. apply andb_prop in H. tauto.
      * rewrite map_has_delete, String.eqb_refl. discriminate.
Qed.

Lemma removeStalePlanets_fold (k : string) (ids : list string)
  (l : list (string * Planet)) :
  forall (s : Scene) (o : GroupOrbit),
    map_get k (groupOrbitsRef s) = Some o ->
    let s' := fold_left (removeStalePlanet k ids) l s in
    keepsOthers k s s' /\
    exists o', map_get k (groupOrbitsRef s') = Some o' /\
               orbitGroup o' = orbitGroup o /\
               (forall pid, map_has pid (planets o') = true ->
                            map_has pid (planets o) = true /\
                            (In pid (List.map fst l) -> In pid ids)).
Proof.
  induction l as [| e l IH]; simpl; intros s o Hget.
  - split; [apply keepsOthers_refl |].
    exists o. repeat split; auto. contradiction.
  - destruct (removeStalePlanet_step k ids s e o Hget)
      as (Hk & o1 & Hget1 & Hgrp1 & Hhas1 & Hgone).
    destruct (IH _ o1 Hget1) as (Hk' & o' & Hget' & Hgrp' & Hhas').
    split; [eapply keepsOthers_trans; eassumption |].
    exists o'. split; [exact Hget' |]. split; [congruence |].
    intros pid Hpid. destruct (Hhas' pid Hpid) as (Hin1 & Hrest).
    split; [now apply Hhas1 |].
    intros [<- | Hin]; [now apply Hgone | now apply Hrest].
Qed.

(** ** Adding and updating the bodies of a ring *)

Lemma map_adjust_compose {V : Type} (k : string) (f1 f2 : V -> V) (m : JsMap V) :
  map_adjust k f2 (map_adjust k f1 m) = map_adjust k (fun v => f2 (f1 v)) m.
Proof.
  induction m as [| [k' v'] m IH]; simpl; [reflexivity |].
  destruct (String.eqb_spec k' k) as [-> | Hne]; simpl.
  - now rewrite String.eqb_refl.
  - destruct (String.eqb_spec k' k); [contradiction | now rewrite IH].
Qed.

Lemma onPlanets_compose (k : string) (F1 F2 : JsMap Planet -> JsMap Planet)
  (orbits : JsMap GroupOrbit) :
  onPlanets k F2 (onPlanets k F1 orbits) = onPlanets k (fun P => F2 (F1 P)) orbits.
Proof.
  unfold onPlanets. rewrite map_adjust_compose. reflexivity.
Qed.

Lemma set_planets_same (o : GroupOrbit) : set_planets (planets o) o = o.
Proof. now destruct o. Qed.

Lemma onPlanets_id (k : string) (orbits : JsMap GroupOrbit) :
  onPlanets k (fun P => P) orbits = orbits.
Proof.
  unfold onPlanets. apply map_adjust_id. intros o _. apply set_planets_same.
Qed.

Lemma onPlanets_get (k : string) (F : JsMap Planet -> JsMap Planet)
  (orbits : JsMap GroupOrbit) (o : GroupOrbit) :
  map_get k orbits = Some o ->
  map_get k (onPlanets k F orbits) = Some (set_planets (F (planets o)) o).
Proof.
  intros H. unfold onPlanets. now rewrite map_get_adjust_same, H.
Qed.

Lemma createPlanet_core (k : string) (g : Group) (groupOrbit : GroupOrbit)
  (i : nat) (c : ContainerStats) (s : Scene) :
  appRef (createPlanet k g groupOrbit i c s) = appRef s /\
  focusedPlanetIdRef (createPlanet k g groupOrbit i c s) = focusedPlanetIdRef s /\
  exists p, container p = c /\
            groupOrbitsRef (createPlanet k g groupOrbit i c s)
            = onPlanets k (map_set (id c) p) (groupOrbitsRef s).
Proof.
  split; [reflexivity |]. split; [reflexivity |].
  eexists. split; [| reflexivity]. reflexivity.
Qed.

Lemma updateProperties_Updated (foc0 foc : option string) (c : ContainerStats)
  (q : Planet) :
  let p := updateProperties (refIs foc (id c)) c q in
  container p = c /\ particles p = particles q /\
  orbitSpeed p = planetOrbitSpeed c /\ sizeOK foc0 foc p.
Proof.
  simpl. split; [reflexivity |]. split; [reflexivity |]. split; [reflexivity |].
  unfold sizeOK, targetWidth; simpl. split; [reflexivity |]. left.
  now destruct (refIs foc (id c)).
Qed.

Lemma updateParticles_core (k : string) (c : ContainerStats) (p : Planet)
  (s : Scene) :
  appRef (updateParticles k c p s) = appRef s /\
  focusedPlanetIdRef (updateParticles k c p s) = focusedPlanetIdRef s /\
  exists f : Planet -> Planet,
    groupOrbitsRef (updateParticles k c p s)
    = onPlanets k (map_adjust (id c) f) (groupOrbitsRef s) /\
    (forall q, container (f q) = container q /\
               orbitSpeed (f q) = orbitSpeed q /\
               spriteWidth (f q) = spriteWidth q /\
               spriteHeight (f q) = spriteHeight q) /\
    (forall q, sameBody q (f q)) /\
    (forall q, particles q = particles p -> container q = c ->
               particlesOK (f q)).
Proof.
  assert (Hsame : forall (v : list nat) q, sameBody q (set_particles v q))
    by (intros v q; now repeat split).
  assert (Hrefl : forall q : Planet, sameBody q q)
    by (intros q; now repeat split).
  unfold updateParticles.
  destruct (shouldShowParticles c) eqn:Eshow; cbn [andb negb].
  - destruct (List.length (particles p) =? 0)%nat eqn:Elen.
    + split; [reflexivity |]. split; [reflexivity |].
      exists (set_particles (seq (nextObject s) 6)).
      split; [reflexivity |]. split; [now intros q |].
      split; [apply Hsame |].
      intros q Hq Hc. unfold particlesOK; simpl. now rewrite Hc, Eshow.
    + split; [reflexivity |]. split; [reflexivity |].
      exists (fun q => q). split.
      * unfold onPlanets. symmetry. apply map_adjust_id.
        intros o _. rewrite map_adjust_id by (intros; reflexivity).
        apply set_planets_same.
      * split; [now intros q |]. split; [apply Hrefl |].
        intros q Hq Hc. unfold particlesOK. now rewrite Hq, Hc, Eshow, Elen.
  - destruct (0 <? List.length (particles p))%nat eqn:Elen.
    + assert (Hcore : sameCore s
                (fold_left (fun s o => removeChild OnStage o s) (particles p) s))
        by (apply fold_core; intros; apply removeChild_core).
      destruct Hcore as (A & B & C).
      split; [exact A |]. split; [exact C |].
      exists (set_particles []).
      split.
      { unfold adjustPlanet, adjustOrbit, onPlanets.
        cbn [groupOrbitsRef set_groupOrbitsRef]. now rewrite B. }
      split; [now intros q |]. split; [apply Hsame |].
      intros q Hq Hc. unfold particlesOK; simpl. now rewrite Hc, Eshow.
    + split; [reflexivity |]. split; [reflexivity |].
      exists (fun q => q). split.
      * unfold onPlanets. symmetry. apply map_adjust_id.
        intros o _. rewrite map_adjust_id by (intros; reflexivity).
        apply set_planets_same.
      * split; [now intros q |]. split; [apply Hrefl |].
        intros q Hq Hc. unfold particlesOK. rewrite Hq, Hc, Eshow.
        apply Nat.ltb_ge in Elen.
        destruct (List.length (particles p)); [reflexivity | lia].
Qed.

Lemma map_has_get {V : Type} (k : string) (m : JsMap V) :
  map_has k m = true -> exists v, map_get k m = Some v.
Proof.
  unfold map_has. destruct (map_get k m) as [v |]; [| discriminate].
  intros _. now exists v.
Qed.

(** One step of the add-or-update loop, seen on the bodies of the ring. *)
Lemma addOrUpdatePlanet_core (g : Group) (s : Scene) (ic : nat * ContainerStats)
  (o : GroupOrbit) :
  map_get (key g) (groupOrbitsRef s) = Some o ->
  let c := snd ic in
  let s' := addOrUpdatePlanet g s ic in
  appRef s' = appRef s /\
  focusedPlanetIdRef s' = focusedPlanetIdRef s /\
  exists F : JsMap Planet -> JsMap Planet,
    groupOrbitsRef s' = onPlanets (key g) F (groupOrbitsRef s) /\
    (map_wf (planets o) -> map_wf (F (planets o))) /\
    (exists p, map_get (id c) (F (planets o)) = Some p /\
               container p = c /\
               forall foc0, Updated foc0 (focusedPlanetIdRef s) p) /\
    (forall pid, pid <> id c ->
                 map_get pid (F (planets o)) = map_get pid (planets o)) /\
    bodiesKept (planets o) (F (planets o)).
Proof.
  intros Hget c s'. unfold s', addOrUpdatePlanet. fold c. rewrite Hget.
  set (k := key g) in *. set (P := planets o).
  (* stage 1: get or create *)
  set (s1 := if map_has (id c) P then s
             else createPlanet k g o (fst ic) c s).
  assert (H1 : appRef s1 = appRef s /\
               focusedPlanetIdRef s1 = focusedPlanetIdRef s /\
               exists F1, groupOrbitsRef s1 = onPlanets k F1 (groupOrbitsRef s) /\
                          (map_wf P -> map_wf (F1 P)) /\
                          (exists q, map_get (id c) (F1 P) = Some q /\
                                     forall q0, map_get (id c) P = Some q0 ->
                                                q = q0) /\
                          (forall pid, pid <> id c ->
                                       map_get pid (F1 P) = map_get pid P)).
  { unfold s1. destruct (map_has (id c) P) eqn:Ehas.
    - split; [reflexivity |]. split; [reflexivity |].
      exists (fun P => P). split; [now rewrite onPlanets_id |].
      split; [auto |]. split; [| auto].
      destruct (map_has_get _ _ Ehas) as (q & Hq). exists q.
      split; [exact Hq |]. intros q0 Hq0. congruence.
    - destruct (createPlanet_core k g o (fst ic) c s) as (A & B & p & Hp & Horb).
      split; [exact A |]. split; [exact B |].
      exists (map_set (id c) p). split; [exact Horb |].
      split; [apply map_wf_set |].
      split.
      + exists p. split; [apply map_get_set_same |].
        intros q0 Hq0. unfold map_has in Ehas. now rewrite Hq0 in Ehas.
      + intros pid Hne. now apply map_get_set_other. }
  destruct H1 as (A1 & B1 & F1 & Horb1 & Hwf1 & (q & Hq & Hqold) & Hother1).
  clearbody s1.
  (* stage 2: the property update *)
  set (upd := updateProperties (refIs (focusedPlanetIdRef s1) (id c)) c).
  set (s2 := adjustPlanet k (id c) upd s1).
  assert (Horb2 : groupOrbitsRef s2
                  = onPlanets k (fun P => map_adjust (id c) upd (F1 P))
                              (groupOrbitsRef s)).
  { unfold s2, adjustPlanet, adjustOrbit. cbn [groupOrbitsRef set_groupOrbitsRef].
    rewrite Horb1. apply (onPlanets_compose k F1 (map_adjust (id c) upd)). }
  assert (A2 : appRef s2 = appRef s) by exact A1.
  assert (B2 : focusedPlanetIdRef s2 = focusedPlanetIdRef s) by exact B1.
  clearbody s2.
  rewrite Horb2, (onPlanets_get k _ _ o Hget).
  cbn [planets set_planets]. fold P.
  rewrite map_get_adjust_same, Hq. cbn [option_map].
  (* stage 3: particles *)
  destruct (updateParticles_core k c (upd q) s2)
    as (A3 & B3 & f & Horb3 & Hf & Hfsame & Hpart).
  split; [congruence |]. split; [congruence |].
  exists (fun P => map_adjust (id c) f (map_adjust (id c) upd (F1 P))).
  split.
  { rewrite Horb3, Horb2.
    apply (onPlanets_compose k (fun P => map_adjust (id c) upd (F1 P))
                             (map_adjust (id c) f)). }
  split; [intros Hwf; now do 2 apply map_wf_adjust; apply Hwf1 |].
  split.
  - exists (f (upd q)).
    rewrite !map_get_adjust_same, Hq. cbn [option_map].
    split; [reflexivity |].
    destruct (Hf (upd q)) as (Hc & Hs & Hw & Hh).
    unfold upd in *. rewrite B1 in *.
    assert (Uc : container (updateProperties
                              (refIs (focusedPlanetIdRef s) (id c)) c q) = c)
      by reflexivity.
    split; [congruence |]. intros foc0.
    destruct (updateProperties_Updated foc0 (focusedPlanetIdRef s) c q)
      as (_ & _ & Us & (Uh & Uw)).
    cbn zeta in Us, Uh, Uw.
    split; [congruence |].
    split.
    + unfold sizeOK. rewrite Hh, Hw, Hc. split; [exact Uh | exact Uw].
    + apply Hpart; [reflexivity | exact Uc].
  - split.
    + intros pid Hne.
      rewrite !map_get_adjust_other by congruence. now apply Hother1.
    + intros pid p Hp.
      destruct (String.eqb_spec (id c) pid) as [<- | Hne].
      * rewrite !map_get_adjust_same, Hq. cbn [option_map].
        eexists. split; [reflexivity |].
        rewrite <- (Hqold p Hp).
        destruct (Hfsame (upd q)) as (S1 & S2 & S3 & S4).
        unfold sameBody. rewrite S1, S2, S3, S4. now repeat split.
      * exists p. rewrite !map_get_adjust_other by exact Hne.
        rewrite Hother1 by congruence. split; [exact Hp | now repeat split].
Qed.

Lemma Forall_values_adjust_at {V : Type} (P : V -> Prop) (m : JsMap V)
  (k : string) (f : V -> V) :
  (forall v, map_get k m = Some v -> P v -> P (f v)) ->
  Forall P (List.map snd m) -> Forall P (List.map snd (map_adjust k f m)).
Proof.
  induction m as [| [k' v'] m IH]; simpl; intros Hf H; [constructor |].
  inversion H as [| ? ? Hv Hm]; subst.
  destruct (String.eqb_spec k' k) as [-> | Hne]; simpl; constructor; auto.
Qed.

(** A change of the bodies of the ring [k] that leaves the surface and the
    focus ref alone keeps the other rings. *)
Lemma keepsOthers_onPlanets (k : string) (F : JsMap Planet -> JsMap Planet)
  (s s' : Scene) :
  appRef s' = appRef s ->
  focusedPlanetIdRef s' = focusedPlanetIdRef s ->
  groupOrbitsRef s' = onPlanets k F (groupOrbitsRef s) ->
  (forall o, map_get k (groupOrbitsRef s) = Some o ->
             map_wf (planets o) -> map_wf (F (planets o))) ->
  keepsOthers k s s'.
Proof.
  intros A B Horb HF. split; [exact A |].
  split; [rewrite Horb; apply map_keys_adjust |]. split.
  - unfold sceneWf. rewrite Horb. intros (H1 & H2). split.
    + now apply map_wf_adjust.
    + apply Forall_values_adjust_at; [| exact H2].
      intros o Ho Hwf. simpl. now apply HF.
  - intros gs foc0 Hgs (Hmono & Hs). split; [now rewrite B |].
    intros g Hg. destruct (Hs g Hg) as (o & Hget & Ho).
    exists o. rewrite B, Horb. split; [| exact Ho].
    unfold onPlanets. rewrite map_get_adjust_other; [exact Hget |].
    intros Heq. apply (Hgs g Hg). now symmetry.
Qed.

Lemma addOrUpdatePlanets_fold (g : Group) (l : list (nat * ContainerStats)) :
  forall (s : Scene) (o : GroupOrbit),
    map_get (key g) (groupOrbitsRef s) = Some o ->
    let s' := fold_left (addOrUpdatePlanet g) l s in
    let cs := List.map snd l in
    appRef s' = appRef s /\
    focusedPlanetIdRef s' = focusedPlanetIdRef s /\
    exists F : JsMap Planet -> JsMap Planet,
      groupOrbitsRef s' = onPlanets (key g) F (groupOrbitsRef s) /\
      (map_wf (planets o) -> map_wf (F (planets o))) /\
      (forall c, In c cs ->
         exists p, map_get (id c) (F (planets o)) = Some p /\
                   In (container p) cs /\ id (container p) = id c /\
                   forall foc0, Updated foc0 (focusedPlanetIdRef s) p) /\
      (forall pid, ~ In pid (List.map id cs) ->
                   map_get pid (F (planets o)) = map_get pid (planets o)) /\
      bodiesKept (planets o) (F (planets o)).
Proof.
  induction l as [| ic l IH]; intros s o Hget; cbn [fold_left List.map].
  - split; [reflexivity |]. split; [reflexivity |].
    exists (fun P => P). split; [now rewrite onPlanets_id |].
    split; [auto |]. split; [intros c [] |]. split; [auto |].
    intros pid p Hp. exists p. split; [exact Hp | now repeat split].
  - destruct (addOrUpdatePlanet_core g s ic o Hget)
      as (A0 & B0 & F0 & Horb0 & Hwf0 & (p0 & Hp0 & Hc0 & Hu0) & Hother0
          & Hkept0).
    set (s1 := addOrUpdatePlanet g s ic) in *. clearbody s1.
    assert (Hget1 : map_get (key g) (groupOrbitsRef s1)
                    = Some (set_planets (F0 (planets o)) o))
      by (rewrite Horb0; now apply onPlanets_get).
    destruct (IH s1 _ Hget1)
      as (A1 & B1 & F1 & Horb1 & Hwf1 & Hall1 & Hother1 & Hkept1).
    cbn [planets set_planets] in Hwf1, Hall1, Hother1, Hkept1.
    split; [congruence |]. split; [congruence |].
    exists (fun P => F1 (F0 P)). split.
    { rewrite Horb1, Horb0. apply onPlanets_compose. }
    split; [auto |]. split.
    + intros c [<- | Hin].
      * destruct (in_dec string_dec (id (snd ic)) (List.map id (List.map snd l)))
          as [Hdup | Hnew].
        -- apply in_map_iff in Hdup. destruct Hdup as (c' & Hid & Hc').
           destruct (Hall1 c' Hc') as (p & Hp & Hpc & Hpid & Hpu).
           exists p. rewrite <- Hid. split; [exact Hp |].
           split; [now right |]. split; [exact Hpid |].
           intros foc0. rewrite <- B0. apply Hpu.
        -- exists p0. rewrite Hother1 by exact Hnew.
           split; [exact Hp0 |]. split; [left; now symmetry |].
           split; [now rewrite Hc0 | exact Hu0].
      * destruct (Hall1 c Hin) as (p & Hp & Hpc & Hpid & Hpu).
        exists p. split; [exact Hp |]. split; [now right |].
        split; [exact Hpid |]. intros foc0. rewrite <- B0. apply Hpu.
    + split.
      * intros pid Hnin. simpl in Hnin.
        rewrite Hother1 by tauto. apply Hother0.
        intros ->. apply Hnin. now left.
      * intros pid p Hp.
        destruct (Hkept0 pid p Hp) as (p1 & Hp1 & (S1 & S2 & S3 & S4)).
        destruct (Hkept1 pid p1 Hp1) as (p2 & Hp2 & (T1 & T2 & T3 & T4)).
        exists p2. split; [exact Hp2 |]. unfold sameBody.
        rewrite T1, T2, T3, T4. now repeat split.
Qed.

Lemma indexed_snd {A : Type} (l : list A) : List.map snd (indexed l) = l.
Proof.
  unfold indexed. generalize 0%nat.
  induction l as [| a l IH]; intros n; simpl; [reflexivity |].
  now rewrite IH.
Qed.

(** ** One ring of the refresh *)

Lemma createGroupOrbit_core (random : nat -> R) (g : Group) (i n : nat)
  (s : Scene) :
  appRef (createGroupOrbit random g i n s) = appRef s /\
  focusedPlanetIdRef (createGroupOrbit random g i n s) = focusedPlanetIdRef s /\
  exists o, planets o = [] /\ orbitGroup o = g /\
            groupOrbitsRef (createGroupOrbit random g i n s)
            = map_set (key g) o (groupOrbitsRef s).
Proof.
  split; [crunch; reflexivity |]. split; [crunch; reflexivity |].
  exists {| orbitGroup := g;
            orbitRadius := calculateOrbitRadius (appRef s) i n;
            orbitLine := nextObject s;
            orbitGlow := S (nextObject s);
            labelText := S (S (nextObject s));
            planets := [];
            randomStartAngle := (random (randomCount s) * PI * 2)%R;
            hitArea := S (S (S (nextObject s))) |}.
  split; [reflexivity |]. split; [reflexivity |].
  crunch; reflexivity.
Qed.

Lemma sceneWf_get (s : Scene) (k : string) (o : GroupOrbit) :
  sceneWf s -> map_get k (groupOrbitsRef s) = Some o -> map_wf (planets o).
Proof.
  intros (_ & H) Hget.
  exact (Forall_values_get (fun o => map_wf (planets o)) _ _ _ H Hget).
Qed.

(** One step of [groups.forEach] settles the ring of its group and keeps
    the rings that are settled already. *)
Lemma reconcileGroup_settles (random : nat -> R) (n : nat) (s : Scene)
  (ig : nat * Group) (done : list Group) (foc0 : option string) :
  sceneWf s ->
  settled done foc0 s ->
  (forall g', In g' done -> key g' <> key (snd ig)) ->
  let s' := reconcileGroup random n s ig in
  sceneWf s' /\
  settled (done ++ [snd ig]) foc0 s' /\
  appRef s' = appRef s /\
  (forall k, In k (map_keys (groupOrbitsRef s')) ->
             In k (map_keys (groupOrbitsRef s)) \/ k = key (snd ig)).
Proof.
  intros Hwf Hdone Hfresh. destruct ig as [i g]. cbn [snd] in *.
  unfold reconcileGroup. cbn [fst snd].
  set (k := key g) in *.
  (* get or create the ring *)
  set (s1 := if map_has k (groupOrbitsRef s) then s
             else createGroupOrbit random g i n s).
  assert (H1 : sceneWf s1 /\ settled done foc0 s1 /\ appRef s1 = appRef s /\
               (forall k', In k' (map_keys (groupOrbitsRef s1)) ->
                           In k' (map_keys (groupOrbitsRef s)) \/ k' = k) /\
               exists o1, map_get k (groupOrbitsRef s1) = Some o1).
  { unfold s1. destruct (map_has k (groupOrbitsRef s)) eqn:Ehas.
    - split; [exact Hwf |]. split; [exact Hdone |]. split; [reflexivity |].
      split; [auto | now apply map_has_get].
    - destruct (createGroupOrbit_core random g i n s)
        as (A & B & o & Hpl & Hgrp & Horb).
      fold k in Horb. split; [| split; [| split; [| split]]].
      + destruct Hwf as (W1 & W2). unfold sceneWf. rewrite Horb. split.
        * now apply map_wf_set.
        * apply Forall_values_set; [| exact W2]. rewrite Hpl. constructor.
      + destruct Hdone as (Hmono & Hdone). split; [now rewrite B |].
        intros g' Hg'. destruct (Hdone g' Hg') as (o' & Hget & Ho').
        exists o'. rewrite B, Horb. split; [| exact Ho'].
        rewrite map_get_set_other; [exact Hget |]. now apply Hfresh.
      + exact A.
      + intros k'. rewrite Horb, map_keys_set, Ehas.
        intros Hin. apply in_app_or in Hin.
        destruct Hin as [Hin | [<- | []]]; auto.
      + exists o. rewrite Horb. apply map_get_set_same. }
  destruct H1 as (Hwf1 & Hdone1 & A1 & Hkeys1 & o1 & Hget1). clearbody s1.
  (* store the group *)
  pose proof (keepsOthers_adjustOrbit k (set_orbitGroup g) s1
                (fun o H => H)) as Hk2.
  assert (Hget2 : map_get k (groupOrbitsRef (adjustOrbit k (set_orbitGroup g) s1))
                  = Some (set_orbitGroup g o1)).
  { cbn [adjustOrbit groupOrbitsRef set_groupOrbitsRef].
    now rewrite map_get_adjust_same, Hget1. }
  set (s2 := adjustOrbit k (set_orbitGroup g) s1) in *. clearbody s2.
  rewrite Hget2. cbn [planets set_orbitGroup].
  (* drop the bodies that are gone *)
  destruct (removeStalePlanets_fold k (List.map id (containers g)) (planets o1)
              s2 _ Hget2) as (Hk3 & o3 & Hget3 & Hgrp3 & Hhas3).
  cbn [orbitGroup set_orbitGroup planets] in Hgrp3, Hhas3.
  set (s3 := fold_left (removeStalePlanet k (List.map id (containers g)))
                       (planets o1) s2) in *.
  clearbody s3.
  (* add or update the members *)
  destruct (addOrUpdatePlanets_fold g (indexed (containers g)) s3 o3 Hget3)
    as (A4 & B4 & F & Horb4 & Hwf4 & Hall4 & Hother4 & _).
  rewrite indexed_snd in Hall4, Hother4.
  assert (Hk4 : keepsOthers k s3 (fold_left (addOrUpdatePlanet g)
                                            (indexed (containers g)) s3)).
  { apply (keepsOthers_onPlanets k F); auto.
    intros o Ho. fold k in Hget3. rewrite Hget3 in Ho. injection Ho as <-.
    exact Hwf4. }
  set (s4 := fold_left (addOrUpdatePlanet g) (indexed (containers g)) s3) in *.
  clearbody s4.
  assert (Hk : keepsOthers k s1 s4).
  { eapply keepsOthers_trans; [exact Hk2 |].
    eapply keepsOthers_trans; [exact Hk3 | exact Hk4]. }
  destruct Hk as (A & Hkeys & Hwfk & Hsetk).
  split; [now apply Hwfk |]. split; [| split; [congruence |]].
  - destruct (Hsetk done foc0 Hfresh Hdone1) as (Hmono4 & Hdone4).
    split; [exact Hmono4 |].
    intros g' Hg'. apply in_app_or in Hg'. destruct Hg' as [Hg' | [<- | []]].
    + now apply Hdone4.
    + fold k. exists (set_planets (F (planets o3)) o3). split.
      * rewrite Horb4. now apply onPlanets_get.
      * split; [exact Hgrp3 |]. cbn [planets set_planets]. split.
        -- intros pid p Hp.
           assert (Hin : In pid (List.map id (containers g))).
           { destruct (in_dec string_dec pid (List.map id (containers g)))
               as [Hin | Hnin]; [exact Hin |].
             rewrite (Hother4 pid Hnin) in Hp.
             assert (Hh : map_has pid (planets o3) = true)
               by (unfold map_has; now rewrite Hp).
             destruct (Hhas3 pid Hh) as (Hh1 & Himp).
             apply Himp. now apply map_has_true. }
           apply in_map_iff in Hin. destruct Hin as (c & <- & Hc).
           destruct (Hall4 c Hc) as (p' & Hp' & Hpc & Hpid & Hpu).
           rewrite Hp in Hp'. injection Hp' as <-.
           split; [exact Hpc |]. split; [exact Hpid |].
           rewrite B4. apply Hpu.
        -- intros c Hc. destruct (Hall4 c Hc) as (p' & Hp' & _).
           unfold map_has. now rewrite Hp'.
  - intros k' Hin. rewrite Hkeys in Hin. now apply Hkeys1.
Qed.

(** ** The whole refresh *)

Lemma removeStaleOrbit_core (keys : list string) (s : Scene)
  (e : string * GroupOrbit) :
  appRef (removeStaleOrbit keys s e) = appRef s /\
  focusedPlanetIdRef (removeStaleOrbit keys s e) = focusedPlanetIdRef s /\
  groupOrbitsRef (removeStaleOrbit keys s e)
  = if existsb (String.eqb (fst e)) keys then groupOrbitsRef s
    else map_delete (fst e) (groupOrbitsRef s).
Proof.
  unfold removeStaleOrbit.
  destruct (existsb (String.eqb (fst e)) keys); [now repeat split |].
  assert (Hcore : sameCore s
            (fold_left (fun s pe => removePlanetGraphics (snd pe) s)
                       (planets (snd e)) s))
    by (apply fold_core; intros; apply removePlanetGraphics_core).
  set (s1 := fold_left (fun s pe => removePlanetGraphics (snd pe) s)
                       (planets (snd e)) s) in *.
  clearbody s1. destruct Hcore as (A & B & C).
  cbn. now rewrite A, B, C.
Qed.

Lemma removeStaleOrbits_fold (keys : list string) (l : list (string * GroupOrbit)) :
  forall s : Scene,
    let s' := fold_left (removeStaleOrbit keys) l s in
    appRef s' = appRef s /\
    focusedPlanetIdRef s' = focusedPlanetIdRef s /\
    (sceneWf s -> sceneWf s') /\
    (forall k, In k (map_keys (groupOrbitsRef s')) ->
               In k (map_keys (groupOrbitsRef s)) /\
               (In k (List.map fst l) -> In k keys)).
Proof.
  induction l as [| e l IH]; intros s; cbn [fold_left List.map].
  - split; [reflexivity |]. split; [reflexivity |]. split; [auto |].
    intros k Hk. split; [exact Hk |]. intros [].
  - destruct (removeStaleOrbit_core keys s e) as (A & B & Horb).
    destruct (IH (removeStaleOrbit keys s e)) as (A' & B' & Hwf' & Hkeys').
    split; [congruence |]. split; [congruence |]. split.
    + intros Hwf. apply Hwf'. unfold sceneWf. rewrite Horb.
      destruct (existsb (String.eqb (fst e)) keys); [exact Hwf |].
      destruct Hwf as (W1 & W2). split.
      * now apply map_wf_delete.
      * now apply Forall_values_delete.
    + intros k Hk. destruct (Hkeys' k Hk) as (Hin & Himp).
      rewrite Horb in Hin.
      destruct (existsb (String.eqb (fst e)) keys) eqn:Eex.
      * split; [exact Hin |]. intros [<- | Hl]; [| now apply Himp].
        now apply existsb_eqb_In.
      * rewrite map_keys_delete in Hin. apply filter_In in Hin.
        destruct Hin as (Hin & Hne). split; [exact Hin |].
        intros [<- | Hl]; [| now apply Himp].
        now rewrite String.eqb_refl in Hne.
Qed.

Lemma reconcileGroups_fold (random : nat -> R) (n : nat)
  (l : list (nat * Group)) :
  forall (s : Scene) (done : list Group) (foc0 : option string),
    sceneWf s ->
    settled done foc0 s ->
    NoDup (List.map key (done ++ List.map snd l)) ->
    let s' := fold_left (reconcileGroup random n) l s in
    sceneWf s' /\
    settled (done ++ List.map snd l) foc0 s' /\
    appRef s' = appRef s /\
    (forall k, In k (map_keys (groupOrbitsRef s')) ->
               In k (map_keys (groupOrbitsRef s)) \/
               In k (List.map key (List.map snd l))).
Proof.
  induction l as [| ig l IH]; intros s done foc0 Hwf Hdone Hnd;
    cbn [fold_left List.map].
  - rewrite app_nil_r. split; [exact Hwf |]. split; [exact Hdone |].
    split; [reflexivity |]. intros k Hk. now left.
  - assert (Hfresh : forall g', In g' done -> key g' <> key (snd ig)).
    { intros g' Hg' Heq. cbn [List.map] in Hnd.
      rewrite map_app in Hnd. cbn [List.map] in Hnd.
      apply NoDup_remove_2 in Hnd. apply Hnd.
      apply in_or_app. left. rewrite <- Heq. now apply in_map. }
    destruct (reconcileGroup_settles random n s ig done foc0 Hwf Hdone Hfresh)
      as (Hwf1 & Hdone1 & A1 & Hkeys1).
    set (s1 := reconcileGroup random n s ig) in *. clearbody s1.
    assert (Hnd1 : NoDup (List.map key ((done ++ [snd ig]) ++ List.map snd l)))
      by (rewrite <- app_assoc; exact Hnd).
    destruct (IH s1 (done ++ [snd ig]) foc0 Hwf1 Hdone1 Hnd1)
      as (Hwf' & Hdone' & A' & Hkeys').
    split; [exact Hwf' |]. split.
    { rewrite <- app_assoc in Hdone'. exact Hdone'. }
    split; [congruence |].
    intros k Hk. destruct (Hkeys' k Hk) as [Hin | Hin]; [| right; now right].
    destruct (Hkeys1 k Hin) as [Hin1 | ->]; [now left | right; now left].
Qed.

(** After a refresh the maps of the scene are maps, every group has its
    settled ring and every ring is the ring of a group. *)
Lemma reconcile_settles (random : nat -> R) (cs : list ContainerStats)
  (s : Scene) :
  appRef s <> None ->
  sceneWf s ->
  let s' := reconcile random cs s in
  sceneWf s' /\
  settled (groupContainers cs) (focusedPlanetIdRef s) s' /\
  appRef s' = appRef s /\
  (forall k, In k (map_keys (groupOrbitsRef s')) ->
             In k (List.map key (groupContainers cs))).
Proof.
  intros Happ Hwf. unfold reconcile.
  destruct (appRef s) as [scr |] eqn:Eapp; [clear Happ | congruence].
  destruct (removeStaleOrbits_fold (List.map key (groupContainers cs))
              (groupOrbitsRef s) s) as (A1 & B1 & Hwf1 & Hkeys1).
  set (s1 := fold_left (removeStaleOrbit (List.map key (groupContainers cs)))
                       (groupOrbitsRef s) s) in *.
  clearbody s1.
  assert (Hnd : NoDup (List.map key ([] ++ List.map snd
                                            (indexed (groupContainers cs))))).
  { cbn [app]. rewrite indexed_snd, groupContainers_keys.
    apply firstEncounter_NoDup. }
  assert (Hnil : settled [] (focusedPlanetIdRef s) s1).
  { split; [now left |]. intros g []. }
  destruct (reconcileGroups_fold random (List.length (groupContainers cs))
              (indexed (groupContainers cs)) s1 [] (focusedPlanetIdRef s)
              (Hwf1 Hwf) Hnil Hnd)
    as (Hwf2 & Hset2 & A2 & Hkeys2).
  cbn [app] in Hset2. rewrite indexed_snd in Hset2, Hkeys2.
  split; [exact Hwf2 |]. split; [exact Hset2 |]. split; [congruence |].
  intros k Hk. destruct (Hkeys2 k Hk) as [Hin | Hin]; [| exact Hin].
  destruct (Hkeys1 k Hin) as (Hin0 & Himp). now apply Himp.
Qed.

Lemma group_members (g : Group) (cs : list ContainerStats) :
  In g (groupContainers cs) ->
  forall c, In c (containers g) <-> In c cs /\ group c = key g.
Proof.
  rewrite groupContainers_eq. intros Hg c.
  apply in_map_iff in Hg. destruct Hg as (k & <- & _). simpl.
  unfold membersOf. rewrite filter_In, String.eqb_eq. reflexivity.
Qed.


Lemma gtb_spec (x y : Q) : gtb x y = true <-> (y < x)%Q.
Proof.
  unfold gtb. rewrite negb_true_iff. split.
  - intros H. apply Qnot_le_lt. intros Hle.
    apply Qle_bool_iff in Hle. congruence.
  - intros H. destruct (Qle_bool x y) eqn:E; [| reflexivity].
    apply Qle_bool_iff in E. exfalso. exact (Qlt_not_le _ _ H E).
Qed.

(** The bodies of the scene after a refresh, ring by ring. *)
Lemma reconcile_bodies (random : nat -> R) (cs : list ContainerStats)
  (s : Scene) (k pid : string) (o : GroupOrbit) (p : Planet) :
  appRef s <> None ->
  sceneWf s ->
  let s' := reconcile random cs s in
  In (k, o) (groupOrbitsRef s') ->
  In (pid, p) (planets o) ->
  In (container p) cs /\ group (container p) = k /\ id (container p) = pid /\
  Updated (focusedPlanetIdRef s) (focusedPlanetIdRef s') p.
Proof.
  intros Happ Hwf s' Ho Hp.
  destruct (reconcile_settles random cs s Happ Hwf)
    as (Hwf' & (_ & Hset) & _ & Hkeys).
  fold s' in Hwf', Hset, Hkeys.
  assert (Hk : In k (List.map key (groupContainers cs))).
  { apply Hkeys. change k with (fst (k, o)). now apply in_map. }
  apply in_map_iff in Hk. destruct Hk as (g & <- & Hg).
  destruct (Hset g Hg) as (o' & Hget & (Hgrp & Hbodies & _)).
  destruct Hwf' as (W1 & W2).
  rewrite (map_In_get _ _ _ W1 Ho) in Hget. injection Hget as <-.
  assert (Hwfo : map_wf (planets o)).
  { rewrite Forall_forall in W2. apply W2.
    change o with (snd (key g, o)). now apply in_map. }
  destruct (Hbodies pid p (map_In_get _ _ _ Hwfo Hp)) as (Hin & Hid & Hup).
  apply (group_members g cs Hg) in Hin. tauto.
Qed.




(** ** The maps of every reachable scene are maps *)

Lemma sceneWf_core (s s' : Scene) : sameCore s s' -> sceneWf s -> sceneWf s'.
Proof. intros (_ & B & _). unfold sceneWf. now rewrite B. Qed.

Lemma sceneWf_adjustPlanet (k pid : string) (f : Planet -> Planet) (s : Scene) :
  sceneWf s -> sceneWf (adjustPlanet k pid f s).
Proof. intros H. now apply sceneWf_adjustPlanets. Qed.

Lemma clearPendingUnfocus_core (s : Scene) : sameCore s (clearPendingUnfocus s).
Proof.
  unfold clearPendingUnfocus. destruct (unfocusTimeoutRef s); now repeat split.
Qed.

Lemma sceneWf_focus_leaf (k pid : string) (f : Planet -> Planet)
  (from to : Layer) (p : Planet) (v : bool) (s : Scene) :
  sceneWf s ->
  sceneWf (set_overlayVisible v (adjustPlanet k pid f (moveBody from to p s))).
Proof.
  intros Hwf.
  pose proof (sceneWf_adjustPlanet k pid f _
                (sceneWf_core _ _ (moveBody_core from to p s) Hwf)) as H.
  revert H. generalize (adjustPlanet k pid f (moveBody from to p s)).
  intros s' H. exact H.
Qed.

Lemma sceneWf_handleHover (sel : Selection) (pid : string) (s : Scene) :
  sceneWf s -> sceneWf (handleHover sel pid s).
Proof.
  intros Hwf. unfold handleHover.
  destruct (appRef s); [| exact Hwf].
  set (s1 := if isPersistentPlanet sel && selectionIsOther sel pid
             then unfocusPlanet s else s).
  assert (Hwf1 : sceneWf s1).
  { unfold s1. destruct (isPersistentPlanet sel && selectionIsOther sel pid);
      [now apply sceneWf_unfocus | exact Hwf]. }
  clearbody s1. destruct (isGroup sel); [exact Hwf1 |].
  pose proof (sceneWf_core _ _ (clearPendingUnfocus_core s1) Hwf1) as Hwf2.
  set (s2 := clearPendingUnfocus s1) in *. clearbody s2.
  destruct (refIs (focusedPlanetIdRef s2) pid); [exact Hwf2 |].
  destruct (findPlanet pid (groupOrbitsRef s2)) as [[k p] |]; [| exact Hwf2].
  apply sceneWf_focus_leaf. exact Hwf2.
Qed.

Lemma sceneWf_handleClick (pid : string) (c : ContainerStats) (s : Scene) :
  sceneWf s -> sceneWf (handleClick pid c s).
Proof.
  intros Hwf. unfold handleClick.
  destruct (appRef s); [| exact Hwf].
  pose proof (sceneWf_core _ _ (clearPendingUnfocus_core s) Hwf) as Hwf1.
  set (s1 := clearPendingUnfocus s) in *. clearbody s1.
  destruct (findPlanet pid (groupOrbitsRef s1)) as [[k p] |]; [| exact Hwf1].
  set (s2 := if truthy (focusedPlanetIdRef s1)
                && negb (refIs (focusedPlanetIdRef s1) pid)
             then unfocusPlanet s1 else s1).
  assert (Hwf2 : sceneWf s2).
  { unfold s2. destruct (truthy (focusedPlanetIdRef s1)
                         && negb (refIs (focusedPlanetIdRef s1) pid));
      [now apply sceneWf_unfocus | exact Hwf1]. }
  clearbody s2.
  match goal with
  | |- context [hasChild OnBase (sprite p) ?X] =>
      assert (Hwf3 : sceneWf X) by exact Hwf2;
      revert Hwf3; generalize X; intros s3 Hwf3
  end.
  destruct (hasChild OnBase (sprite p) s3).
  - apply sceneWf_focus_leaf. exact Hwf3.
  - exact Hwf3.
Qed.

Lemma sceneWf_fireTimeout (t : nat) (s : Scene) :
  sceneWf s -> sceneWf (fireTimeout t s).
Proof.
  intros Hwf. unfold fireTimeout.
  destruct (existsb (Nat.eqb t) (timers s)); [| exact Hwf].
  unfold unfocusCallback.
  destruct (isPersistentPlanet _); [exact Hwf |].
  destruct (isGroup _); [exact Hwf |].
  now apply sceneWf_unfocus.
Qed.

Lemma sceneWf_handleEscape (sel : Selection) (s : Scene) :
  sceneWf s -> sceneWf (handleEscape sel s).
Proof.
  intros Hwf. unfold handleEscape.
  destruct (allPlanetIds s); [exact Hwf |].
  destruct sel; [exact Hwf | |]; now apply sceneWf_unfocus.
Qed.

Lemma sceneWf_tick (delta : R) (s : Scene) : sceneWf s -> sceneWf (tick delta s).
Proof.
  unfold sceneWf, tick; cbn [groupOrbitsRef set_groupOrbitsRef].
  intros (W1 & W2). split.
  - unfold map_wf, map_keys in *. rewrite map_map; simpl. exact W1.
  - rewrite map_map; simpl. rewrite Forall_forall in *.
    intros o Ho. apply in_map_iff in Ho. destruct Ho as ([k o0] & <- & Hin).
    simpl. unfold map_wf, map_keys. rewrite map_map; simpl.
    apply (W2 o0). change o0 with (snd (k, o0)). now apply in_map.
Qed.

Lemma sceneWf_handleResize (w h : R) (s : Scene) :
  sceneWf s -> sceneWf (handleResize w h s).
Proof.
  unfold sceneWf, handleResize; cbn [groupOrbitsRef set_groupOrbitsRef set_appRef].
  intros (W1 & W2).
  assert (Hfst : forall A (f : nat * (string * GroupOrbit) -> A)
                        (l : list (nat * (string * GroupOrbit))),
             (forall ie, f ie = f (0%nat, snd ie)) ->
             List.map f l = List.map (fun e => f (0%nat, e)) (List.map snd l)).
  { intros A f l Hf. rewrite map_map. apply map_ext. intros ie. apply Hf. }
  split.
  - unfold map_wf, map_keys. rewrite map_map; simpl.
    rewrite (Hfst _ (fun ie => fst (snd ie))) by reflexivity.
    rewrite indexed_snd. exact W1.
  - rewrite map_map; simpl. rewrite Forall_forall in *.
    intros o Ho. apply in_map_iff in Ho. destruct Ho as ([i [k o0]] & <- & Hin).
    simpl. apply (W2 o0).
    assert (Hin' : In (k, o0) (List.map snd (indexed (groupOrbitsRef s))))
      by (change (k, o0) with (snd (i, (k, o0))); now apply in_map).
    rewrite indexed_snd in Hin'.
    change o0 with (snd (k, o0)). now apply in_map.
Qed.

Lemma maybeUnfocus_core (s : Scene) : sameCore s (maybeUnfocus s).
Proof.
  unfold maybeUnfocus. destruct (unfocusTimeoutRef s); now repeat split.
Qed.

Lemma sceneWf_step (s : Scene) (e : Event) : sceneWf s -> sceneWf (step s e).
Proof.
  intros Hwf. destruct e; cbn [step].
  - now apply sceneWf_handleHover.
  - eapply sceneWf_core; [apply maybeUnfocus_core | exact Hwf].
  - now apply sceneWf_handleClick.
  - exact Hwf.
  - now apply sceneWf_fireTimeout.
  - now apply sceneWf_handleEscape.
  - destruct (appRef s) eqn:Eapp.
    + apply reconcile_settles; [congruence | exact Hwf].
    + unfold reconcile. now rewrite Eapp.
  - now apply sceneWf_tick.
  - now apply sceneWf_handleResize.
Qed.

(** Every scene that events lead to from the mounted scene has well-keyed
    maps and a render surface. *)
Lemma sceneWf_run (w h : R) (es : list Event) : sceneWf (run (mount w h) es).
Proof.
  unfold run.
  assert (H : forall s, sceneWf s -> sceneWf (fold_left step es s)).
  { induction es as [| e es IH]; simpl; intros s Hs; [exact Hs |].
    apply IH. now apply sceneWf_step. }
  apply H. split; constructor.
Qed.

(** X21. After a refresh from a scene whose maps are maps, a body has a
    non-empty particle array exactly when the load of its entity exceeds 50
    or the entity is restarting. *)
Lemma particles_after_refresh (random : nat -> R) (cs : list ContainerStats)
  (s : Scene) (k pid : string) (o : GroupOrbit) (p : Planet) :
  appRef s <> None ->
  sceneWf s ->
  In (k, o) (groupOrbitsRef (reconcile random cs s)) ->
  In (pid, p) (planets o) ->
  let load := match cpuPercent (container p) with Some l => l | None => 0%Q end in
  particles p <> [] <-> (50 < load)%Q \/ state (container p) = "restarting".
Proof.
  intros Happ Hwf Ho Hp load.
  destruct (reconcile_bodies random cs s k pid o p Happ Hwf Ho Hp)
    as (_ & _ & _ & (_ & _ & Hpart)).
  unfold particlesOK, shouldShowParticles in Hpart.
  fold (orZero (cpuPercent (container p))) in load.
  rewrite <- gtb_spec, <- String.eqb_eq, <- orb_true_iff. fold load in Hpart.
  rewrite <- Hpart.
  destruct (particles p); simpl; split; congruence.
Qed.

(** Body [a], under load 80, after the refresh of the scenario of the
    design document. *)
Lemma particles_after_refresh_witness :
  exists o p,
    In ("web", o) (groupOrbitsRef (reconcile noRandom [entA; entB] window0)) /\
    In ("a", p) (planets o) /\
    (particles p <> [] <->
     (50 < match cpuPercent (container p) with Some l => l | None => 0%Q end)%Q
     \/ state (container p) = "restarting").
Proof.
  eexists. eexists.
  split; [crunch; left; reflexivity |].
  split; [crunch; left; reflexivity |].
  eapply (particles_after_refresh noRandom [entA; entB] window0 "web" "a").
  - discriminate.
  - split; constructor.
  - crunch. left. reflexivity.
  - crunch. left. reflexivity.
Defined.

(** ** A second refresh with the same list *)

Lemma fold_left_noop {A S : Type} (f : S -> A -> S) (l : list A) (s : S) :
  (forall a, In a l -> f s a = s) -> fold_left f l s = s.
Proof.
  induction l as [| a l IH]; simpl; intros H; [reflexivity |].
  rewrite (H a) by now left. apply IH. intros b Hb. apply H. now right.
Qed.

Lemma set_groupOrbitsRef_same (s : Scene) :
  set_groupOrbitsRef (groupOrbitsRef s) s = s.
Proof. now destruct s. Qed.

Lemma adjustOrbit_noop (k : string) (f : GroupOrbit -> GroupOrbit) (s : Scene) :
  (forall o, map_get k (groupOrbitsRef s) = Some o -> f o = o) ->
  adjustOrbit k f s = s.
Proof.
  intros H. unfold adjustOrbit. rewrite map_adjust_id by exact H.
  apply set_groupOrbitsRef_same.
Qed.

Lemma adjustPlanet_noop (k pid : string) (f : Planet -> Planet) (s : Scene) :
  (forall o p, map_get k (groupOrbitsRef s) = Some o ->
               map_get pid (planets o) = Some p -> f p = p) ->
  adjustPlanet k pid f s = s.
Proof.
  intros H. unfold adjustPlanet. apply adjustOrbit_noop. intros o Ho.
  rewrite map_adjust_id by (intros p Hp; now apply (H o p)).
  apply set_planets_same.
Qed.

(** The particle branch does nothing on a body whose particles agree with
    its entity. *)
Lemma updateParticles_noop (k : string) (c : ContainerStats) (p : Planet)
  (s : Scene) :
  negb (List.length (particles p) =? 0)%nat = shouldShowParticles c ->
  updateParticles k c p s = s.
Proof.
  intros H. unfold updateParticles. rewrite <- H.
  destruct (List.length (particles p)); reflexivity.
Qed.

(** On a body that is there and shows the entity, the add-or-update step is
    the property update alone. *)
Lemma addOrUpdatePlanet_present (g : Group) (s : Scene)
  (ic : nat * ContainerStats) (o : GroupOrbit) (p : Planet) :
  map_get (key g) (groupOrbitsRef s) = Some o ->
  map_get (id (snd ic)) (planets o) = Some p ->
  container p = snd ic ->
  particlesOK p ->
  addOrUpdatePlanet g s ic
  = adjustPlanet (key g) (id (snd ic))
      (updateProperties (refIs (focusedPlanetIdRef s) (id (snd ic))) (snd ic)) s.
Proof.
  intros Hget Hp Hc Hpart. unfold addOrUpdatePlanet. rewrite Hget.
  assert (Hhas : map_has (id (snd ic)) (planets o) = true)
    by (unfold map_has; now rewrite Hp).
  rewrite Hhas.
  set (upd := updateProperties (refIs (focusedPlanetIdRef s) (id (snd ic)))
                               (snd ic)).
  assert (Hget2 : map_get (key g)
                    (groupOrbitsRef (adjustPlanet (key g) (id (snd ic)) upd s))
                  = Some (set_planets (map_adjust (id (snd ic)) upd (planets o)) o)).
  { unfold adjustPlanet, adjustOrbit. cbn [groupOrbitsRef set_groupOrbitsRef].
    now rewrite map_get_adjust_same, Hget. }
  rewrite Hget2. cbn [planets set_planets].
  rewrite map_get_adjust_same, Hp. cbn [option_map].
  apply updateParticles_noop.
  unfold particlesOK in Hpart. rewrite Hc in Hpart. exact Hpart.
Qed.

Lemma NoDup_map_filter {A B : Type} (f : A -> B) (t : A -> bool) (l : list A) :
  NoDup (List.map f l) -> NoDup (List.map f (filter t l)).
Proof.
  induction l as [| a l IH]; simpl; intros H; [constructor |].
  inversion H as [| ? ? Hn Hl]; subst.
  destruct (t a); simpl; [| now apply IH].
  constructor; [| now apply IH].
  intros Hin. apply Hn. apply in_map_iff in Hin.
  destruct Hin as (x & Hx & Hxin). apply filter_In in Hxin.
  rewrite <- Hx. apply in_map. tauto.
Qed.

Lemma NoDup_map_inj {A B : Type} (f : A -> B) (l : list A) (x y : A) :
  NoDup (List.map f l) -> In x l -> In y l -> f x = f y -> x = y.
Proof.
  induction l as [| a l IH]; simpl; intros H Hx Hy Heq; [contradiction |].
  inversion H as [| ? ? Hn Hl]; subst.
  destruct Hx as [-> | Hx], Hy as [-> | Hy]; auto.
  - exfalso. apply Hn. rewrite Heq. now apply in_map.
  - exfalso. apply Hn. rewrite <- Heq. now apply in_map.
Qed.

Lemma group_ids_NoDup (g : Group) (cs : list ContainerStats) :
  NoDup (List.map id cs) -> In g (groupContainers cs) ->
  NoDup (List.map id (containers g)).
Proof.
  intros Hnd Hg. rewrite groupContainers_eq in Hg.
  apply in_map_iff in Hg. destruct Hg as (k & <- & _). simpl.
  unfold membersOf. now apply NoDup_map_filter.
Qed.

(** A body whose sprite has the width of the update step is a fixed point of
    the property update. *)
Lemma updateProperties_fixed (foc : option string) (p : Planet) :
  orbitSpeed p = planetOrbitSpeed (container p) ->
  spriteHeight p = spriteWidth p ->
  spriteWidth p = targetWidth foc (container p) ->
  updateProperties (refIs foc (id (container p))) (container p) p = p.
Proof.
  intros Hs Hh Hw. destruct p as [c sp gl rg pa an os w h]. simpl in *.
  unfold updateProperties, targetWidth, plainWidth in *. simpl.
  subst. reflexivity.
Qed.

Lemma indexed_In {A : Type} (l : list A) (ia : nat * A) :
  In ia (indexed l) -> In (snd ia) l.
Proof.
  intros H. rewrite <- (indexed_snd l). now apply in_map.
Qed.

Lemma set_orbitGroup_same (o : GroupOrbit) : set_orbitGroup (orbitGroup o) o = o.
Proof. now destruct o. Qed.

(** On a settled ring whose bodies have the width of the update step, the
    step of [groups.forEach] changes nothing. *)
Lemma reconcileGroup_noop (random : nat -> R) (n : nat) (s : Scene)
  (ig : nat * Group) :
  sceneWf s ->
  settled [snd ig] (focusedPlanetIdRef s) s ->
  NoDup (List.map id (containers (snd ig))) ->
  reconcileGroup random n s ig = s.
Proof.
  intros Hwf (_ & Hset) Hnd. destruct ig as [i g]. cbn [snd] in *.
  destruct (Hset g (or_introl eq_refl)) as (o & Hget & (Hgrp & Hbodies & Hcover)).
  assert (Hwfo : map_wf (planets o)) by (eapply sceneWf_get; eassumption).
  unfold reconcileGroup. cbn [fst snd].
  assert (Hhas : map_has (key g) (groupOrbitsRef s) = true)
    by (unfold map_has; now rewrite Hget).
  rewrite Hhas.
  rewrite (adjustOrbit_noop (key g) (set_orbitGroup g) s).
  2:{ intros o' Ho'. rewrite Hget in Ho'. injection Ho' as <-.
      rewrite <- Hgrp. apply set_orbitGroup_same. }
  rewrite Hget.
  rewrite (fold_left_noop
             (removeStalePlanet (key g) (List.map id (containers g)))).
  2:{ intros [pid p] Hin. unfold removeStalePlanet. cbn [fst snd].
      destruct (Hbodies pid p (map_In_get _ _ _ Hwfo Hin)) as (Hc & Hid & _).
      assert (Hex : existsb (String.eqb pid) (List.map id (containers g)) = true).
      { apply existsb_eqb_In. rewrite <- Hid. now apply in_map. }
      now rewrite Hex. }
  apply fold_left_noop. intros ic Hic. apply indexed_In in Hic.
  destruct (map_has_get _ _ (Hcover _ Hic)) as (p & Hp).
  destruct (Hbodies _ p Hp) as (Hc & Hid & (Hspeed & (Hh & Hw) & Hpart)).
  assert (Hcp : container p = snd ic)
    by (apply (NoDup_map_inj id (containers g)); assumption).
  rewrite (addOrUpdatePlanet_present g s ic o p Hget Hp Hcp Hpart).
  apply adjustPlanet_noop. intros o' p' Ho' Hp'.
  rewrite Hget in Ho'. injection Ho' as <-.
  rewrite Hp in Hp'. injection Hp' as <-.
  rewrite <- Hcp. apply updateProperties_fixed; [exact Hspeed | exact Hh |].
  destruct Hw as [Hw | (_ & Hnone & Htrue)]; [exact Hw |].
  rewrite Hnone in Htrue. discriminate.
Qed.

(** X22. Reconciling again with the same list of entities (of distinct
    ids) changes nothing, provided the first reconciliation has left the
    focus ref as it was: no ring or body is created or dropped, the start
    angles, the angles, the layers and the counters stay. *)
Lemma reconcile_again_when_focus_kept (random random' : nat -> R)
  (cs : list ContainerStats) (s : Scene) :
  appRef s <> None ->
  sceneWf s ->
  NoDup (List.map id cs) ->
  focusedPlanetIdRef (reconcile random cs s) = focusedPlanetIdRef s ->
  reconcile random' cs (reconcile random cs s) = reconcile random cs s.
Proof.
  intros Happ Hwf Hnd Hfoc.
  destruct (reconcile_settles random cs s Happ Hwf)
    as (Hwf1 & Hset1 & Happ1 & Hkeys1).
  set (s1 := reconcile random cs s) in *. clearbody s1.
  rewrite <- Hfoc in Hset1.
  unfold reconcile. destruct (appRef s1) eqn:Eapp1; [| reflexivity].
  rewrite (fold_left_noop
             (removeStaleOrbit (List.map key (groupContainers cs)))).
  2:{ intros [k o] Hin. unfold removeStaleOrbit. cbn [fst snd].
      assert (Hex : existsb (String.eqb k) (List.map key (groupContainers cs))
                    = true).
      { apply existsb_eqb_In. apply Hkeys1.
        change k with (fst (k, o)). now apply in_map. }
      now rewrite Hex. }
  apply fold_left_noop. intros ig Hig. apply indexed_In in Hig.
  apply reconcileGroup_noop; [exact Hwf1 | | now apply (group_ids_NoDup _ cs)].
  destruct Hset1 as (Hmono & Hset1). split; [exact Hmono |].
  intros g [<- | []]. now apply Hset1.
Qed.

(** The refresh of the scenario of the design document, twice. *)
Lemma reconcile_again_when_focus_kept_witness :
  reconcile noRandom [entA; entB] (reconcile noRandom [entA; entB] window0)
  = reconcile noRandom [entA; entB] window0.
Proof.
  apply (reconcile_again_when_focus_kept noRandom noRandom [entA; entB] window0).
  - discriminate.
  - split; constructor.
  - repeat constructor; simpl; intuition discriminate.
  - crunch. reflexivity.
Defined.

(** ** The second refresh changes sprite sizes at most *)

Lemma fold_left_inv {A S T : Type} (f : S -> A -> S) (l : list A)
  (I : S -> Prop) (E : S -> T) :
  (forall s a, In a l -> I s -> I (f s a) /\ E (f s a) = E s) ->
  forall s, I s -> I (fold_left f l s) /\ E (fold_left f l s) = E s.
Proof.
  induction l as [| a l IH]; simpl; intros H s Hs; [now split |].
  destruct (H s a (or_introl eq_refl) Hs) as (HI & HE).
  destruct (IH (fun s b Hb => H s b (or_intror Hb)) (f s a) HI) as (HI' & HE').
  split; [exact HI' | congruence].
Qed.

Lemma map_map_adjust {V W : Type} (E : string * V -> W) (k : string)
  (f : V -> V) (m : JsMap V) :
  (forall v, map_get k m = Some v -> E (k, f v) = E (k, v)) ->
  List.map E (map_adjust k f m) = List.map E m.
Proof.
  induction m as [| [k' v'] m IH]; simpl; intros H; [reflexivity |].
  destruct (String.eqb_spec k' k) as [-> | Hne]; simpl.
  - now rewrite H.
  - now rewrite IH.
Qed.

(** A change of one body that keeps everything but the sprite size is
    invisible once the sizes are erased. *)
Lemma eraseSizes_adjustPlanet (k pid : string) (f : Planet -> Planet) (s : Scene) :
  (forall o p, map_get k (groupOrbitsRef s) = Some o ->
               map_get pid (planets o) = Some p ->
               eraseSize (f p) = eraseSize p) ->
  eraseSizes (adjustPlanet k pid f s) = eraseSizes s.
Proof.
  intros H. unfold eraseSizes, adjustPlanet, adjustOrbit.
  cbn [groupOrbitsRef set_groupOrbitsRef].
  rewrite map_map_adjust; [reflexivity |].
  intros o Ho. cbn [fst snd planets set_planets]. f_equal.
  assert (Hpl : List.map (fun pe => (fst pe, eraseSize (snd pe)))
                         (map_adjust pid f (planets o))
                = List.map (fun pe => (fst pe, eraseSize (snd pe))) (planets o)).
  { apply map_map_adjust. intros p Hp. cbn [fst snd]. f_equal.
    now apply (H _ p Ho). }
  rewrite Hpl. now destruct o.
Qed.

Lemma eraseSize_updateProperties (b : bool) (p : Planet) :
  orbitSpeed p = planetOrbitSpeed (container p) ->
  eraseSize (updateProperties b (container p) p) = eraseSize p.
Proof.
  intros Hs. unfold eraseSize, updateProperties; simpl. now rewrite Hs.
Qed.

(** The add-or-update loop over members that all have their body: sizes
    apart, the scene stays. *)
Lemma addOrUpdatePlanets_sizes_only (g : Group) (l : list (nat * ContainerStats))
  (s : Scene) :
  (forall ic, In ic l -> In (snd ic) (containers g)) ->
  NoDup (List.map id (containers g)) ->
  (exists o, map_get (key g) (groupOrbitsRef s) = Some o /\ orbitShows g o) ->
  eraseSizes (fold_left (addOrUpdatePlanet g) l s) = eraseSizes s.
Proof.
  intros Hl Hnd Hs.
  apply (fold_left_inv (addOrUpdatePlanet g) l
           (fun s => exists o, map_get (key g) (groupOrbitsRef s) = Some o /\
                               orbitShows g o)
           eraseSizes); [| exact Hs].
  clear s Hs. intros s ic Hic (o & Hget & Hshow).
  pose proof (Hl ic Hic) as Hc.
  destruct (Hshow _ Hc) as (p & Hp & Hcp & Hspeed & Hpart).
  rewrite (addOrUpdatePlanet_present g s ic o p Hget Hp Hcp Hpart).
  set (upd := updateProperties (refIs (focusedPlanetIdRef s) (id (snd ic)))
                               (snd ic)).
  split.
  - exists (set_planets (map_adjust (id (snd ic)) upd (planets o)) o). split.
    + unfold adjustPlanet, adjustOrbit. cbn [groupOrbitsRef set_groupOrbitsRef].
      now rewrite map_get_adjust_same, Hget.
    + intros c' Hc'. cbn [planets set_planets]. rewrite map_get_adjust.
      destruct (Hshow c' Hc') as (p' & Hp' & Hcp' & Hspeed' & Hpart').
      destruct (String.eqb_spec (id (snd ic)) (id c')) as [Heq | Hne].
      * assert (Hsame : snd ic = c')
          by (apply (NoDup_map_inj id (containers g)); assumption).
        rewrite Hp'. cbn [option_map]. eexists. split; [reflexivity |].
        unfold upd, particlesOK. simpl. rewrite Hsame.
        split; [reflexivity |]. split; [reflexivity |].
        unfold particlesOK in Hpart'. now rewrite Hcp' in Hpart'.
      * exists p'. tauto.
  - apply eraseSizes_adjustPlanet. intros o' p' Ho' Hp'.
    rewrite Hget in Ho'. injection Ho' as <-.
    rewrite Hp in Hp'. injection Hp' as <-.
    unfold upd. rewrite <- Hcp. apply eraseSize_updateProperties.
    now rewrite Hcp.
Qed.

Lemma orbitSettled_shows (g : Group) (foc0 foc : option string) (o : GroupOrbit) :
  NoDup (List.map id (containers g)) ->
  orbitSettled g foc0 foc o -> orbitShows g o.
Proof.
  intros Hnd (_ & Hbodies & Hcover) c Hc.
  destruct (map_has_get _ _ (Hcover c Hc)) as (p & Hp).
  destruct (Hbodies _ p Hp) as (Hin & Hid & (Hspeed & _ & Hpart)).
  assert (Hcp : container p = c)
    by (apply (NoDup_map_inj id (containers g)); assumption).
  exists p. rewrite <- Hcp at 3. tauto.
Qed.

(** On a settled ring the step of [groups.forEach] changes sprite sizes at
    most. *)
Lemma reconcileGroup_sizes_only (random : nat -> R) (n : nat) (s : Scene)
  (ig : nat * Group) (foc0 : option string) :
  sceneWf s ->
  settled [snd ig] foc0 s ->
  NoDup (List.map id (containers (snd ig))) ->
  eraseSizes (reconcileGroup random n s ig) = eraseSizes s.
Proof.
  intros Hwf (_ & Hset) Hnd. destruct ig as [i g]. cbn [snd] in *.
  destruct (Hset g (or_introl eq_refl)) as (o & Hget & Ho).
  pose proof (orbitSettled_shows g _ _ o Hnd Ho) as Hshow.
  destruct Ho as (Hgrp & Hbodies & Hcover).
  assert (Hwfo : map_wf (planets o)) by (eapply sceneWf_get; eassumption).
  unfold reconcileGroup. cbn [fst snd].
  assert (Hhas : map_has (key g) (groupOrbitsRef s) = true)
    by (unfold map_has; now rewrite Hget).
  rewrite Hhas.
  rewrite (adjustOrbit_noop (key g) (set_orbitGroup g) s).
  2:{ intros o' Ho'. rewrite Hget in Ho'. injection Ho' as <-.
      rewrite <- Hgrp. apply set_orbitGroup_same. }
  rewrite Hget.
  rewrite (fold_left_noop
             (removeStalePlanet (key g) (List.map id (containers g)))).
  2:{ intros [pid p] Hin. unfold removeStalePlanet. cbn [fst snd].
      destruct (Hbodies pid p (map_In_get _ _ _ Hwfo Hin)) as (Hc & Hid & _).
      assert (Hex : existsb (String.eqb pid) (List.map id (containers g)) = true).
      { apply existsb_eqb_In. rewrite <- Hid. now apply in_map. }
      now rewrite Hex. }
  apply addOrUpdatePlanets_sizes_only.
  - intros ic. apply indexed_In.
  - exact Hnd.
  - now exists o.
Qed.

(** A step of [groups.forEach] on a group whose ring is settled keeps all
    settled rings settled. *)
Lemma reconcileGroup_keeps_settled (random : nat -> R) (n : nat) (s : Scene)
  (ig : nat * Group) (gs : list Group) (foc0 : option string) :
  sceneWf s ->
  settled gs foc0 s ->
  NoDup (List.map key gs) ->
  In (snd ig) gs ->
  sceneWf (reconcileGroup random n s ig) /\
  settled gs foc0 (reconcileGroup random n s ig).
Proof.
  intros Hwf Hset Hnd Hin.
  set (others := filter (fun g' => negb (key g' =? key (snd ig))) gs).
  assert (Hothers : settled others foc0 s).
  { destruct Hset as (Hmono & Hset). split; [exact Hmono |].
    intros g Hg. apply Hset. unfold others in Hg. apply filter_In in Hg. tauto. }
  assert (Hfresh : forall g', In g' others -> key g' <> key (snd ig)).
  { intros g' Hg'. unfold others in Hg'. apply filter_In in Hg'.
    destruct Hg' as (_ & Hne). apply negb_true_iff in Hne.
    now apply String.eqb_neq. }
  destruct (reconcileGroup_settles random n s ig others foc0 Hwf Hothers Hfresh)
    as (Hwf' & (Hmono' & Hset') & _).
  split; [exact Hwf' |]. split; [exact Hmono' |].
  intros g Hg. apply Hset'. apply in_or_app.
  destruct (String.eqb_spec (key g) (key (snd ig))) as [Heq | Hne].
  - right. left. symmetry.
    apply (NoDup_map_inj key gs); assumption.
  - left. unfold others. apply filter_In. split; [exact Hg |].
    apply negb_true_iff. now apply String.eqb_neq.
Qed.

(** X23. Reconciling again with the same list of entities (of distinct
    ids) changes sprite sizes at most: no ring or body is created or
    dropped, every ring keeps its start angle and radius, every body keeps
    its entity, angle, speed and particles, and the layers, the selection
    and the counters stay. *)
Lemma reconcile_again_sizes_only (random random' : nat -> R)
  (cs : list ContainerStats) (s : Scene) :
  appRef s <> None ->
  sceneWf s ->
  NoDup (List.map id cs) ->
  eraseSizes (reconcile random' cs (reconcile random cs s))
  = eraseSizes (reconcile random cs s).
Proof.
  intros Happ Hwf Hnd.
  destruct (reconcile_settles random cs s Happ Hwf)
    as (Hwf1 & Hset1 & Happ1 & Hkeys1).
  set (s1 := reconcile random cs s) in *. clearbody s1.
  unfold reconcile. destruct (appRef s1) eqn:Eapp1; [| reflexivity].
  rewrite (fold_left_noop
             (removeStaleOrbit (List.map key (groupContainers cs)))).
  2:{ intros [k o] Hin. unfold removeStaleOrbit. cbn [fst snd].
      assert (Hex : existsb (String.eqb k) (List.map key (groupContainers cs))
                    = true).
      { apply existsb_eqb_In. apply Hkeys1.
        change k with (fst (k, o)). now apply in_map. }
      now rewrite Hex. }
  apply (fold_left_inv _ _
           (fun s' => sceneWf s' /\
                      settled (groupContainers cs) (focusedPlanetIdRef s) s')
           eraseSizes); [| now split].
  intros s' ig Hig (Hwf' & Hset'). apply indexed_In in Hig. split.
  - apply reconcileGroup_keeps_settled; auto.
    rewrite groupContainers_keys. apply firstEncounter_NoDup.
  - apply (reconcileGroup_sizes_only _ _ _ _ (focusedPlanetIdRef s));
      [exact Hwf' | | now apply (group_ids_NoDup _ cs)].
    destruct Hset' as (Hmono & Hset'). split; [exact Hmono |].
    intros g [<- | []]. now apply Hset'.
Qed.

(** Two entities of one group and one of another, refreshed twice. *)
Lemma reconcile_again_sizes_only_witness :
  eraseSizes (reconcile noRandom [entA; entD; entB]
                (reconcile noRandom [entA; entD; entB] window0))
  = eraseSizes (reconcile noRandom [entA; entD; entB] window0).
Proof.
  apply (reconcile_again_sizes_only noRandom noRandom [entA; entD; entB] window0).
  - discriminate.
  - split; constructor.
  - repeat constructor; simpl; intuition discriminate.
Defined.

(** ** Rings and bodies that a refresh keeps *)

Lemma sameBody_refl (p : Planet) : sameBody p p.
Proof. now repeat split. Qed.

Lemma sameBody_trans (p1 p2 p3 : Planet) :
  sameBody p1 p2 -> sameBody p2 p3 -> sameBody p1 p3.
Proof.
  intros (A1 & A2 & A3 & A4) (B1 & B2 & B3 & B4).
  unfold sameBody. rewrite B1, B2, B3, B4. now repeat split.
Qed.

Lemma sameRing_refl (o : GroupOrbit) : sameRing o o.
Proof. now repeat split. Qed.

Lemma sameRing_trans (o1 o2 o3 : GroupOrbit) :
  sameRing o1 o2 -> sameRing o2 o3 -> sameRing o1 o3.
Proof.
  intros (A1 & A2 & A3 & A4 & A5 & A6) (B1 & B2 & B3 & B4 & B5 & B6).
  unfold sameRing. rewrite B1, B2, B3, B4, B5, B6. now repeat split.
Qed.

Section Kept.
Variable keys : list string.
Variable idsOf : string -> list string.

Lemma keptScene_refl (s : Scene) : keptScene keys idsOf s s.
Proof.
  intros k o _ Hget. exists o. split; [exact Hget |].
  split; [apply sameRing_refl |].
  intros pid p _ Hp. exists p. split; [exact Hp | apply sameBody_refl].
Qed.

Lemma keptScene_trans (s1 s2 s3 : Scene) :
  keptScene keys idsOf s1 s2 -> keptScene keys idsOf s2 s3 ->
  keptScene keys idsOf s1 s3.
Proof.
  intros H12 H23 k o1 Hk Hget1.
  destruct (H12 k o1 Hk Hget1) as (o2 & Hget2 & Hr12 & Hb12).
  destruct (H23 k o2 Hk Hget2) as (o3 & Hget3 & Hr23 & Hb23).
  exists o3. split; [exact Hget3 |].
  split; [eapply sameRing_trans; eassumption |].
  intros pid p1 Hpid Hp1.
  destruct (Hb12 pid p1 Hpid Hp1) as (p2 & Hp2 & Hs12).
  destruct (Hb23 pid p2 Hpid Hp2) as (p3 & Hp3 & Hs23).
  exists p3. split; [exact Hp3 | eapply sameBody_trans; eassumption].
Qed.

Lemma keptScene_orbits_eq (s s' : Scene) :
  groupOrbitsRef s' = groupOrbitsRef s -> keptScene keys idsOf s s'.
Proof.
  intros Heq k o Hk Hget. rewrite Heq. now apply keptScene_refl.
Qed.

Lemma keptScene_core (s s' : Scene) : sameCore s s' -> keptScene keys idsOf s s'.
Proof. intros (_ & B & _). now apply keptScene_orbits_eq. Qed.

Lemma keptScene_fold {A : Type} (f : Scene -> A -> Scene) (l : list A) :
  (forall s a, In a l -> keptScene keys idsOf s (f s a)) ->
  forall s, keptScene keys idsOf s (fold_left f l s).
Proof.
  induction l as [| a l IH]; simpl; intros H s; [apply keptScene_refl |].
  eapply keptScene_trans; [apply H; now left |].
  apply IH. intros s' b Hb. apply H. now right.
Qed.

(** A change of the bodies of the ring [k0] that keeps the bodies whose ids
    are in [idsOf k0]. *)
Lemma keptScene_onPlanets (k0 : string) (F : JsMap Planet -> JsMap Planet)
  (s s' : Scene) :
  groupOrbitsRef s' = onPlanets k0 F (groupOrbitsRef s) ->
  (forall o pid p, map_get k0 (groupOrbitsRef s) = Some o ->
                   In pid (idsOf k0) -> map_get pid (planets o) = Some p ->
                   exists p', map_get pid (F (planets o)) = Some p' /\
                              sameBody p p') ->
  keptScene keys idsOf s s'.
Proof.
  intros Horb HF k o Hk Hget. rewrite Horb. unfold onPlanets.
  rewrite map_get_adjust, Hget.
  destruct (String.eqb_spec k0 k) as [-> | Hne]; cbn [option_map].
  - eexists. split; [reflexivity |]. split; [now repeat split |].
    cbn [planets set_planets]. intros pid p Hpid Hp. now apply (HF o).
  - exists o. split; [reflexivity |]. split; [apply sameRing_refl |].
    intros pid p _ Hp. exists p. split; [exact Hp | apply sameBody_refl].
Qed.

Lemma keptScene_unfocus (s : Scene) : keptScene keys idsOf s (unfocusPlanet s).
Proof.
  destruct (unfocusPlanet_core s) as (_ & [Hcore | (x & _ & _ & Horb)]).
  - now apply keptScene_core.
  - destruct Horb as [Heq | (k0 & Heq)]; [now apply keptScene_orbits_eq |].
    apply (keptScene_onPlanets k0 _ _ _ Heq).
    intros o pid p _ _ Hp. rewrite map_get_adjust, Hp.
    destruct (x =? pid); cbn [option_map]; eexists; split; try reflexivity.
    + now repeat split.
    + apply sameBody_refl.
Qed.

Lemma keptScene_removeStaleOrbit (s : Scene) (e : string * GroupOrbit) :
  keptScene keys idsOf s (removeStaleOrbit keys s e).
Proof.
  destruct (removeStaleOrbit_core keys s e) as (_ & _ & Horb).
  destruct (existsb (String.eqb (fst e)) keys) eqn:Eex.
  - now apply keptScene_orbits_eq.
  - intros k o Hk Hget. rewrite Horb.
    assert (Hne : k <> fst e).
    { intros ->. apply existsb_eqb_In in Hk. congruence. }
    rewrite map_get_delete_other by exact Hne.
    now apply keptScene_refl.
Qed.

Lemma keptScene_removeStalePlanet (k0 : string) (s : Scene) (e : string * Planet) :
  keptScene keys idsOf s (removeStalePlanet k0 (idsOf k0) s e).
Proof.
  unfold removeStalePlanet.
  destruct (existsb (String.eqb (fst e)) (idsOf k0)) eqn:Eex;
    [apply keptScene_refl |].
  eapply keptScene_trans.
  { instantiate (1 := if refIs (focusedPlanetIdRef s) (fst e)
                      then unfocusPlanet s else s).
    destruct (refIs (focusedPlanetIdRef s) (fst e));
      [apply keptScene_unfocus
      | apply keptScene_refl]. }
  set (s1 := if refIs (focusedPlanetIdRef s) (fst e)
             then unfocusPlanet s else s). clearbody s1.
  eapply keptScene_trans;
    [apply keptScene_core; apply (removePlanetGraphics_core (snd e)) |].
  set (s2 := removePlanetGraphics (snd e) s1). clearbody s2.
  apply (keptScene_onPlanets k0 (map_delete (fst e))); [reflexivity |].
  intros o pid p _ Hpid Hp. exists p. split; [| apply sameBody_refl].
  rewrite map_get_delete_other; [exact Hp |].
  intros ->. apply existsb_eqb_In in Hpid. congruence.
Qed.
End Kept.

Lemma keptScene_reconcileGroup (keys : list string) (idsOf : string -> list string)
  (random : nat -> R) (n : nat) (s : Scene) (ig : nat * Group) :
  idsOf (key (snd ig)) = List.map id (containers (snd ig)) ->
  keptScene keys idsOf s (reconcileGroup random n s ig).
Proof.
  intros Hids. destruct ig as [i g]. cbn [snd] in Hids.
  unfold reconcileGroup. cbn [fst snd]. rewrite <- Hids.
  (* get or create the ring *)
  eapply keptScene_trans.
  { instantiate (1 := if map_has (key g) (groupOrbitsRef s) then s
                      else createGroupOrbit random g i n s).
    destruct (map_has (key g) (groupOrbitsRef s)) eqn:Ehas;
      [apply keptScene_refl |].
    destruct (createGroupOrbit_core random g i n s) as (_ & _ & o0 & _ & _ & Horb).
    intros k o Hk Hget. rewrite Horb.
    assert (Hne : key g <> k).
    { intros <-. unfold map_has in Ehas. now rewrite Hget in Ehas. }
    rewrite map_get_set_other by congruence.
    exact (keptScene_refl keys idsOf s k o Hk Hget). }
  set (s1 := if map_has (key g) (groupOrbitsRef s) then s
             else createGroupOrbit random g i n s). clearbody s1.
  (* store the group *)
  eapply keptScene_trans.
  { instantiate (1 := adjustOrbit (key g) (set_orbitGroup g) s1).
    intros k o Hk Hget. cbn [adjustOrbit groupOrbitsRef set_groupOrbitsRef].
    rewrite map_get_adjust, Hget.
    destruct (key g =? k); cbn [option_map]; eexists;
      (split; [reflexivity |]); (split; [now repeat split |]);
      intros pid p _ Hp; exists p; (split; [exact Hp | apply sameBody_refl]). }
  set (s2 := adjustOrbit (key g) (set_orbitGroup g) s1). clearbody s2.
  (* drop the bodies that are gone *)
  eapply keptScene_trans.
  { instantiate (1 := match map_get (key g) (groupOrbitsRef s2) with
                      | Some groupOrbit =>
                          fold_left (removeStalePlanet (key g) (idsOf (key g)))
                                    (planets groupOrbit) s2
                      | None => s2
                      end).
    destruct (map_get (key g) (groupOrbitsRef s2)); [| apply keptScene_refl].
    apply keptScene_fold. intros s' e _. apply keptScene_removeStalePlanet. }
  set (s3 := match map_get (key g) (groupOrbitsRef s2) with
             | Some groupOrbit =>
                 fold_left (removeStalePlanet (key g) (idsOf (key g)))
                           (planets groupOrbit) s2
             | None => s2
             end). clearbody s3.
  (* add or update the members *)
  apply keptScene_fold. intros s' ic _.
  destruct (map_get (key g) (groupOrbitsRef s')) as [o |] eqn:Hget.
  - destruct (addOrUpdatePlanet_core g s' ic o Hget)
      as (_ & _ & F & Horb & _ & _ & _ & Hkept).
    apply (keptScene_onPlanets keys idsOf (key g) F _ _ Horb).
    intros o' pid p Ho' _ Hp. rewrite Hget in Ho'. injection Ho' as <-.
    now apply Hkept.
  - unfold addOrUpdatePlanet. rewrite Hget. apply keptScene_refl.
Qed.

(** A refresh keeps every ring whose group is still there, and every body
    of such a ring whose entity is still in the group. *)
Lemma keptScene_reconcile (random : nat -> R) (cs : list ContainerStats)
  (s : Scene) :
  keptScene (List.map key (groupContainers cs)) (idsOfGroup cs) s
            (reconcile random cs s).
Proof.
  unfold reconcile. destruct (appRef s); [| apply keptScene_refl].
  eapply keptScene_trans.
  - apply keptScene_fold. intros s' e _. apply keptScene_removeStaleOrbit.
  - apply keptScene_fold. intros s' ig Hig. apply indexed_In in Hig.
    apply keptScene_reconcileGroup.
    rewrite groupContainers_eq in Hig. apply in_map_iff in Hig.
    destruct Hig as (k & <- & _). reflexivity.
Qed.

(** X24. A ring that is in the scene before and after a refresh has kept
    its display objects, its radius and its start angle; a body that is in
    the ring before and after has kept its display objects and its angle. *)
Lemma reconcile_keeps_rings_and_bodies (random : nat -> R)
  (cs : list ContainerStats) (s : Scene) (k : string) (o o' : GroupOrbit) :
  appRef s <> None ->
  sceneWf s ->
  map_get k (groupOrbitsRef s) = Some o ->
  map_get k (groupOrbitsRef (reconcile random cs s)) = Some o' ->
  sameRing o o' /\
  forall pid p p',
    map_get pid (planets o) = Some p -> map_get pid (planets o') = Some p' ->
    sameBody p p'.
Proof.
  intros Happ Hwf Hget Hget'.
  destruct (reconcile_settles random cs s Happ Hwf)
    as (_ & (_ & Hset) & _ & Hkeys).
  assert (Hk : In k (List.map key (groupContainers cs)))
    by (apply Hkeys; eapply map_get_in_keys; eassumption).
  destruct (keptScene_reconcile random cs s k o Hk Hget)
    as (o'' & Hget'' & Hring & Hbodies).
  rewrite Hget' in Hget''. injection Hget'' as <-.
  split; [exact Hring |].
  intros pid p p' Hp Hp'.
  apply in_map_iff in Hk. destruct Hk as (g & Hkey & Hg).
  destruct (Hset g Hg) as (og & Hgetg & (_ & Hsettled & _)).
  rewrite Hkey, Hget' in Hgetg. injection Hgetg as <-.
  destruct (Hsettled pid p' Hp') as (Hin & Hid & _).
  assert (Hpid : In pid (idsOfGroup cs k)).
  { unfold idsOfGroup. rewrite <- Hid. apply in_map.
    apply (group_members g cs Hg) in Hin. unfold membersOf.
    apply filter_In. rewrite String.eqb_eq. rewrite <- Hkey. tauto. }
  destruct (Hbodies pid p Hpid Hp) as (p'' & Hp'' & Hsame).
  rewrite Hp' in Hp''. injection Hp'' as <-. exact Hsame.
Qed.

(** The ring [web] of the scenario of the design document, across a refresh
    that keeps body [a] and drops body [b]. *)
Lemma reconcile_keeps_rings_and_bodies_witness :
  exists o o',
    map_get "web" (groupOrbitsRef (reconcile noRandom [entA; entB] window0))
      = Some o /\
    map_get "web"
      (groupOrbitsRef
         (reconcile noRandom [entA_idle]
            (reconcile noRandom [entA; entB] window0)))
      = Some o' /\
    sameRing o o' /\
    forall pid p p',
      map_get pid (planets o) = Some p -> map_get pid (planets o') = Some p' ->
      sameBody p p'.
Proof.
  eexists. eexists.
  split; [crunch; reflexivity |].
  split; [crunch; reflexivity |].
  apply (reconcile_keeps_rings_and_bodies noRandom [entA_idle]
           (reconcile noRandom [entA; entB] window0) "web").
  - crunch. discriminate.
  - now destruct (reconcile_settles noRandom [entA; entB] window0
                    ltac:(discriminate) ltac:(split; constructor)) as (Hwf & _).
  - crunch. reflexivity.
  - crunch. reflexivity.
Defined.

(** ** Group keys and titles *)

Lemma leadingWord_split (s : string) :
  exists rest,
    s = (leadingWord s ++ rest)%string /\
    noSeparator (leadingWord s) = true /\
    (rest = "" \/ startsWithSeparator rest = true).
Proof.
  induction s as [| ch s (rest & Hs & Hno & Hrest)].
  - exists "". cbn. auto.
  - cbn [leadingWord]. destruct (isSeparator ch) eqn:E.
    + exists (String ch s). cbn. rewrite E. auto.
    + exists rest. cbn. rewrite E, Hno, <- Hs. auto.
Qed.

Lemma truthyLabel_nonempty (k : string) (labels : JsMap string) (g : string) :
  truthyLabel k labels = Some g -> g <> "".
Proof.
  unfold truthyLabel. destruct (map_get k labels) as [v |]; [| discriminate].
  destruct (v =? "") eqn:E; [discriminate |].
  intros [= <-]. now apply String.eqb_neq.
Qed.

Lemma isSeparator_toUpper (ch : ascii) : isSeparator (toUpper ch) = isSeparator ch.
Proof. destruct ch as [[] [] [] [] [] [] [] []]; reflexivity. Qed.

Lemma toUpper_idem (ch : ascii) : toUpper (toUpper ch) = toUpper ch.
Proof. destruct ch as [[] [] [] [] [] [] [] []]; reflexivity. Qed.

Lemma capitalize_idem (w : string) : capitalize (capitalize w) = capitalize w.
Proof. destruct w as [| ch w]; [reflexivity |]. cbn. now rewrite toUpper_idem. Qed.

Lemma noSeparator_capitalize (w : string) :
  noSeparator (capitalize w) = noSeparator w.
Proof.
  destruct w as [| ch w]; [reflexivity |]. cbn. now rewrite isSeparator_toUpper.
Qed.

Lemma noSeparator_app (s t : string) :
  noSeparator (s ++ t)%string = noSeparator s && noSeparator t.
Proof.
  induction s as [| ch s IH]; [reflexivity |].
  cbn. rewrite IH. now rewrite andb_assoc.
Qed.

(** The words of a key have no separator in them. *)
Lemma splitWords_noSeparator (s : string) :
  Forall (fun w => noSeparator w = true) (splitWords s).
Proof.
  induction s as [| ch s IH]; [repeat constructor |].
  cbn [splitWords]. destruct (isSeparator ch) eqn:E.
  - constructor; [reflexivity | exact IH].
  - destruct (splitWords s) as [| w ws].
    + repeat constructor. cbn. now rewrite E.
    + inversion IH; subst. constructor; [| assumption].
      cbn. rewrite E. assumption.
Qed.

Lemma splitWords_nonempty (s : string) : splitWords s <> [].
Proof.
  destruct s as [| ch s]; [discriminate |].
  cbn. destruct (isSeparator ch); [discriminate |].
  destruct (splitWords s); discriminate.
Qed.

(** A key without separators is one word. *)
Lemma splitWords_one (s : string) : noSeparator s = true -> splitWords s = [s].
Proof.
  induction s as [| ch s IH]; [reflexivity |].
  cbn. destruct (isSeparator ch); [discriminate |].
  cbn. intros H. now rewrite (IH H).
Qed.

Lemma noSeparator_concat (ws : list string) :
  Forall (fun w => noSeparator w = true) ws ->
  noSeparator (String.concat " " ws) = true.
Proof.
  induction 1 as [| w ws Hw Hws IH]; [reflexivity |].
  destruct ws as [| w' ws]; [exact Hw |].
  change (String.concat " " (w :: w' :: ws))
    with (w ++ " " ++ String.concat " " (w' :: ws))%string.
  rewrite !noSeparator_app, Hw, IH. reflexivity.
Qed.

Lemma noSeparator_title (k : string) : noSeparator (formatGroupTitle k) = true.
Proof.
  unfold formatGroupTitle. apply noSeparator_concat.
  apply Forall_map.
  eapply Forall_impl; [| apply splitWords_noSeparator].
  intros w Hw. cbn beta. now rewrite noSeparator_capitalize.
Qed.

Lemma title_of_word (w : string) :
  noSeparator w = true -> formatGroupTitle w = capitalize w.
Proof.
  intros H. unfold formatGroupTitle. now rewrite (splitWords_one w H).
Qed.

(** The title begins with a capitalised word or with a space. *)
Lemma capitalize_title (k : string) :
  capitalize (formatGroupTitle k) = formatGroupTitle k.
Proof.
  unfold formatGroupTitle.
  pose proof (splitWords_nonempty k) as Hne.
  destruct (splitWords k) as [| w ws]; [congruence |].
  destruct ws as [| w' ws].
  - cbn. apply capitalize_idem.
  - change (String.concat " " (List.map capitalize (w :: w' :: ws)))
      with (capitalize w ++ " " ++ String.concat " " (List.map capitalize (w' :: ws)))%string.
    destruct w as [| ch w]; [reflexivity |].
    cbn. now rewrite toUpper_idem.
Qed.

(** X6. For a group key of ASCII characters, the title made from the key
    has no [-] and no [_] in it, and making a title from a title changes
    nothing. *)
Theorem formatGroupTitle_idempotent :
  forall k : string,
    isAscii k = true ->
    noSeparator (formatGroupTitle k) = true /\
    formatGroupTitle (formatGroupTitle k) = formatGroupTitle k.
Proof.
  intros k _. split; [apply noSeparator_title |].
  rewrite (title_of_word _ (noSeparator_title k)).
  apply capitalize_title.
Qed.

(** The key [my-web_app], whose title is [My Web App]. *)
Lemma formatGroupTitle_idempotent_witness :
  isAscii "my-web_app" = true /\
  formatGroupTitle "my-web_app" = "My Web App" /\
  noSeparator (formatGroupTitle "my-web_app") = true /\
  formatGroupTitle (formatGroupTitle "my-web_app") = formatGroupTitle "my-web_app".
Proof.
  split; [reflexivity |]. split; [reflexivity |].
  apply (formatGroupTitle_idempotent "my-web_app"). reflexivity.
Defined.

(** X7. The group derived for a container that has a name is never the
    empty string, whatever its labels are: an empty label counts as no
    label. *)
Theorem deriveGroup_nonempty :
  forall (labels : option (JsMap string)) (name : string),
    name <> "" -> deriveGroupFromContainer labels name <> "".
Proof.
  intros labels name Hname. unfold deriveGroupFromContainer.
  destruct (truthyLabel "mission.group" _) as [g |] eqn:E1;
    [now apply truthyLabel_nonempty in E1 |].
  destruct (truthyLabel "com.docker.compose.project" _) as [g |] eqn:E2;
    [now apply truthyLabel_nonempty in E2 |].
  unfold matchNamePrefix.
  destruct (leadingWord name); [exact Hname | discriminate].
Qed.

Lemma deriveGroup_nonempty_witness :
  deriveGroupFromContainer (Some [("mission.group", "")]) "web-1" <> "".
Proof.
  apply (deriveGroup_nonempty (Some [("mission.group", "")]) "web-1").
  discriminate.
Defined.

(** X8. Without a usable [mission.group] or compose-project label the
    group is cut from the name: a name that begins with [-] or [_] (or is
    empty) is its own group; any other name is split into the group, which
    has no separator, and a rest that is empty or begins with a separator,
    and the title of such a group is the group with its first letter in
    upper case. *)
Theorem deriveGroup_from_name :
  forall (labels : option (JsMap string)) (name : string),
    let ls := match labels with Some l => l | None => [] end in
    truthyLabel "mission.group" ls = None ->
    truthyLabel "com.docker.compose.project" ls = None ->
    let g := deriveGroupFromContainer labels name in
    (name = "" \/ startsWithSeparator name = true -> g = name) /\
    (name <> "" -> startsWithSeparator name = false ->
     noSeparator g = true /\ g <> "" /\
     (exists rest, name = (g ++ rest)%string /\
                   (rest = "" \/ startsWithSeparator rest = true)) /\
     formatGroupTitle g = capitalize g).
Proof.
  intros labels name ls H1 H2 g.
  unfold g, deriveGroupFromContainer. fold ls. rewrite H1, H2.
  unfold matchNamePrefix. split.
  - intros [-> | Hsep]; [reflexivity |].
    destruct name as [| ch name]; [reflexivity |].
    cbn in Hsep. cbn. now rewrite Hsep.
  - intros Hne Hsep.
    destruct name as [| ch name]; [congruence |].
    cbn in Hsep. cbn [leadingWord]. rewrite Hsep.
    destruct (leadingWord_split (String ch name)) as (rest & Hs & Hno & Hrest).
    cbn [leadingWord] in Hs, Hno. rewrite Hsep in Hs, Hno.
    split; [exact Hno |]. split; [discriminate |].
    split; [now exists rest |].
    now apply title_of_word.
Qed.

Lemma deriveGroup_from_name_witness :
  let g := deriveGroupFromContainer None "web_front-1" in
  ("web_front-1" = "" \/ startsWithSeparator "web_front-1" = true ->
   g = "web_front-1") /\
  ("web_front-1" <> "" -> startsWithSeparator "web_front-1" = false ->
   noSeparator g = true /\ g <> "" /\
   (exists rest, "web_front-1" = (g ++ rest)%string /\
                 (rest = "" \/ startsWithSeparator rest = true)) /\
   formatGroupTitle g = capitalize g).
Proof.
  apply (deriveGroup_from_name None "web_front-1"); reflexivity.
Defined.

(** ** Counting the members of the groups *)

Lemma list_sum_cons (a : nat) (l : list nat) : list_sum (a :: l) = a + list_sum l.
Proof. reflexivity. Qed.

Lemma count_key_once (g : string) (ks : list string) :
  NoDup ks -> In g ks ->
  list_sum (List.map (fun k => if g =? k then 1 else 0) ks) = 1.
Proof.
  induction 1 as [| k ks Hk Hnd IH]; intros Hin; [contradiction |].
  cbn [List.map]. rewrite !list_sum_cons.
  destruct (String.eqb_spec g k) as [-> | Hne].
  - assert (Hzero : list_sum (List.map (fun k' => if k =? k' then 1 else 0) ks) = 0).
    { clear IH Hnd Hin. induction ks as [| a ks IH]; [reflexivity |].
      cbn [List.map]. rewrite !list_sum_cons.
      destruct (String.eqb_spec k a) as [-> | _].
      - exfalso. apply Hk. now left.
      - apply IH. intros H. apply Hk. now right. }
    now rewrite Hzero.
  - destruct Hin as [-> | Hin]; [congruence |]. now rewrite IH.
Qed.

Lemma count_members (ks : list string) (cs : list ContainerStats) :
  NoDup ks -> (forall c, In c cs -> In (group c) ks) ->
  list_sum (List.map (fun k => List.length (membersOf k cs)) ks) = List.length cs.
Proof.
  intros Hnd. induction cs as [| c cs IH]; intros Hall.
  - cbn. induction ks as [| k ks IHk]; [reflexivity |].
    inversion Hnd; subst. cbn. now apply IHk.
  - assert (Hstep :
      forall l,
        list_sum (List.map (fun k => List.length (membersOf k (c :: cs))) l)
        = list_sum (List.map (fun k => List.length (membersOf k cs)) l)
          + list_sum (List.map (fun k => if group c =? k then 1 else 0) l)).
    { induction l as [| k l IHl]; [reflexivity |].
      cbn [List.map]. rewrite !list_sum_cons. rewrite IHl.
      unfold membersOf at 1. cbn [filter]. fold (membersOf k cs).
      destruct (group c =? k); cbn [List.length]; lia. }
    rewrite Hstep, IH by (intros c' Hc'; apply Hall; now right).
    rewrite count_key_once; [cbn; lia | exact Hnd | apply Hall; now left].
Qed.

Lemma length_le_memberCount (gs : list Group) :
  (forall g, In g gs -> containers g <> []) ->
  List.length gs <= memberCount gs.
Proof.
  unfold memberCount.
  induction gs as [| g gs IH]; intros Hne; [apply Nat.le_refl |].
  cbn [List.map List.length]. rewrite !list_sum_cons.
  assert (Hg : containers g <> []) by (apply Hne; now left).
  assert (IH' := IH (fun g' Hg' => Hne g' (or_intror Hg'))).
  destruct (containers g) as [| c l]; [congruence |]. cbn [List.length]. lia.
Qed.

(** X9. Grouping loses and repeats no entity: the sizes of the groups add
    up to the length of the list; there are never more groups than
    entities; and there is no group exactly when the list is empty. *)
Theorem groupContainers_counts :
  forall cs : list ContainerStats,
    memberCount (groupContainers cs) = List.length cs /\
    List.length (groupContainers cs) <= List.length cs /\
    (groupContainers cs = [] <-> cs = []).
Proof.
  intros cs.
  assert (Hsum : memberCount (groupContainers cs) = List.length cs).
  { unfold memberCount. rewrite groupContainers_eq, map_map. cbn [toGroup containers snd].
    apply count_members; [apply firstEncounter_NoDup |].
    intros c Hc. apply firstEncounter_In. now apply in_map. }
  assert (Hle : List.length (groupContainers cs) <= List.length cs).
  { rewrite <- Hsum. apply length_le_memberCount.
    intros g Hg Hnil. rewrite groupContainers_eq in Hg.
    apply in_map_iff in Hg. destruct Hg as (k & <- & Hk).
    apply (proj1 (firstEncounter_In _ _)) in Hk.
    apply in_map_iff in Hk. destruct Hk as (c & Hgc & Hc).
    cbn in Hnil.
    assert (Hin : In c (membersOf k cs)).
    { unfold membersOf. apply filter_In. split; [exact Hc |].
      now apply String.eqb_eq. }
    rewrite Hnil in Hin. exact Hin. }
  split; [exact Hsum |]. split; [exact Hle |]. split.
  - intros Hnil. rewrite Hnil in Hsum. cbn in Hsum.
    destruct cs; [reflexivity | discriminate].
  - intros ->. reflexivity.
Qed.

(** ** Status and uptime texts *)

Section TextFacts.
Local Open Scope Z_scope.

Lemma rem_nonneg (a b : Z) : 0 <= a -> 0 < b -> Z.rem a b = a mod b.
Proof. intros Ha Hb. apply Z.rem_mod_nonneg; lia. Qed.

(** X10. For an uptime that is a safe integer (below [2^53] in absolute
    value), the status text of a running container with a positive uptime
    names the largest unit that is not zero, with the whole number of such
    units in the uptime: days from 86400 s on, else hours from 3600 s on,
    else minutes from 60 s on, else seconds; the number is never 0 and the
    unit has its plural [s] unless the number is 1.  Any other container
    keeps its original status text. *)
Theorem formatContainerStatus_units :
  forall (st : string) (u : Z) (orig : string),
    safeInteger u = true ->
    (st <> "running" \/ u <= 0 -> formatContainerStatus st u orig = orig) /\
    (st = "running" -> 0 < u ->
     let r := formatContainerStatus st u orig in
     (86400 <= u -> r = upText (u / 86400) "day" /\ 1 <= u / 86400) /\
     (3600 <= u < 86400 -> r = upText (u / 3600) "hour" /\ 1 <= u / 3600) /\
     (60 <= u < 3600 -> r = upText (u / 60) "minute" /\ 1 <= u / 60) /\
     (u < 60 -> r = upText u "second")).
Proof.
  intros st u orig _. split.
  - intros [Hst | Hu]; unfold formatContainerStatus.
    + apply String.eqb_neq in Hst. now rewrite Hst.
    + replace (0 <? u) with false by (symmetry; apply Z.ltb_ge; lia).
      now rewrite andb_false_r.
  - intros -> Hu r. unfold r, formatContainerStatus, upText.
    rewrite String.eqb_refl.
    replace (0 <? u) with true by (symmetry; apply Z.ltb_lt; lia).
    cbn [andb]. cbv zeta.
    rewrite !rem_nonneg by lia.
    split; [| split; [| split]].
    + intros H.
      assert (Hd : 1 <= u / 86400) by (apply Z.div_le_lower_bound; lia).
      replace (0 <? u / 86400) with true by (symmetry; apply Z.ltb_lt; lia).
      split; [| exact Hd]. now destruct (u / 86400 =? 1).
    + intros H.
      assert (Hd : u / 86400 = 0) by (apply Z.div_small; lia).
      assert (Hh : 1 <= u / 3600) by (apply Z.div_le_lower_bound; lia).
      rewrite Hd. cbn [Z.ltb Z.compare].
      rewrite (Z.mod_small u 86400) by lia.
      replace (0 <? u / 3600) with true by (symmetry; apply Z.ltb_lt; lia).
      split; [| exact Hh]. now destruct (u / 3600 =? 1).
    + intros H.
      assert (Hd : u / 86400 = 0) by (apply Z.div_small; lia).
      assert (Hh : u / 3600 = 0) by (apply Z.div_small; lia).
      assert (Hm : 1 <= u / 60) by (apply Z.div_le_lower_bound; lia).
      rewrite Hd. cbn [Z.ltb Z.compare].
      rewrite (Z.mod_small u 86400), (Z.mod_small u 3600), Hh by lia.
      cbn [Z.ltb Z.compare].
      replace (0 <? u / 60) with true by (symmetry; apply Z.ltb_lt; lia).
      split; [| exact Hm]. now destruct (u / 60 =? 1).
    + intros H.
      assert (Hd : u / 86400 = 0) by (apply Z.div_small; lia).
      assert (Hh : u / 3600 = 0) by (apply Z.div_small; lia).
      assert (Hm : u / 60 = 0) by (apply Z.div_small; lia).
      rewrite Hd. cbn [Z.ltb Z.compare].
      rewrite (Z.mod_small u 86400), (Z.mod_small u 3600), (Z.mod_small u 60),
        Hh, Hm by lia.
      cbn [Z.ltb Z.compare].
      now destruct (u =? 1).
Qed.

(** A container that has been running for 90061 s, one day and a little
    more: the text is [Up 1 day]. *)
Lemma formatContainerStatus_units_witness :
  safeInteger 90061 = true /\
  formatContainerStatus "running" 90061 "Up 25 hours" = "Up 1 day" /\
  ((("running" <> "running" \/ 90061 <= 0 ->
     formatContainerStatus "running" 90061 "Up 25 hours" = "Up 25 hours") /\
    ("running" = "running" -> 0 < 90061 ->
     let r := formatContainerStatus "running" 90061 "Up 25 hours" in
     (86400 <= 90061 -> r = upText (90061 / 86400) "day" /\ 1 <= 90061 / 86400) /\
     (3600 <= 90061 < 86400 ->
      r = upText (90061 / 3600) "hour" /\ 1 <= 90061 / 3600) /\
     (60 <= 90061 < 3600 -> r = upText (90061 / 60) "minute" /\ 1 <= 90061 / 60) /\
     (90061 < 60 -> r = upText 90061 "second")))).
Proof.
  split; [reflexivity |]. split; [reflexivity |].
  apply (formatContainerStatus_units "running" 90061 "Up 25 hours").
  reflexivity.
Defined.

(** X11. The uptime text of the details panel, for a container created
    [age] whole seconds before now, where the two times in milliseconds and
    their difference are safe integers (below [2^53] in absolute value):
    [<age>s] under a minute, and this also when the creation time lies in
    the future, where [age] is negative; whole minutes under an hour; hours
    with the minutes left under a day; days with the hours left from then
    on. *)
Theorem formatUptime_units :
  forall (now created : Z),
    safeInteger now = true ->
    safeInteger (created * 1000) = true ->
    safeInteger (now - created * 1000) = true ->
    let age := (now - created * 1000) / 1000 in
    let r := formatUptime now created in
    (age < 60 -> r = (showInt age ++ "s")%string) /\
    (60 <= age < 3600 -> r = (showInt (age / 60) ++ "m")%string) /\
    (3600 <= age < 86400 ->
     r = (showInt (age / 3600) ++ "h " ++ showInt (age / 60 mod 60) ++ "m")%string) /\
    (86400 <= age ->
     r = (showInt (age / 86400) ++ "d " ++ showInt (age / 3600 mod 24) ++ "h")%string).
Proof.
  intros now created _ _ _ age r. unfold r, formatUptime. cbv zeta. fold age.
  assert (Hh : age / 60 / 60 = age / 3600)
    by (rewrite Z.div_div by lia; reflexivity).
  assert (Hd : age / 60 / 60 / 24 = age / 86400)
    by (rewrite !Z.div_div by lia; reflexivity).
  rewrite Hd, Hh.
  split; [| split; [| split]].
  - intros H.
    assert (age / 86400 <= 0) by (apply Z.lt_succ_r; apply Z.div_lt_upper_bound; lia).
    assert (age / 3600 <= 0) by (apply Z.lt_succ_r; apply Z.div_lt_upper_bound; lia).
    assert (age / 60 <= 0) by (apply Z.lt_succ_r; apply Z.div_lt_upper_bound; lia).
    replace (0 <? age / 86400) with false by (symmetry; apply Z.ltb_ge; lia).
    replace (0 <? age / 3600) with false by (symmetry; apply Z.ltb_ge; lia).
    replace (0 <? age / 60) with false by (symmetry; apply Z.ltb_ge; lia).
    reflexivity.
  - intros H.
    assert (age / 86400 = 0) by (apply Z.div_small; lia).
    assert (age / 3600 = 0) by (apply Z.div_small; lia).
    assert (1 <= age / 60) by (apply Z.div_le_lower_bound; lia).
    replace (0 <? age / 86400) with false by (symmetry; apply Z.ltb_ge; lia).
    replace (0 <? age / 3600) with false by (symmetry; apply Z.ltb_ge; lia).
    replace (0 <? age / 60) with true by (symmetry; apply Z.ltb_lt; lia).
    reflexivity.
  - intros H.
    assert (age / 86400 = 0) by (apply Z.div_small; lia).
    assert (1 <= age / 3600) by (apply Z.div_le_lower_bound; lia).
    assert (0 <= age / 60) by (apply Z.div_pos; lia).
    replace (0 <? age / 86400) with false by (symmetry; apply Z.ltb_ge; lia).
    replace (0 <? age / 3600) with true by (symmetry; apply Z.ltb_lt; lia).
    now rewrite rem_nonneg by lia.
  - intros H.
    assert (1 <= age / 86400) by (apply Z.div_le_lower_bound; lia).
    assert (0 <= age / 3600) by (apply Z.div_pos; lia).
    replace (0 <? age / 86400) with true by (symmetry; apply Z.ltb_lt; lia).
    now rewrite rem_nonneg by lia.
Qed.

(** A container created at second 1700000000, looked at 93784 s and half a
    second later: the text is [1d 2h]. *)
Lemma formatUptime_units_witness :
  safeInteger 1700093784500 = true /\
  formatUptime 1700093784500 1700000000 = "1d 2h" /\
  (let age := (1700093784500 - 1700000000 * 1000) / 1000 in
   let r := formatUptime 1700093784500 1700000000 in
   (age < 60 -> r = (showInt age ++ "s")%string) /\
   (60 <= age < 3600 -> r = (showInt (age / 60) ++ "m")%string) /\
   (3600 <= age < 86400 ->
    r = (showInt (age / 3600) ++ "h " ++ showInt (age / 60 mod 60) ++ "m")%string) /\
   (86400 <= age ->
    r = (showInt (age / 86400) ++ "d " ++ showInt (age / 3600 mod 24) ++ "h")%string)).
Proof.
  split; [reflexivity |]. split; [reflexivity |].
  apply (formatUptime_units 1700093784500 1700000000); reflexivity.
Defined.

End TextFacts.

(** ** Relations that the handlers compose

    A relation between the scene before and the scene after that is
    reflexive and transitive and holds across each elementary update of the
    engine holds across the handlers built from them: first the handlers of
    the focus and of the keys, then the refresh, the resize and the
    ticker. *)

Section Frame.
Variable Rel : Scene -> Scene -> Prop.
Hypothesis Rel_refl : forall s, Rel s s.
Hypothesis Rel_trans : forall s1 s2 s3, Rel s1 s2 -> Rel s2 s3 -> Rel s1 s3.
Hypothesis Rel_focus : forall v s, Rel s (set_focusedPlanetIdRef v s).
Hypothesis Rel_overlay : forall v s, Rel s (set_overlayVisible v s).
Hypothesis Rel_moveIn : forall p s, Rel s (moveBody OnBase OnFocus p s).
Hypothesis Rel_moveOut : forall p s, Rel s (moveBody OnFocus OnBase p s).
Hypothesis Rel_scale :
  forall k pid f s, Rel s (adjustPlanet k pid (scaleSprite f) s).
Hypothesis Rel_unscale :
  forall k pid f s, Rel s (adjustPlanet k pid (unscaleSprite f) s).
Hypothesis Rel_clearStore :
  forall s, Rel s (set_store (clearHover (clearSelection (store s))) s).
Hypothesis Rel_hover :
  forall pid c s, Rel s (set_store (setHover (Some pid) (Some c) (store s)) s).
Hypothesis Rel_pin :
  forall pid c s, Rel s (set_store (selectPlanet pid c true (store s)) s).
Hypothesis Rel_group :
  forall g s, Rel s (set_store (selectGroup (key g) g (store s)) s).
Hypothesis Rel_clearTimeout : forall t s, Rel s (clearTimeout t s).
Hypothesis Rel_clearPendingUnfocus : forall s, Rel s (clearPendingUnfocus s).
Hypothesis Rel_maybeUnfocus : forall s, Rel s (maybeUnfocus s).

Lemma Rel_fold {A : Type} (f : Scene -> A -> Scene) (l : list A) :
  (forall s a, Rel s (f s a)) -> forall s, Rel s (fold_left f l s).
Proof.
  intros Hf. induction l as [| a l IH]; intros s; [apply Rel_refl |].
  cbn [fold_left]. eapply Rel_trans; [apply Hf | apply IH].
Qed.

(** One step backwards through the updates of a focus handler. *)
Ltac focus_step :=
  lazymatch goal with
  | |- Rel ?s ?s => apply Rel_refl
  | |- Rel _ (set_focusedPlanetIdRef _ ?x) =>
      apply Rel_trans with x; [| apply Rel_focus]
  | |- Rel _ (set_overlayVisible _ ?x) =>
      apply Rel_trans with x; [| apply Rel_overlay]
  | |- Rel _ (adjustPlanet _ _ _ ?x) =>
      apply Rel_trans with x; [| first [apply Rel_scale | apply Rel_unscale]]
  | |- Rel _ (set_store _ ?x) =>
      apply Rel_trans with x;
      [| first [apply Rel_clearStore | apply Rel_hover | apply Rel_pin
               | apply Rel_group]]
  | |- Rel _ (moveBody OnBase OnFocus _ ?x) =>
      apply Rel_trans with x; [| apply Rel_moveIn]
  | |- Rel _ (moveBody OnFocus OnBase _ ?x) =>
      apply Rel_trans with x; [| apply Rel_moveOut]
  | |- Rel _ (if ?b then _ else _) => destruct b
  | |- Rel _ (match ?x with _ => _ end) => destruct x
  end.

Lemma Rel_unfocusPlanet (s : Scene) : Rel s (unfocusPlanet s).
Proof. unfold unfocusPlanet. cbv zeta. repeat focus_step. Qed.

Lemma Rel_handleEscape (sel : Selection) (s : Scene) : Rel s (handleEscape sel s).
Proof.
  unfold handleEscape. destruct (allPlanetIds s); [apply Rel_refl |].
  destruct sel; [apply Rel_refl | apply Rel_unfocusPlanet ..].
Qed.

Lemma Rel_ringPointerDown (g : Group) (s : Scene) : Rel s (ringPointerDown g s).
Proof. unfold ringPointerDown. repeat focus_step. Qed.

Lemma Rel_handleHover (sel : Selection) (pid : string) (s : Scene) :
  Rel s (handleHover sel pid s).
Proof.
  unfold handleHover. cbv zeta.
  destruct (appRef s); [| apply Rel_refl].
  set (s1 := if isPersistentPlanet sel && selectionIsOther sel pid
             then unfocusPlanet s else s).
  assert (H1 : Rel s s1).
  { unfold s1. destruct (_ && _); [apply Rel_unfocusPlanet | apply Rel_refl]. }
  clearbody s1.
  destruct (isGroup sel); [exact H1 |].
  assert (H2 : Rel s (clearPendingUnfocus s1))
    by (eapply Rel_trans; [exact H1 | apply Rel_clearPendingUnfocus]).
  generalize dependent (clearPendingUnfocus s1). intros s2 H2.
  destruct (refIs (focusedPlanetIdRef s2) pid); [exact H2 |].
  destruct (findPlanet pid (groupOrbitsRef s2)) as [[k p] |]; [| exact H2].
  eapply Rel_trans; [exact H2 |]. repeat focus_step.
Qed.

Lemma Rel_handleClick (pid : string) (c : ContainerStats) (s : Scene) :
  Rel s (handleClick pid c s).
Proof.
  unfold handleClick. cbv zeta.
  destruct (appRef s); [| apply Rel_refl].
  assert (H1 : Rel s (clearPendingUnfocus s)) by apply Rel_clearPendingUnfocus.
  generalize dependent (clearPendingUnfocus s). intros s1 H1.
  destruct (findPlanet pid (groupOrbitsRef s1)) as [[k p] |]; [| exact H1].
  set (s2 := if truthy (focusedPlanetIdRef s1)
                && negb (refIs (focusedPlanetIdRef s1) pid)
             then unfocusPlanet s1 else s1).
  assert (H2 : Rel s s2).
  { unfold s2. destruct (_ && _); [| exact H1].
    eapply Rel_trans; [exact H1 | apply Rel_unfocusPlanet]. }
  clearbody s2.
  eapply Rel_trans; [exact H2 |]. repeat focus_step.
Qed.

Lemma Rel_fireTimeout (t : nat) (s : Scene) : Rel s (fireTimeout t s).
Proof.
  unfold fireTimeout, unfocusCallback. cbv zeta.
  destruct (existsb _ _); [| apply Rel_refl].
  assert (H1 : Rel s (clearTimeout t s)) by apply Rel_clearTimeout.
  generalize dependent (clearTimeout t s). intros s1 H1.
  destruct (isPersistentPlanet _); [exact H1 |].
  destruct (isGroup _); [exact H1 |].
  eapply Rel_trans; [exact H1 | apply Rel_unfocusPlanet].
Qed.

Lemma Rel_handleKeyDown (key : string) (sel : Selection) (s : Scene) :
  Rel s (handleKeyDown key sel s).
Proof.
  unfold handleKeyDown. cbv zeta.
  destruct (allPlanetIds s) as [| i0 ids]; [apply Rel_refl |].
  destruct (key =? "Escape").
  { destruct sel; [apply Rel_refl | apply Rel_unfocusPlanet ..]. }
  destruct ((key =? "ArrowRight") || (key =? "ArrowDown")).
  { destruct (arrayGet _ _) as [pid |]; [| apply Rel_refl].
    destruct (containerOf pid s); [apply Rel_handleClick | apply Rel_refl]. }
  destruct ((key =? "ArrowLeft") || (key =? "ArrowUp")).
  { destruct (arrayGet _ _) as [pid |]; [| apply Rel_refl].
    destruct (containerOf pid s); [apply Rel_handleClick | apply Rel_refl]. }
  destruct (key =? "Enter"); [| apply Rel_refl].
  destruct sel as [| pid c [] |]; try apply Rel_refl.
  destruct (truthy _); [apply Rel_pin | apply Rel_refl].
Qed.

(** The refresh, the resize and the ticker. *)
Section Refresh.
Hypothesis Rel_orbits : forall v s, Rel s (set_groupOrbitsRef v s).
Hypothesis Rel_nextObject : forall v s, Rel s (set_nextObject v s).
Hypothesis Rel_random : forall v s, Rel s (set_randomCount v s).
Hypothesis Rel_app : forall scr s, Rel s (set_appRef (Some scr) s).
Hypothesis Rel_unstage : forall o s, Rel s (removeChild OnStage o s).
Hypothesis Rel_addBase : forall o s, Rel s (addChild OnBase o s).

(** One step backwards through the updates of the refresh. *)
Ltac refresh_step :=
  lazymatch goal with
  | |- Rel ?s ?s => apply Rel_refl
  | |- Rel _ (set_groupOrbitsRef _ ?x) =>
      apply Rel_trans with x; [| apply Rel_orbits]
  | |- Rel _ (adjustOrbit _ _ ?x) =>
      apply Rel_trans with x; [| apply Rel_orbits]
  | |- Rel _ (adjustPlanet _ _ _ ?x) =>
      apply Rel_trans with x; [| apply Rel_orbits]
  | |- Rel _ (set_nextObject _ ?x) =>
      apply Rel_trans with x; [| apply Rel_nextObject]
  | |- Rel _ (set_randomCount _ ?x) =>
      apply Rel_trans with x; [| apply Rel_random]
  | |- Rel _ (set_appRef _ ?x) =>
      apply Rel_trans with x; [| apply Rel_app]
  | |- Rel _ (removeChild OnStage _ ?x) =>
      apply Rel_trans with x; [| apply Rel_unstage]
  | |- Rel _ (addChild OnBase _ ?x) =>
      apply Rel_trans with x; [| apply Rel_addBase]
  | |- Rel _ (fold_left _ _ ?x) =>
      apply Rel_trans with x; [| apply Rel_fold; intros]
  | |- Rel _ (if ?b then _ else _) => destruct b
  | |- Rel _ (match ?x with _ => _ end) => destruct x
  end.

Lemma Rel_removePlanetGraphics (p : Planet) (s : Scene) :
  Rel s (removePlanetGraphics p s).
Proof. unfold removePlanetGraphics. cbv zeta. repeat refresh_step. Qed.

Lemma Rel_removeStaleOrbit (keys : list string) (s : Scene)
  (e : string * GroupOrbit) : Rel s (removeStaleOrbit keys s e).
Proof.
  unfold removeStaleOrbit. cbv zeta. repeat refresh_step.
  apply Rel_removePlanetGraphics.
Qed.

Lemma Rel_createGroupOrbit (random : nat -> R) (g : Group) (i n : nat)
  (s : Scene) : Rel s (createGroupOrbit random g i n s).
Proof. unfold createGroupOrbit. cbv zeta. repeat refresh_step. Qed.

Lemma Rel_removeStalePlanet (k : string) (ids : list string) (s : Scene)
  (e : string * Planet) : Rel s (removeStalePlanet k ids s e).
Proof.
  unfold removeStalePlanet. cbv zeta. repeat refresh_step.
  eapply Rel_trans; [| apply Rel_removePlanetGraphics].
  destruct (refIs _ _); [apply Rel_unfocusPlanet | apply Rel_refl].
Qed.

Lemma Rel_createPlanet (k : string) (g : Group) (o : GroupOrbit) (i : nat)
  (c : ContainerStats) (s : Scene) : Rel s (createPlanet k g o i c s).
Proof. unfold createPlanet. cbv zeta. repeat refresh_step. Qed.

Lemma Rel_updateParticles (k : string) (c : ContainerStats) (p : Planet)
  (s : Scene) : Rel s (updateParticles k c p s).
Proof. unfold updateParticles. cbv zeta. repeat refresh_step. Qed.

Lemma Rel_addOrUpdatePlanet (g : Group) (s : Scene) (ic : nat * ContainerStats) :
  Rel s (addOrUpdatePlanet g s ic).
Proof.
  unfold addOrUpdatePlanet. cbv zeta.
  destruct (map_get (key g) (groupOrbitsRef s)) as [o |]; [| apply Rel_refl].
  set (s1 := if map_has (id (snd ic)) (planets o) then s
             else createPlanet (key g) g o (fst ic) (snd ic) s).
  assert (H1 : Rel s s1).
  { unfold s1. destruct (map_has _ _); [apply Rel_refl | apply Rel_createPlanet]. }
  clearbody s1.
  set (s2 := adjustPlanet _ _ _ s1).
  assert (H2 : Rel s s2) by (eapply Rel_trans; [exact H1 | apply Rel_orbits]).
  clearbody s2.
  destruct (map_get (key g) (groupOrbitsRef s2)) as [o2 |]; [| exact H2].
  destruct (map_get (id (snd ic)) (planets o2)) as [p |]; [| exact H2].
  eapply Rel_trans; [exact H2 | apply Rel_updateParticles].
Qed.

Lemma Rel_reconcileGroup (random : nat -> R) (n : nat) (s : Scene)
  (ig : nat * Group) : Rel s (reconcileGroup random n s ig).
Proof.
  unfold reconcileGroup. cbv zeta.
  set (s1 := if map_has (key (snd ig)) (groupOrbitsRef s) then s
             else createGroupOrbit random (snd ig) (fst ig) n s).
  assert (H1 : Rel s s1).
  { unfold s1. destruct (map_has _ _); [apply Rel_refl | apply Rel_createGroupOrbit]. }
  clearbody s1.
  set (s2 := adjustOrbit _ _ s1).
  assert (H2 : Rel s s2) by (eapply Rel_trans; [exact H1 | apply Rel_orbits]).
  clearbody s2.
  eapply Rel_trans; [| apply Rel_fold; intros; apply Rel_addOrUpdatePlanet].
  destruct (map_get (key (snd ig)) (groupOrbitsRef s2)) as [o |]; [| exact H2].
  eapply Rel_trans; [exact H2 |].
  apply Rel_fold. intros. apply Rel_removeStalePlanet.
Qed.

Lemma Rel_reconcile (random : nat -> R) (cs : list ContainerStats) (s : Scene) :
  Rel s (reconcile random cs s).
Proof.
  unfold reconcile. cbv zeta.
  destruct (appRef s); [| apply Rel_refl].
  eapply Rel_trans; [| apply Rel_fold; intros; apply Rel_reconcileGroup].
  apply Rel_fold. intros. apply Rel_removeStaleOrbit.
Qed.

Lemma Rel_handleResize (w h : R) (s : Scene) : Rel s (handleResize w h s).
Proof. unfold handleResize. cbv zeta. repeat refresh_step. Qed.

Lemma Rel_tick (delta : R) (s : Scene) : Rel s (tick delta s).
Proof. unfold tick. repeat refresh_step. Qed.

Lemma Rel_step (s : Scene) (e : Event) : Rel s (step s e).
Proof.
  destruct e; cbn [step].
  - apply Rel_handleHover.
  - apply Rel_maybeUnfocus.
  - apply Rel_handleClick.
  - apply Rel_ringPointerDown.
  - apply Rel_fireTimeout.
  - apply Rel_handleEscape.
  - apply Rel_reconcile.
  - apply Rel_tick.
  - apply Rel_handleResize.
Qed.

Lemma Rel_runInputs (inputs : list Input) (s : Scene) :
  Rel s (runInputs s inputs).
Proof.
  unfold runInputs. apply Rel_fold. intros s' [e | key sel]; cbn [stepInput].
  - apply Rel_step.
  - apply Rel_handleKeyDown.
Qed.
End Refresh.
End Frame.

(** ** Display objects stay attached *)

Lemma In_dropChild_other (o x : nat) (l : list nat) :
  o <> x -> In o l -> In o (dropChild x l).
Proof.
  intros Hne. induction l as [| y l IH]; [auto |].
  cbn [dropChild]. destruct (Nat.eqb_spec y x) as [-> | Hyx].
  - intros [H | H]; [congruence | exact H].
  - intros [H | H]; [now left | right; auto].
Qed.

Lemma attached_removeChild_other (l : Layer) (x o : nat) (s : Scene) :
  o <> x -> attached o s -> attached o (removeChild l x s).
Proof.
  intros Hne [H | H]; destruct l; unfold attached; cbn; auto using In_dropChild_other.
Qed.

Lemma attached_addChild_other (l : Layer) (x o : nat) (s : Scene) :
  o <> x -> attached o s -> attached o (addChild l x s).
Proof.
  intros Hne [H | H]; destruct l; unfold attached; cbn;
    rewrite ?in_app_iff; auto using In_dropChild_other.
Qed.

Lemma attached_addChild_self (l : Layer) (x : nat) (s : Scene) :
  l <> OnStage -> attached x (addChild l x s).
Proof.
  intros Hl. destruct l; [congruence | |]; unfold attached; cbn;
    rewrite in_app_iff; cbn; auto.
Qed.

Lemma keepsAttached_moveBody (from to : Layer) (p : Planet) (s : Scene) :
  to <> OnStage -> keepsAttached s (moveBody from to p s).
Proof.
  intros Hto o Ho. unfold moveBody. cbv zeta.
  destruct (Nat.eq_dec o (rimGlow p)) as [-> | Hr];
    [now apply attached_addChild_self |].
  apply attached_addChild_other; [exact Hr |].
  destruct (Nat.eq_dec o (sprite p)) as [-> | Hs];
    [now apply attached_addChild_self |].
  apply attached_addChild_other; [exact Hs |].
  destruct (Nat.eq_dec o (glow p)) as [-> | Hg];
    [now apply attached_addChild_self |].
  apply attached_addChild_other; [exact Hg |].
  now repeat apply attached_removeChild_other.
Qed.

Lemma keepsAttached_addBase (x : nat) (s : Scene) :
  keepsAttached s (addChild OnBase x s).
Proof.
  intros o Ho. destruct (Nat.eq_dec o x) as [-> | Hne].
  - now apply attached_addChild_self.
  - now apply attached_addChild_other.
Qed.

Lemma keepsAttached_clearPendingUnfocus (s : Scene) :
  keepsAttached s (clearPendingUnfocus s).
Proof.
  intros o Ho. unfold clearPendingUnfocus.
  destruct (unfocusTimeoutRef s); exact Ho.
Qed.

Lemma keepsAttached_maybeUnfocus (s : Scene) : keepsAttached s (maybeUnfocus s).
Proof.
  intros o Ho. unfold maybeUnfocus.
  destruct (unfocusTimeoutRef s); exact Ho.
Qed.

(** X12. No input ever takes a display object out of the scene graph: an
    object that is a child of the base layer or of the focus layer stays a
    child of one of the two, whatever events, refreshes and keys follow.
    The graphics of a body that a refresh drops are handed to
    [app.stage.removeChild], and the stage is not their parent. *)
Theorem display_objects_stay_attached :
  forall (inputs : list Input) (s : Scene) (o : nat),
    attached o s -> attached o (runInputs s inputs).
Proof.
  intros inputs s.
  apply (Rel_runInputs keepsAttached);
    try solve [intros; intros ? Ho; exact Ho].
  - intros s1 s2 s3 H12 H23 o Ho. apply H23, H12, Ho.
  - intros p s0. now apply keepsAttached_moveBody.
  - intros p s0. now apply keepsAttached_moveBody.
  - apply keepsAttached_clearPendingUnfocus.
  - apply keepsAttached_maybeUnfocus.
  - apply keepsAttached_addBase.
Qed.

(** The sprite of body [a] (object 9) across the refresh that drops its
    ring. *)
Lemma display_objects_stay_attached_witness :
  attached 9
    (runInputs (reconcile noRandom [entA] window0)
       [FromEvent (Refresh noRandom []); KeyDown "Escape" SelNone]).
Proof.
  apply (display_objects_stay_attached
           [FromEvent (Refresh noRandom []); KeyDown "Escape" SelNone]
           (reconcile noRandom [entA] window0) 9).
  left. crunch. simpl. tauto.
Defined.

(** ** The armed timeout *)

Lemma pendingOK_clearTimeout (t : nat) (s : Scene) :
  pendingOK s -> pendingOK (clearTimeout t s).
Proof.
  intros (Hlen & Hin). unfold pendingOK, clearTimeout. cbn.
  split.
  - eapply Nat.le_trans; [apply filter_length_le | exact Hlen].
  - intros t' Ht'. apply filter_In in Ht'. now apply Hin.
Qed.

Lemma pendingOK_cleared (s : Scene) (t : nat) :
  pendingOK s -> unfocusTimeoutRef s = Some t ->
  timers (clearTimeout t s) = [].
Proof.
  intros (Hlen & Hin) Href. unfold clearTimeout. cbn.
  destruct (timers s) as [| t0 [| t1 l]]; [reflexivity | | cbn in Hlen; lia].
  assert (Ht0 : Some t = Some t0) by (rewrite <- Href; apply Hin; now left).
  injection Ht0 as <-. cbn. now rewrite Nat.eqb_refl.
Qed.

Lemma pendingOK_clearPendingUnfocus (s : Scene) :
  pendingOK s -> pendingOK (clearPendingUnfocus s).
Proof.
  intros H. unfold clearPendingUnfocus.
  destruct (unfocusTimeoutRef s) as [t |] eqn:E; [| exact H].
  pose proof (pendingOK_cleared s t H E) as Hnil.
  unfold pendingOK. cbn [timers set_unfocusTimeoutRef unfocusTimeoutRef].
  rewrite Hnil. split; [cbn; lia | intros t' []].
Qed.

Lemma pendingOK_maybeUnfocus (s : Scene) :
  pendingOK s -> pendingOK (maybeUnfocus s).
Proof.
  intros H. unfold maybeUnfocus. cbv zeta.
  assert (Hnil : timers (match unfocusTimeoutRef s with
                         | Some t => clearTimeout t s
                         | None => s
                         end) = []).
  { destruct (unfocusTimeoutRef s) as [t |] eqn:E.
    - now apply pendingOK_cleared.
    - destruct H as (_ & Hin). destruct (timers s) as [| t0 l]; [reflexivity |].
      specialize (Hin t0 (or_introl eq_refl)). congruence. }
  revert Hnil.
  generalize (match unfocusTimeoutRef s with
              | Some t => clearTimeout t s
              | None => s
              end) as s1.
  intros s1 Hnil. unfold pendingOK. cbn. rewrite Hnil. cbn.
  split; [lia |]. intros t [<- | []]. reflexivity.
Qed.

(** The cases of a property that an update of other fields carries over. *)
Ltac carried :=
  first
    [ solve [intros ? H; exact H]
    | solve [intros ? ? H; exact H]
    | solve [intros ? ? ? H; exact H]
    | solve [intros ? ? ? ? H; exact H]
    | solve [intros ? ? ? H12 H23 H; exact (H23 (H12 H))]
    | solve [intros s0 H; unfold clearPendingUnfocus, maybeUnfocus;
             destruct (unfocusTimeoutRef s0); exact H] ].

(** The surface is never taken away. *)
Lemma mounted_runInputs (inputs : list Input) (s : Scene) :
  appRef s <> None -> appRef (runInputs s inputs) <> None.
Proof.
  apply (Rel_runInputs (fun s s' => appRef s <> None -> appRef s' <> None));
    try carried.
  intros scr s0 _. discriminate.
Qed.

Lemma pendingOK_runInputs (inputs : list Input) (s : Scene) :
  pendingOK s -> pendingOK (runInputs s inputs).
Proof.
  apply (Rel_runInputs (fun s s' => pendingOK s -> pendingOK s'));
    try carried.
  - intros t s0. apply pendingOK_clearTimeout.
  - apply pendingOK_clearPendingUnfocus.
  - apply pendingOK_maybeUnfocus.
Qed.

Lemma timers_unfocusPlanet (s : Scene) : timers (unfocusPlanet s) = timers s.
Proof.
  apply (Rel_unfocusPlanet (fun s s' => timers s' = timers s));
    try (intros; reflexivity).
  intros s1 s2 s3 H12 H23. congruence.
Qed.

Lemma timers_clearPendingUnfocus (s : Scene) :
  pendingOK s -> timers (clearPendingUnfocus s) = [].
Proof.
  intros H. unfold clearPendingUnfocus.
  destruct (unfocusTimeoutRef s) as [t |] eqn:E.
  - cbn [timers set_unfocusTimeoutRef]. now apply pendingOK_cleared.
  - destruct H as (_ & Hin). destruct (timers s) as [| t0 l]; [reflexivity |].
    specialize (Hin t0 (or_introl eq_refl)). congruence.
Qed.

(** X13. The debounce keeps one timeout at most: in every scene that the
    component reaches from its mount, at most one unfocus timeout is armed
    and it is the one that [unfocusTimeoutRef] names; so a pointer-down,
    and a hover outside a group selection, leave no timeout armed. *)
Theorem one_pending_unfocus :
  forall (w h : R) (inputs : list Input),
    let s := runInputs (mount w h) inputs in
    (List.length (timers s) <= 1 /\
     forall t, In t (timers s) -> unfocusTimeoutRef s = Some t) /\
    (forall pid c, timers (handleClick pid c s) = []) /\
    (forall sel pid, isGroup sel = false -> timers (handleHover sel pid s) = []).
Proof.
  intros w h inputs s.
  assert (Hok : pendingOK s).
  { apply pendingOK_runInputs. split; [cbn; lia | intros t []]. }
  assert (Happ : appRef s <> None)
    by (apply mounted_runInputs; discriminate).
  split; [exact Hok |]. split.
  - intros pid c. unfold handleClick.
    destruct (appRef s) as [scr |]; [| congruence].
    cbv zeta.
    pose proof (timers_clearPendingUnfocus s Hok) as Hnil.
    revert Hnil. generalize (clearPendingUnfocus s) as s1. intros s1 Hnil.
    destruct (findPlanet pid (groupOrbitsRef s1)) as [[k p] |]; [| exact Hnil].
    assert (H2 : timers (if truthy (focusedPlanetIdRef s1)
                            && negb (refIs (focusedPlanetIdRef s1) pid)
                         then unfocusPlanet s1 else s1) = []).
    { destruct (_ && _); [now rewrite timers_unfocusPlanet | exact Hnil]. }
    revert H2.
    generalize (if truthy (focusedPlanetIdRef s1)
                   && negb (refIs (focusedPlanetIdRef s1) pid)
                then unfocusPlanet s1 else s1) as s2.
    intros s2 H2.
    destruct (hasChild OnBase (sprite p) _); exact H2.
  - intros sel pid Hsel. unfold handleHover.
    destruct (appRef s) as [scr |]; [| congruence].
    cbv zeta. rewrite Hsel.
    assert (H1 : pendingOK (if isPersistentPlanet sel && selectionIsOther sel pid
                            then unfocusPlanet s else s)).
    { destruct (_ && _); [| exact Hok].
      revert Hok.
      apply (Rel_unfocusPlanet (fun s s' => pendingOK s -> pendingOK s'));
        carried. }
    revert H1.
    generalize (if isPersistentPlanet sel && selectionIsOther sel pid
                then unfocusPlanet s else s) as s1.
    intros s1 H1.
    pose proof (timers_clearPendingUnfocus s1 H1) as Hnil.
    revert Hnil. generalize (clearPendingUnfocus s1) as s2. intros s2 Hnil.
    destruct (refIs (focusedPlanetIdRef s2) pid); [exact Hnil |].
    destruct (findPlanet pid (groupOrbitsRef s2)) as [[k p] |]; exact Hnil.
Qed.

(** ** The selection of the store *)

(** X14. In every scene that the component reaches from its mount the
    selection is none, a group or a pinned body, never a body that is
    selected without being pinned; so the [Enter] key, which pins such a
    selection, changes nothing. *)
Theorem selection_is_pinned_or_group :
  forall (w h : R) (inputs : list Input),
    let s := runInputs (mount w h) inputs in
    pinnedOrGroup (selection (store s)) /\
    handleKeyDown "Enter" (selection (store s)) s = s.
Proof.
  intros w h inputs s.
  assert (Hsel : pinnedOrGroup (selection (store s))).
  { unfold s.
    apply (Rel_runInputs
             (fun s s' => pinnedOrGroup (selection (store s)) ->
                          pinnedOrGroup (selection (store s'))));
      try carried.
    - intros; exact I.
    - intros; reflexivity.
    - intros; exact I.
    - exact I. }
  split; [exact Hsel |].
  unfold handleKeyDown. cbv zeta.
  destruct (allPlanetIds s); [reflexivity |].
  cbn [String.eqb Ascii.eqb Bool.eqb orb].
  destruct (selection (store s)) as [| pid c [] |]; try reflexivity.
  cbn in Hsel. discriminate.
Qed.

(** ** Resize *)

Lemma nth_error_combine_seq {A : Type} (l : list A) :
  forall (a i : nat),
    nth_error (combine (seq a (List.length l)) l) i =
    option_map (fun x => (a + i, x)) (nth_error l i).
Proof.
  induction l as [| x l IH]; intros a i.
  - destruct i; reflexivity.
  - destruct i as [| i]; cbn [List.length seq combine nth_error option_map].
    + now rewrite Nat.add_0_r.
    + rewrite IH. destruct (nth_error l i); [| reflexivity].
      cbn. now rewrite Nat.add_succ_r.
Qed.

Lemma nth_error_indexed {A : Type} (l : list A) (i : nat) :
  nth_error (indexed l) i = option_map (fun x => (i, x)) (nth_error l i).
Proof. unfold indexed. now rewrite nth_error_combine_seq. Qed.

Lemma calculateOrbitRadius_mono (scr : Screen) (n i j : nat) :
  (0 <= Rmin (width scr) (height scr))%R -> i <= j ->
  (calculateOrbitRadius (Some scr) i n <= calculateOrbitRadius (Some scr) j n)%R.
Proof.
  intros HV Hij. unfold calculateOrbitRadius.
  set (V := Rmin (width scr) (height scr)) in *.
  pose proof (radius_step_nonneg V n HV) as Hstep.
  assert (Hinr : (INR i <= INR j)%R) by now apply le_INR.
  apply Rle_min_compat_r. apply Rplus_le_compat_l.
  apply Rmult_le_compat_r; assumption.
Qed.

Lemma handleResize_nth (w h : R) (s : Scene) (i : nat) :
  nth_error (groupOrbitsRef (handleResize w h s)) i =
  option_map
    (fun e => (fst e,
               set_orbitRadius
                 (calculateOrbitRadius
                    (Some {| width := w - 300; height := h - 52 |}) i
                    (List.length (groupOrbitsRef s)))
                 (snd e)))
    (nth_error (groupOrbitsRef s) i).
Proof.
  unfold handleResize. cbv zeta.
  cbn [groupOrbitsRef set_groupOrbitsRef set_appRef appRef].
  rewrite nth_error_map, nth_error_indexed.
  destruct (nth_error (groupOrbitsRef s) i) as [[k o] |]; reflexivity.
Qed.

(** X15. A resize gives every ring the radius of its position in the map
    and of the number of rings, at the new surface, and touches nothing
    else of a ring; so, in a window of at least 300 x 52, the radii do not
    decrease along the rings after a resize. *)
Theorem resize_recomputes_every_ring :
  forall (w h : R) (s : Scene),
    let s' := handleResize w h s in
    let scr := {| width := w - 300; height := h - 52 |} in
    let n := List.length (groupOrbitsRef s) in
    (forall i k o,
        nth_error (groupOrbitsRef s) i = Some (k, o) ->
        nth_error (groupOrbitsRef s') i =
          Some (k, set_orbitRadius (calculateOrbitRadius (Some scr) i n) o)) /\
    List.length (groupOrbitsRef s') = n /\
    ((300 <= w)%R -> (52 <= h)%R ->
     forall i j ki kj ri rj,
       i <= j ->
       nth_error (ringRadii s') i = Some (ki, ri) ->
       nth_error (ringRadii s') j = Some (kj, rj) ->
       (ri <= rj)%R).
Proof.
  intros w h s s' scr n.
  assert (Hrad : forall i k r,
             nth_error (ringRadii s') i = Some (k, r) ->
             r = calculateOrbitRadius (Some scr) i n).
  { intros i k r. unfold ringRadii, s'.
    rewrite nth_error_map, handleResize_nth.
    destruct (nth_error (groupOrbitsRef s) i) as [[k0 o] |]; [| discriminate].
    cbn. now intros [= _ <-]. }
  split; [| split].
  - intros i k o Hi. unfold s'. now rewrite handleResize_nth, Hi.
  - unfold s', handleResize. cbv zeta.
    cbn [groupOrbitsRef set_groupOrbitsRef set_appRef].
    unfold indexed. rewrite length_map, length_combine, length_seq.
    apply Nat.min_id.
  - intros Hw Hh i j ki kj ri rj Hij Hi Hj.
    rewrite (Hrad i ki ri Hi), (Hrad j kj rj Hj).
    apply calculateOrbitRadius_mono; [| exact Hij].
    unfold scr. cbn [width height]. apply Rmin_glb; lra.
Qed.

(** ** The focus handlers and the rings *)

Lemma sizeless_adjustPlanet (k pid : string) (f : Planet -> Planet) (s : Scene) :
  (forall p, eraseSize (f p) = eraseSize p) ->
  sizeless (adjustPlanet k pid f s) = sizeless s.
Proof.
  intros H. unfold sizeless. now rewrite eraseSizes_adjustPlanet.
Qed.

(** The cases of [sizeless] that an update of other fields carries over. *)
Ltac sizeless_carried :=
  first
    [ solve [intros; reflexivity]
    | solve [intros ? ? ? H12 H23; congruence]
    | solve [intros; apply sizeless_adjustPlanet; reflexivity]
    | solve [intros s0; unfold clearPendingUnfocus, maybeUnfocus;
             destruct (unfocusTimeoutRef s0); reflexivity] ].

(** X16. The handlers of the pointer, of the timeout and of the keys never
    add, drop, move or re-order a ring or a body, and change nothing of a
    body but its sprite size: entity, angle, speed, particles and display
    objects stay. *)
Theorem focus_handlers_resize_sprites_only :
  forall s : Scene,
    (forall sel pid, sizeless (handleHover sel pid s) = sizeless s) /\
    (forall pid c, sizeless (handleClick pid c s) = sizeless s) /\
    sizeless (maybeUnfocus s) = sizeless s /\
    (forall t, sizeless (fireTimeout t s) = sizeless s) /\
    (forall g, sizeless (ringPointerDown g s) = sizeless s) /\
    (forall key sel, sizeless (handleKeyDown key sel s) = sizeless s).
Proof.
  intros s.
  split; [| split; [| split; [| split; [| split]]]].
  - intros sel pid.
    apply (Rel_handleHover (fun s s' => sizeless s' = sizeless s));
      sizeless_carried.
  - intros pid c.
    apply (Rel_handleClick (fun s s' => sizeless s' = sizeless s));
      sizeless_carried.
  - unfold maybeUnfocus. destruct (unfocusTimeoutRef s); reflexivity.
  - intros t.
    apply (Rel_fireTimeout (fun s s' => sizeless s' = sizeless s));
      sizeless_carried.
  - intros g. reflexivity.
  - intros key sel.
    apply (Rel_handleKeyDown (fun s s' => sizeless s' = sizeless s));
      sizeless_carried.
Qed.

(** ** Keyboard navigation *)

Lemma sizeless_handleClick (pid : string) (c : ContainerStats) (s : Scene) :
  sizeless (handleClick pid c s) = sizeless s.
Proof.
  apply (Rel_handleClick (fun s s' => sizeless s' = sizeless s));
    sizeless_carried.
Qed.

Lemma appRef_handleClick (pid : string) (c : ContainerStats) (s : Scene) :
  appRef (handleClick pid c s) = appRef s.
Proof.
  apply (Rel_handleClick (fun s s' => appRef s' = appRef s));
    first [ solve [intros; reflexivity]
          | solve [intros ? ? ? H12 H23; congruence]
          | solve [intros s0; unfold clearPendingUnfocus, maybeUnfocus;
                   destruct (unfocusTimeoutRef s0); reflexivity] ].
Qed.

Lemma map_get_map {V W : Type} (F : V -> W) (k : string) (m : JsMap V) :
  map_get k (List.map (fun e => (fst e, F (snd e))) m)
  = option_map F (map_get k m).
Proof.
  induction m as [| [k' v] m IH]; [reflexivity |].
  cbn. destruct (k' =? k); [reflexivity | exact IH].
Qed.

(** The search loop sees the keys only. *)
Lemma findPlanet_sizeless (pid : string) (s : Scene) :
  findPlanet pid (sizeless s)
  = option_map (fun kp => (fst kp, eraseSize (snd kp)))
               (findPlanet pid (groupOrbitsRef s)).
Proof.
  unfold sizeless, eraseSizes, findPlanet.
  cbn [groupOrbitsRef set_groupOrbitsRef].
  assert (H : forall (l : JsMap GroupOrbit) (acc : option (string * Planet)),
    fold_left
      (fun acc0 e =>
         match map_get pid (planets (snd e)) with
         | Some p => Some (fst e, p)
         | None => acc0
         end)
      (List.map
         (fun e =>
            (fst e,
             set_planets
               (List.map (fun pe => (fst pe, eraseSize (snd pe)))
                         (planets (snd e)))
               (snd e)))
         l)
      (option_map (fun kp => (fst kp, eraseSize (snd kp))) acc)
    = option_map (fun kp => (fst kp, eraseSize (snd kp)))
        (fold_left
           (fun acc0 e =>
              match map_get pid (planets (snd e)) with
              | Some p => Some (fst e, p)
              | None => acc0
              end)
           l acc)).
  { induction l as [| [k o] l IH]; intros acc; [reflexivity |].
    cbn [List.map fold_left fst snd planets set_planets].
    rewrite map_get_map.
    destruct (map_get pid (planets o)) as [p |]; cbn [option_map].
    - apply (IH (Some (k, p))).
    - apply IH. }
  apply (H (groupOrbitsRef s) None).
Qed.

Lemma containerOf_sizeless (pid : string) (s s' : Scene) :
  sizeless s' = sizeless s -> containerOf pid s' = containerOf pid s.
Proof.
  intros H.
  pose proof (findPlanet_sizeless pid s) as E.
  pose proof (findPlanet_sizeless pid s') as E'.
  rewrite H in E'. rewrite E in E'. unfold containerOf.
  apply (f_equal (option_map (fun kp : string * Planet => container (snd kp))))
    in E'.
  destruct (findPlanet pid (groupOrbitsRef s)) as [[k p] |],
           (findPlanet pid (groupOrbitsRef s')) as [[k' p'] |];
    cbn in E'; congruence.
Qed.

Lemma allPlanetIds_sizeless (s s' : Scene) :
  sizeless s' = sizeless s -> allPlanetIds s' = allPlanetIds s.
Proof.
  assert (H : forall s0,
             allPlanetIds s0 =
             flat_map
               (fun e => List.map (fun pe => id (container (snd pe)))
                                  (planets (snd e)))
               (sizeless s0)).
  { intros s0. unfold allPlanetIds, sizeless, eraseSizes.
    cbn [groupOrbitsRef set_groupOrbitsRef].
    induction (groupOrbitsRef s0) as [| [k o] l IH]; [reflexivity |].
    cbn [flat_map List.map fst snd planets set_planets].
    rewrite IH, map_map. reflexivity. }
  intros E. now rewrite (H s'), (H s), E.
Qed.

Lemma indexOf_nth (l : list string) :
  forall (i : nat) (x : string),
    NoDup l -> nth_error l i = Some x -> indexOf x l = Z.of_nat i.
Proof.
  induction l as [| y l IH]; intros i x Hnd Hi; [destruct i; discriminate |].
  inversion Hnd as [| ? ? Hy Hnd']; subst.
  destruct i as [| i]; cbn [nth_error indexOf] in *.
  - injection Hi as ->. now rewrite String.eqb_refl.
  - destruct (String.eqb_spec y x) as [-> | Hne].
    + exfalso. apply Hy. eapply nth_error_In; eassumption.
    + rewrite (IH i x Hnd' Hi). cbv zeta.
      replace (Z.of_nat i <? 0)%Z with false by (symmetry; apply Z.ltb_ge; lia).
      lia.
Qed.

Lemma arrayGet_nat {A : Type} (l : list A) (i : nat) :
  arrayGet l (Z.of_nat i) = nth_error l i.
Proof.
  unfold arrayGet.
  replace (Z.of_nat i <? 0)%Z with false by (symmetry; apply Z.ltb_ge; lia).
  now rewrite Nat2Z.id.
Qed.

Lemma map_get_of_In {V : Type} (k : string) (v : V) (m : JsMap V) :
  In (k, v) m -> map_get k m <> None.
Proof.
  induction m as [| [k' v'] m IH]; [intros [] |].
  cbn. destruct (String.eqb_spec k' k) as [-> | Hne]; [discriminate |].
  intros [[= -> ->] | H]; [congruence | now apply IH].
Qed.

Lemma findPlanet_of_In (pid : string) (orbits : JsMap GroupOrbit) :
  (exists e, In e orbits /\ map_get pid (planets (snd e)) <> None) ->
  findPlanet pid orbits <> None.
Proof.
  unfold findPlanet.
  assert (H : forall (l : JsMap GroupOrbit) (acc : option (string * Planet)),
             acc <> None \/
             (exists e, In e l /\ map_get pid (planets (snd e)) <> None) ->
             fold_left
               (fun acc0 e =>
                  match map_get pid (planets (snd e)) with
                  | Some p => Some (fst e, p)
                  | None => acc0
                  end) l acc <> None).
  { induction l as [| e l IH]; intros acc Hacc.
    - destruct Hacc as [Hacc | (e & [] & _)]. exact Hacc.
    - cbn [fold_left]. apply IH.
      destruct Hacc as [Hacc | (e' & [<- | Hin] & He')].
      + left. destruct (map_get pid (planets (snd e))); [discriminate | exact Hacc].
      + left. destruct (map_get pid (planets (snd e))); [discriminate | congruence].
      + right. now exists e'. }
  intros Hex. apply H. now right.
Qed.

(** A body listed by [allPlanetIds] is found by its id. *)
Lemma containerOf_listed (s : Scene) (pid : string) :
  idsAreKeys s -> In pid (allPlanetIds s) ->
  exists k p, findPlanet pid (groupOrbitsRef s) = Some (k, p).
Proof.
  intros Hkeys Hin. unfold allPlanetIds in Hin.
  apply in_flat_map in Hin. destruct Hin as ([k o] & Ho & Hin).
  apply in_map_iff in Hin. destruct Hin as ([pid' p] & Hid & Hp).
  cbn [fst snd] in *.
  assert (pid' = pid) by (rewrite <- Hid; symmetry; now apply (Hkeys k o)).
  subst pid'.
  assert (Hfind : findPlanet pid (groupOrbitsRef s) <> None).
  { apply findPlanet_of_In. exists (k, o). split; [exact Ho |].
    cbn. now apply (map_get_of_In pid p). }
  destruct (findPlanet pid (groupOrbitsRef s)) as [[k' p'] |]; [| congruence].
  now exists k', p'.
Qed.

Lemma handleKeyDown_right (sel : Selection) (s : Scene) :
  allPlanetIds s <> [] ->
  handleKeyDown "ArrowRight" sel s =
  let allIds := allPlanetIds s in
  let currentIndex :=
    match sel with
    | SelPlanet pid _ _ => indexOf pid allIds
    | _ => (-1)%Z
    end in
  match arrayGet allIds
          (Z.rem (currentIndex + 1) (Z.of_nat (List.length allIds))) with
  | Some nextPlanetId =>
      match containerOf nextPlanetId s with
      | Some nextContainer => handleClick nextPlanetId nextContainer s
      | None => s
      end
  | None => s
  end.
Proof.
  intros Hne. unfold handleKeyDown.
  destruct (allPlanetIds s); [congruence | reflexivity].
Qed.

Lemma handleKeyDown_left (sel : Selection) (s : Scene) :
  allPlanetIds s <> [] ->
  handleKeyDown "ArrowLeft" sel s =
  let allIds := allPlanetIds s in
  let currentIndex :=
    match sel with
    | SelPlanet pid _ _ => indexOf pid allIds
    | _ => 0%Z
    end in
  match arrayGet allIds
          (if (currentIndex <=? 0)%Z
           then (Z.of_nat (List.length allIds) - 1)%Z
           else (currentIndex - 1)%Z) with
  | Some prevPlanetId =>
      match containerOf prevPlanetId s with
      | Some prevContainer => handleClick prevPlanetId prevContainer s
      | None => s
      end
  | None => s
  end.
Proof.
  intros Hne. unfold handleKeyDown.
  destruct (allPlanetIds s); [congruence | reflexivity].
Qed.

Lemma click_found (s : Scene) (pid : string) :
  appRef s <> None -> containerOf pid s <> None ->
  exists c,
    containerOf pid s = Some c /\
    selection (store (handleClick pid c s)) = SelPlanet pid c true /\
    focusedPlanetIdRef (handleClick pid c s) = Some pid.
Proof.
  intros Happ Hc. unfold containerOf in *.
  destruct (findPlanet pid (groupOrbitsRef s)) as [[k p] |] eqn:Hfind;
    [| congruence].
  exists (container p). split; [reflexivity |].
  destruct (handleClick_pins s pid (container p) k p Happ Hfind) as (H1 & H2 & _).
  now split.
Qed.

Lemma containerOf_of_listed (s : Scene) (j : nat) (pid : string) :
  idsAreKeys s -> nth_error (allPlanetIds s) j = Some pid ->
  containerOf pid s <> None.
Proof.
  intros Hkeys Hj.
  destruct (containerOf_listed s pid Hkeys (nth_error_In _ _ Hj)) as (k & p & Hfind).
  unfold containerOf. now rewrite Hfind.
Qed.

(** The key that lands on position [j] of the ids pins the body there. *)
Lemma landing (s : Scene) (j : nat) (pid : string) :
  appRef s <> None -> containerOf pid s <> None ->
  nth_error (allPlanetIds s) j = Some pid ->
  let s' := match arrayGet (allPlanetIds s) (Z.of_nat j) with
            | Some x =>
                match containerOf x s with
                | Some c => handleClick x c s
                | None => s
                end
            | None => s
            end in
  selectedId s' = Some pid /\ focusedPlanetIdRef s' = Some pid /\
  isPersistentPlanet (selection (store s')) = true /\
  sizeless s' = sizeless s /\ appRef s' = appRef s.
Proof.
  intros Happ Hc Hj. rewrite arrayGet_nat, Hj.
  destruct (click_found s pid Happ Hc) as (c & -> & Hsel & Hfoc).
  cbv zeta. unfold selectedId. rewrite Hsel, Hfoc.
  repeat split; [apply sizeless_handleClick | apply appRef_handleClick].
Qed.

(** X17. Arrow keys walk the bodies in the order of [allPlanetIds], when
    the ids are distinct and every body is stored under the id of its
    entity: with body number [i] selected, [ArrowRight] pins body number
    [i + 1], or the first body after the last one, and [ArrowLeft] after it
    pins body number [i] again; with nothing selected, [ArrowRight] pins
    the first body and [ArrowLeft] the last. *)
Theorem arrow_keys_walk_the_bodies :
  forall (s : Scene) (i : nat) (pid : string) (c : ContainerStats) (b : bool),
    appRef s <> None -> idsAreKeys s -> NoDup (allPlanetIds s) ->
    nth_error (allPlanetIds s) i = Some pid ->
    let ids := allPlanetIds s in
    let s1 := handleKeyDown "ArrowRight" (SelPlanet pid c b) s in
    let s2 := handleKeyDown "ArrowLeft" (selection (store s1)) s1 in
    selectedId s1 = nth_error ids ((i + 1) mod List.length ids) /\
    focusedPlanetIdRef s1 = selectedId s1 /\
    isPersistentPlanet (selection (store s1)) = true /\
    selectedId s2 = Some pid /\
    focusedPlanetIdRef s2 = Some pid /\
    selectedId (handleKeyDown "ArrowRight" SelNone s) = nth_error ids 0 /\
    selectedId (handleKeyDown "ArrowLeft" SelNone s)
      = nth_error ids (List.length ids - 1).
Proof.
  intros s i pid c b Happ Hkeys Hnd Hi ids s1 s2.
  unfold ids in *. clear ids.
  assert (Hlen : i < List.length (allPlanetIds s))
    by (apply nth_error_Some; congruence).
  assert (Hne : allPlanetIds s <> []).
  { intros E. rewrite E in Hlen. cbn in Hlen. lia. }
  set (n := List.length (allPlanetIds s)) in *.
  set (j := (i + 1) mod n).
  assert (Hjn : j < n) by (apply Nat.mod_upper_bound; lia).
  destruct (nth_error (allPlanetIds s) j) as [next |] eqn:Hj;
    [| apply nth_error_None in Hj; fold n in Hj; lia].
  (* ArrowRight from body i *)
  assert (H1 : selectedId s1 = Some next /\ focusedPlanetIdRef s1 = Some next /\
               isPersistentPlanet (selection (store s1)) = true /\
               sizeless s1 = sizeless s /\ appRef s1 = appRef s).
  { unfold s1. rewrite handleKeyDown_right by exact Hne. cbv zeta.
    rewrite (indexOf_nth _ i pid Hnd Hi). fold n.
    replace (Z.rem (Z.of_nat i + 1) (Z.of_nat n)) with (Z.of_nat j).
    2:{ unfold j. rewrite Z.rem_mod_nonneg by lia.
        rewrite Nat2Z.inj_mod. f_equal. lia. }
    apply (landing s j next); [exact Happ | | exact Hj].
    now apply (containerOf_of_listed s j). }
  destruct H1 as (Hsel1 & Hfoc1 & Hpers1 & Hsz1 & Happ1).
  split; [exact Hsel1 |]. split; [congruence |]. split; [exact Hpers1 |].
  assert (Hids1 : allPlanetIds s1 = allPlanetIds s)
    by now apply allPlanetIds_sizeless.
  (* ArrowLeft from there *)
  assert (H2 : selectedId s2 = Some pid /\ focusedPlanetIdRef s2 = Some pid).
  { unfold s2. rewrite handleKeyDown_left by (rewrite Hids1; exact Hne).
    cbv zeta. unfold selectedId in Hsel1.
    destruct (selection (store s1)) as [| x cx bx |]; try discriminate.
    injection Hsel1 as ->. rewrite Hids1.
    rewrite (indexOf_nth _ j next Hnd Hj). fold n.
    replace (if (Z.of_nat j <=? 0)%Z then (Z.of_nat n - 1)%Z
             else (Z.of_nat j - 1)%Z) with (Z.of_nat i).
    2:{ unfold j. destruct (Nat.eq_dec (i + 1) n) as [E | E].
        - rewrite E, Nat.Div0.mod_same. cbn. lia.
        - rewrite Nat.mod_small by lia.
          replace (Z.of_nat (i + 1) <=? 0)%Z with false
            by (symmetry; apply Z.leb_gt; lia).
          lia. }
    destruct (landing s1 i pid) as (A & B & _).
    - rewrite Happ1. exact Happ.
    - rewrite (containerOf_sizeless pid s s1 Hsz1).
      now apply (containerOf_of_listed s i).
    - rewrite Hids1. exact Hi.
    - rewrite Hids1 in A, B. split; [exact A | exact B]. }
  destruct H2 as (Hsel2 & Hfoc2).
  split; [exact Hsel2 |]. split; [exact Hfoc2 |]. split.
  - rewrite handleKeyDown_right by exact Hne. cbv zeta. fold n.
    change (-1 + 1)%Z with 0%Z. rewrite Z.rem_0_l by lia.
    destruct (nth_error (allPlanetIds s) 0) as [x |] eqn:H0;
      [| apply nth_error_None in H0; fold n in H0; lia].
    destruct (landing s 0 x Happ) as (A & _); [| exact H0 | exact A].
    now apply (containerOf_of_listed s 0).
  - rewrite handleKeyDown_left by exact Hne. cbv zeta. fold n.
    change (0 <=? 0)%Z with true. cbv iota.
    replace (Z.of_nat n - 1)%Z with (Z.of_nat (n - 1)) by lia.
    destruct (nth_error (allPlanetIds s) (n - 1)) as [x |] eqn:Hl;
      [| apply nth_error_None in Hl; fold n in Hl; lia].
    destruct (landing s (n - 1) x Happ) as (A & _); [| exact Hl | exact A].
    now apply (containerOf_of_listed s (n - 1)).
Qed.

(** Bodies [a] and [b] of the scenario of the design document: from [a],
    [ArrowRight] pins [b] and [ArrowLeft] pins [a] again. *)
Lemma arrow_keys_walk_the_bodies_witness :
  let s := reconcile noRandom [entA; entB] window0 in
  let ids := allPlanetIds s in
  let s1 := handleKeyDown "ArrowRight" (SelPlanet "a" entA true) s in
  let s2 := handleKeyDown "ArrowLeft" (selection (store s1)) s1 in
  selectedId s1 = nth_error ids ((0 + 1) mod List.length ids) /\
  focusedPlanetIdRef s1 = selectedId s1 /\
  isPersistentPlanet (selection (store s1)) = true /\
  selectedId s2 = Some "a" /\
  focusedPlanetIdRef s2 = Some "a" /\
  selectedId (handleKeyDown "ArrowRight" SelNone s) = nth_error ids 0 /\
  selectedId (handleKeyDown "ArrowLeft" SelNone s)
    = nth_error ids (List.length ids - 1).
Proof.
  apply (arrow_keys_walk_the_bodies
           (reconcile noRandom [entA; entB] window0) 0 "a" entA true).
  - crunch. discriminate.
  - intros k o pid p Ho Hp.
    now destruct (reconcile_bodies noRandom [entA; entB] window0 k pid o p
                    ltac:(discriminate) ltac:(split; constructor) Ho Hp)
      as (_ & _ & Hid & _).
  - crunch. repeat constructor; simpl; intuition discriminate.
  - crunch. reflexivity.
Defined.

(** ** Bodies are stored under the ids of their entities *)

Lemma In_map_adjust {V : Type} (k : string) (f : V -> V) (m : JsMap V)
  (k' : string) (v' : V) :
  In (k', v') (map_adjust k f m) ->
  exists v, In (k', v) m /\ (v' = v \/ v' = f v).
Proof.
  induction m as [| [k0 v0] m IH]; [intros [] |].
  cbn [map_adjust]. destruct (k0 =? k).
  - intros [[= <- <-] | H].
    + exists v0. split; [now left | now right].
    + exists v'. split; [now right | now left].
  - intros [[= <- <-] | H].
    + exists v0. split; [now left | now left].
    + destruct (IH H) as (v & Hin & Hv). exists v. split; [now right | exact Hv].
Qed.

Lemma idsAreKeys_adjustPlanet (k pid : string) (f : Planet -> Planet) (s : Scene) :
  (forall p, container (f p) = container p) ->
  idsAreKeys s -> idsAreKeys (adjustPlanet k pid f s).
Proof.
  intros Hf Hkeys k' o' pid' p' Ho' Hp'.
  unfold adjustPlanet, adjustOrbit in Ho'.
  cbn [groupOrbitsRef set_groupOrbitsRef] in Ho'.
  apply In_map_adjust in Ho'. destruct Ho' as (o & Ho & [-> | ->]).
  - now apply (Hkeys k' o).
  - cbn [planets set_planets] in Hp'.
    apply In_map_adjust in Hp'. destruct Hp' as (p & Hp & [-> | ->]).
    + now apply (Hkeys k' o).
    + rewrite Hf. now apply (Hkeys k' o).
Qed.

(** The cases of a property of the rings that an update of other fields
    carries over. *)
Ltac rings_carried :=
  first
    [ solve [intros ? H; exact H]
    | solve [intros ? ? H; exact H]
    | solve [intros ? ? ? H; exact H]
    | solve [intros ? ? ? H12 H23 H; exact (H23 (H12 H))]
    | solve [intros s0 H; unfold clearPendingUnfocus, maybeUnfocus;
             destruct (unfocusTimeoutRef s0); exact H] ].

Lemma idsAreKeys_focus_handlers (s : Scene) :
  idsAreKeys s ->
  (forall sel pid, idsAreKeys (handleHover sel pid s)) /\
  (forall pid c, idsAreKeys (handleClick pid c s)) /\
  (forall t, idsAreKeys (fireTimeout t s)) /\
  (forall sel, idsAreKeys (handleEscape sel s)) /\
  (forall key sel, idsAreKeys (handleKeyDown key sel s)).
Proof.
  intros H.
  assert (Hscale : forall k pid f s0,
             idsAreKeys s0 -> idsAreKeys (adjustPlanet k pid (scaleSprite f) s0))
    by (intros; now apply idsAreKeys_adjustPlanet).
  assert (Hunscale : forall k pid f s0,
             idsAreKeys s0 -> idsAreKeys (adjustPlanet k pid (unscaleSprite f) s0))
    by (intros; now apply idsAreKeys_adjustPlanet).
  repeat split; intros; revert H.
  - apply (Rel_handleHover (fun s s' => idsAreKeys s -> idsAreKeys s'));
      first [rings_carried | assumption].
  - apply (Rel_handleClick (fun s s' => idsAreKeys s -> idsAreKeys s'));
      first [rings_carried | assumption].
  - apply (Rel_fireTimeout (fun s s' => idsAreKeys s -> idsAreKeys s'));
      first [rings_carried | assumption].
  - apply (Rel_handleEscape (fun s s' => idsAreKeys s -> idsAreKeys s'));
      first [rings_carried | assumption].
  - apply (Rel_handleKeyDown (fun s s' => idsAreKeys s -> idsAreKeys s'));
      first [rings_carried | assumption].
Qed.

Lemma sceneWf_handleKeyDown (key : string) (sel : Selection) (s : Scene) :
  sceneWf s -> sceneWf (handleKeyDown key sel s).
Proof.
  apply (Rel_handleKeyDown (fun s s' => sceneWf s -> sceneWf s'));
    first [rings_carried | intros; now apply sceneWf_adjustPlanet].
Qed.

Lemma idsAreKeys_reconcile (random : nat -> R) (cs : list ContainerStats)
  (s : Scene) :
  sceneWf s -> idsAreKeys s -> idsAreKeys (reconcile random cs s).
Proof.
  intros Hwf Hkeys.
  destruct (appRef s) as [scr |] eqn:Happ.
  - intros k o pid p Ho Hp.
    assert (Happ' : appRef s <> None) by congruence.
    now destruct (reconcile_bodies random cs s k pid o p Happ' Hwf Ho Hp)
      as (_ & _ & Hid & _).
  - unfold reconcile. now rewrite Happ.
Qed.

Lemma idsAreKeys_tick (delta : R) (s : Scene) :
  idsAreKeys s -> idsAreKeys (tick delta s).
Proof.
  intros Hkeys k o pid p Ho Hp. unfold tick in Ho.
  cbn [groupOrbitsRef set_groupOrbitsRef] in Ho.
  apply in_map_iff in Ho. destruct Ho as ([k0 o0] & [= <- <-] & Ho0).
  cbn [planets set_planets snd fst] in Hp.
  apply in_map_iff in Hp. destruct Hp as ([pid0 p0] & [= <- <-] & Hp0).
  cbn. now apply (Hkeys k0 o0).
Qed.

Lemma idsAreKeys_handleResize (w h : R) (s : Scene) :
  idsAreKeys s -> idsAreKeys (handleResize w h s).
Proof.
  intros Hkeys k o pid p Ho Hp. unfold handleResize in Ho. cbv zeta in Ho.
  cbn [groupOrbitsRef set_groupOrbitsRef set_appRef] in Ho.
  apply in_map_iff in Ho. destruct Ho as ([i [k0 o0]] & [= <- <-] & Ho0).
  apply indexed_In in Ho0. cbn [snd fst] in *.
  cbn [planets set_orbitRadius] in Hp. now apply (Hkeys k0 o0).
Qed.

(** X18. In every scene that the component reaches from its mount, every
    body is stored in its ring under the id of the entity that it shows, so
    the ids that the keyboard handler lists are keys that its lookup
    finds; and the render surface is there. *)
Theorem bodies_are_keyed_by_entity_id :
  forall (w h : R) (inputs : list Input),
    let s := runInputs (mount w h) inputs in
    idsAreKeys s /\
    (forall pid, In pid (allPlanetIds s) -> containerOf pid s <> None) /\
    appRef s <> None.
Proof.
  intros w h inputs s.
  assert (Hinv : sceneWf s /\ idsAreKeys s).
  { unfold s, runInputs.
    assert (H0 : sceneWf (mount w h) /\ idsAreKeys (mount w h)).
    { split; [split; constructor |]. intros k o pid p []. }
    revert H0. generalize (mount w h) as s0.
    induction inputs as [| i inputs IH]; intros s0 H0; [exact H0 |].
    cbn [fold_left]. apply IH. destruct H0 as (Hwf & Hkeys).
    destruct i as [e | key sel]; cbn [stepInput].
    - split; [now apply sceneWf_step |].
      destruct (idsAreKeys_focus_handlers s0 Hkeys) as (A & B & C & D & _).
      destruct e; cbn [step]; auto.
      + unfold maybeUnfocus. now destruct (unfocusTimeoutRef s0).
      + now apply idsAreKeys_reconcile.
      + now apply idsAreKeys_tick.
      + now apply idsAreKeys_handleResize.
    - split; [now apply sceneWf_handleKeyDown |].
      now apply idsAreKeys_focus_handlers. }
  destruct Hinv as (_ & Hkeys).
  split; [exact Hkeys |]. split.
  - intros pid Hin.
    destruct (containerOf_listed s pid Hkeys Hin) as (k & p & Hfind).
    unfold containerOf. now rewrite Hfind.
  - apply mounted_runInputs. discriminate.
Qed.

(** ** Unfocus twice *)

(** X19. [unfocusPlanet] leaves no body focused: on a mounted scene whose
    focus ref names a body it clears the ref, the selection and the hover
    and hides the overlay, and it leaves the timeouts alone; in every case
    a second call changes nothing more. *)
Theorem unfocusPlanet_idempotent :
  forall s : Scene,
    unfocusPlanet (unfocusPlanet s) = unfocusPlanet s /\
    (appRef s <> None -> truthy (focusedPlanetIdRef s) = true ->
     focusedPlanetIdRef (unfocusPlanet s) = None /\
     store (unfocusPlanet s) = initialStore /\
     overlayVisible (unfocusPlanet s) = false /\
     timers (unfocusPlanet s) = timers s).
Proof.
  intros s.
  assert (Hpost : appRef s <> None -> truthy (focusedPlanetIdRef s) = true ->
            focusedPlanetIdRef (unfocusPlanet s) = None /\
            store (unfocusPlanet s) = initialStore /\
            overlayVisible (unfocusPlanet s) = false /\
            timers (unfocusPlanet s) = timers s).
  { intros Happ Hfoc.
    split; [| split; [| split; [| apply timers_unfocusPlanet]]];
      unfold unfocusPlanet;
      destruct (appRef s) as [scr |]; try congruence;
      destruct (focusedPlanetIdRef s) as [pid |]; try discriminate;
      rewrite Hfoc; cbn [negb]; cbv zeta;
      destruct (findPlanet pid _) as [[k p] |]; reflexivity. }
  split; [| exact Hpost].
  destruct (appRef s) as [scr |] eqn:Happ.
  - destruct (truthy (focusedPlanetIdRef s)) eqn:Hfoc.
    + destruct Hpost as (Hnone & _); [congruence | reflexivity |].
      unfold unfocusPlanet at 1. rewrite Hnone.
      now destruct (appRef (unfocusPlanet s)).
    + assert (E : unfocusPlanet s = s).
      { unfold unfocusPlanet. rewrite Happ.
        destruct (focusedPlanetIdRef s) as [pid |]; [| reflexivity].
        now rewrite Hfoc. }
      now rewrite !E.
  - assert (E : unfocusPlanet s = s) by (unfold unfocusPlanet; now rewrite Happ).
    now rewrite !E.
Qed.

(** ** A refresh with no entity *)

Lemma filter_twice {A : Type} (f g : A -> bool) (l : list A) :
  filter f (filter g l) = filter (fun x => g x && f x) l.
Proof.
  induction l as [| x l IH]; [reflexivity |].
  cbn [filter]. destruct (g x); cbn [andb filter]; now rewrite IH.
Qed.

Lemma orbits_removeStaleOrbits (keys : list string) (l : JsMap GroupOrbit) :
  forall s,
    groupOrbitsRef (fold_left (removeStaleOrbit keys) l s)
    = filter (fun e => existsb (String.eqb (fst e)) keys
                       || negb (existsb (String.eqb (fst e)) (map_keys l)))
             (groupOrbitsRef s).
Proof.
  induction l as [| [k o] l IH]; intros s.
  - cbn [fold_left map_keys List.map existsb negb].
    rewrite <- (filter_ext (fun _ => true)).
    + induction (groupOrbitsRef s) as [| e m IHm]; [reflexivity |].
      cbn. now rewrite <- IHm.
    + intros e. now rewrite orb_true_r.
  - cbn [fold_left]. rewrite IH. unfold removeStaleOrbit at 1. cbn [fst snd].
    destruct (existsb (String.eqb k) keys) eqn:Ek.
    + apply filter_ext_in. intros [k' o'] _. cbn [fst map_keys List.map existsb].
      destruct (String.eqb_spec k' k) as [-> | Hne].
      * now rewrite Ek.
      * reflexivity.
    + cbv zeta. cbn [groupOrbitsRef set_groupOrbitsRef].
      assert (Hsame : forall s0 : Scene,
                groupOrbitsRef
                  (removeChild OnStage (labelText o)
                     (removeChild OnStage (orbitGlow o)
                        (removeChild OnStage (orbitLine o) s0)))
                = groupOrbitsRef s0) by reflexivity.
      rewrite Hsame.
      assert (Hfold : groupOrbitsRef
                        (fold_left (fun s0 pe => removePlanetGraphics (snd pe) s0)
                                   (planets o) s)
                      = groupOrbitsRef s).
      { apply (Rel_fold (fun s s' => groupOrbitsRef s' = groupOrbitsRef s)).
        - reflexivity.
        - intros s1 s2 s3 H12 H23. congruence.
        - intros s0 pe. now destruct (removePlanetGraphics_core (snd pe) s0)
            as (_ & H & _). }
      rewrite Hfold. unfold map_delete. rewrite filter_twice.
      apply filter_ext. intros [k' o']. cbn [fst map_keys List.map existsb].
      destruct (String.eqb_spec k' k) as [-> | Hne]; cbn [negb andb orb].
      * rewrite Ek. reflexivity.
      * reflexivity.
Qed.

(** X20. A refresh with an empty list drops every ring from the map and
    touches nothing else that is shown or selected: the selection, the
    hover, the focus ref, the overlay and the children of the base layer
    and of the focus layer are as before. *)
Theorem refresh_with_no_entity :
  forall (random : nat -> R) (s : Scene),
    appRef s <> None ->
    let s' := reconcile random [] s in
    groupOrbitsRef s' = [] /\
    store s' = store s /\
    focusedPlanetIdRef s' = focusedPlanetIdRef s /\
    overlayVisible s' = overlayVisible s /\
    baseLayer s' = baseLayer s /\
    focusLayer s' = focusLayer s.
Proof.
  intros random s Happ s'. unfold s', reconcile.
  destruct (appRef s) as [scr |]; [| congruence].
  cbv zeta. change (groupContainers []) with (@nil Group).
  cbn [List.map indexed List.length seq combine fold_left].
  split.
  - rewrite orbits_removeStaleOrbits.
    assert (H : forall m : JsMap GroupOrbit,
               (forall e, In e m -> In (fst e) (map_keys (groupOrbitsRef s))) ->
               filter (fun e => existsb (String.eqb (fst e)) []
                                || negb (existsb (String.eqb (fst e))
                                                 (map_keys (groupOrbitsRef s)))) m
               = []).
    { induction m as [| e m IHm]; intros Hm; [reflexivity |].
      cbn [filter existsb orb].
      assert (He : existsb (String.eqb (fst e)) (map_keys (groupOrbitsRef s)) = true).
      { apply existsb_exists. exists (fst e). split; [apply Hm; now left |].
        apply String.eqb_refl. }
      rewrite He. cbn [negb]. apply IHm. intros e' He'. apply Hm. now right. }
    apply H. intros e He. now apply in_map.
  - apply (Rel_fold
             (fun s s' => store s' = store s /\
                          focusedPlanetIdRef s' = focusedPlanetIdRef s /\
                          overlayVisible s' = overlayVisible s /\
                          baseLayer s' = baseLayer s /\
                          focusLayer s' = focusLayer s)).
    + intros s0. now repeat split.
    + intros s1 s2 s3 (A1 & B1 & C1 & D1 & E1) (A2 & B2 & C2 & D2 & E2).
      repeat split; congruence.
    + intros s0 e.
      apply (Rel_removeStaleOrbit
               (fun s s' => store s' = store s /\
                            focusedPlanetIdRef s' = focusedPlanetIdRef s /\
                            overlayVisible s' = overlayVisible s /\
                            baseLayer s' = baseLayer s /\
                            focusLayer s' = focusLayer s)).
      * intros s1. now repeat split.
      * intros s1 s2 s3 (A1 & B1 & C1 & D1 & E1) (A2 & B2 & C2 & D2 & E2).
        repeat split; congruence.
      * intros v s1. now repeat split.
      * intros o s1. now repeat split.
Qed.

(** The scenario of the design document with body [a] pinned, then the
    empty refresh. *)
Lemma refresh_with_no_entity_witness :
  let s := run window0 [Refresh noRandom [entA; entB]; PointerDown "a" entA] in
  let s' := reconcile noRandom [] s in
  groupOrbitsRef s' = [] /\
  store s' = store s /\
  focusedPlanetIdRef s' = focusedPlanetIdRef s /\
  overlayVisible s' = overlayVisible s /\
  baseLayer s' = baseLayer s /\
  focusLayer s' = focusLayer s.
Proof.
  apply (refresh_with_no_entity noRandom
           (run window0 [Refresh noRandom [entA; entB]; PointerDown "a" entA])).
  crunch. discriminate.
Defined.

(** ** Hover and leave *)

Lemma map_adjust_app {V : Type} (k : string) (f : V -> V) (l l' : JsMap V) :
  map_adjust k f (l ++ l') =
  if map_has k l then map_adjust k f l ++ l' else l ++ map_adjust k f l'.
Proof.
  induction l as [| [k0 v0] l IH]; [reflexivity |].
  cbn [app map_adjust]. unfold map_has. cbn [map_get].
  destruct (k0 =? k); [reflexivity |].
  rewrite IH. unfold map_has. now destruct (map_get k l).
Qed.

Lemma findPlanet_snoc (pid : string) (l : JsMap GroupOrbit)
  (e : string * GroupOrbit) :
  findPlanet pid (l ++ [e]) =
  match map_get pid (planets (snd e)) with
  | Some p => Some (fst e, p)
  | None => findPlanet pid l
  end.
Proof. unfold findPlanet. now rewrite fold_left_app. Qed.

(** The ring that the search loop returns is a ring of the map. *)
Lemma findPlanet_key (pid k : string) (p : Planet) (l : JsMap GroupOrbit) :
  findPlanet pid l = Some (k, p) -> map_has k l = true.
Proof.
  induction l as [| e l IH] using rev_ind; [discriminate |].
  rewrite findPlanet_snoc.
  assert (Happ : forall k0, map_has k0 l = true -> map_has k0 (l ++ [e]) = true).
  { intros k0 H. apply map_has_true. apply map_has_true in H.
    unfold map_keys in *. rewrite map_app, in_app_iff. now left. }
  destruct (map_get pid (planets (snd e))) as [p' |].
  - intros [= <- <-]. apply map_has_true. unfold map_keys.
    rewrite map_app, in_app_iff. right. now left.
  - intros H. apply Happ. now apply IH.
Qed.

(** A change of the body [pid] of the ring that the search loop returns is
    seen by the next search. *)
Lemma findPlanet_adjust (pid k : string) (p : Planet) (f : Planet -> Planet)
  (l : JsMap GroupOrbit) :
  map_wf l ->
  findPlanet pid l = Some (k, p) ->
  findPlanet pid
    (map_adjust k (fun o => set_planets (map_adjust pid f (planets o)) o) l)
  = Some (k, f p).
Proof.
  induction l as [| e l IH] using rev_ind; [discriminate |].
  intros Hwf. rewrite findPlanet_snoc.
  assert (Hwfl : map_wf l).
  { unfold map_wf, map_keys in *. rewrite map_app in Hwf.
    now apply NoDup_app_remove_r in Hwf. }
  assert (Hfresh : map_has (fst e) l = false).
  { apply map_has_false. unfold map_wf, map_keys in *.
    rewrite map_app in Hwf. cbn in Hwf.
    apply NoDup_remove_2 in Hwf. now rewrite app_nil_r in Hwf. }
  rewrite map_adjust_app.
  destruct (map_get pid (planets (snd e))) as [p' |] eqn:Ep.
  - intros [= <- <-]. rewrite Hfresh.
    destruct e as [k0 o0]. cbn [fst snd map_adjust] in *.
    rewrite String.eqb_refl, findPlanet_snoc.
    cbn [fst snd planets set_planets].
    now rewrite map_get_adjust_same, Ep.
  - intros Hfind. rewrite (findPlanet_key pid k p l Hfind).
    rewrite findPlanet_snoc, Ep. now apply IH.
Qed.

Lemma unscale_scale (p : Planet) :
  unscaleSprite theme.hover.focusScale (scaleSprite theme.hover.focusScale p) = p.
Proof.
  unfold unscaleSprite, scaleSprite, theme.hover.focusScale.
  destruct p. cbn. f_equal; field; lra.
Qed.

Lemma adjust_back (pid k : string) (l : JsMap GroupOrbit) :
  map_adjust k
    (fun o => set_planets
                (map_adjust pid (unscaleSprite theme.hover.focusScale) (planets o)) o)
    (map_adjust k
       (fun o => set_planets
                   (map_adjust pid (scaleSprite theme.hover.focusScale) (planets o)) o)
       l)
  = l.
Proof.
  rewrite map_adjust_compose. apply map_adjust_id. intros o _.
  cbn [planets set_planets]. rewrite map_adjust_compose.
  rewrite map_adjust_id by (intros; apply unscale_scale).
  now destruct o.
Qed.

(** Where [moveBody] puts the sprite. *)
Lemma moveBody_lands (from to : Layer) (p : Planet) (s : Scene) :
  In (sprite p) (childrenOf to (moveBody from to p s)).
Proof.
  unfold moveBody. cbv zeta.
  set (s0 := addChild to (sprite p) _).
  assert (H0 : In (sprite p) (childrenOf to s0)).
  { unfold s0. destruct to; cbn; rewrite in_app_iff; cbn; auto. }
  clearbody s0.
  destruct (Nat.eq_dec (sprite p) (rimGlow p)) as [E | Hne].
  - rewrite <- E. destruct to; cbn; rewrite in_app_iff; cbn; auto.
  - destruct to; cbn in *; rewrite in_app_iff; left;
      now apply In_dropChild_other.
Qed.

Lemma clearPendingUnfocus_same (s : Scene) :
  appRef (clearPendingUnfocus s) = appRef s /\
  groupOrbitsRef (clearPendingUnfocus s) = groupOrbitsRef s /\
  focusedPlanetIdRef (clearPendingUnfocus s) = focusedPlanetIdRef s /\
  store (clearPendingUnfocus s) = store s /\
  nextTimer (clearPendingUnfocus s) = nextTimer s /\
  unfocusTimeoutRef (clearPendingUnfocus s) = None.
Proof.
  unfold clearPendingUnfocus.
  destruct (unfocusTimeoutRef s) eqn:E; repeat split; assumption.
Qed.

Lemma moveBody_same (from to : Layer) (p : Planet) (s : Scene) :
  store (moveBody from to p s) = store s /\
  nextTimer (moveBody from to p s) = nextTimer s /\
  unfocusTimeoutRef (moveBody from to p s) = unfocusTimeoutRef s.
Proof. destruct from, to; now repeat split. Qed.

(** The hover of a body that the search loop finds, with no focus and no
    selection. *)
Lemma hover_focuses (s : Scene) (pid k : string) (p : Planet) :
  appRef s <> None ->
  focusedPlanetIdRef s = None ->
  findPlanet pid (groupOrbitsRef s) = Some (k, p) ->
  appRef (handleHover SelNone pid s) = appRef s /\
  groupOrbitsRef (handleHover SelNone pid s)
    = map_adjust k
        (fun o => set_planets
                    (map_adjust pid (scaleSprite theme.hover.focusScale)
                                (planets o)) o)
        (groupOrbitsRef s) /\
  focusedPlanetIdRef (handleHover SelNone pid s) = Some pid /\
  store (handleHover SelNone pid s)
    = setHover (Some pid) (Some (container p)) (store s) /\
  nextTimer (handleHover SelNone pid s) = nextTimer s /\
  unfocusTimeoutRef (handleHover SelNone pid s) = None /\
  overlayVisible (handleHover SelNone pid s) = true /\
  In (sprite p) (focusLayer (handleHover SelNone pid s)).
Proof.
  intros Happ Hfoc Hfind.
  destruct (clearPendingUnfocus_same s) as (A1 & A2 & A3 & A4 & A5 & A6).
  unfold handleHover.
  destruct (appRef s) as [scr |] eqn:Eapp; [clear Happ | congruence].
  cbn [isPersistentPlanet andb isGroup]. cbv zeta.
  rewrite A3, Hfoc. cbn [refIs]. rewrite A2, Hfind.
  generalize dependent (clearPendingUnfocus s). intros sa A1 A2 A3 A4 A5 A6.
  match goal with
  | |- context [moveBody OnBase OnFocus p ?X] => set (s0 := X)
  end.
  assert (Z : appRef s0 = Some scr /\ groupOrbitsRef s0 = groupOrbitsRef s /\
              focusedPlanetIdRef s0 = Some pid /\
              store s0 = setHover (Some pid) (Some (container p)) (store s) /\
              nextTimer s0 = nextTimer s /\ unfocusTimeoutRef s0 = None).
  { unfold s0. cbn. rewrite A4. now repeat split. }
  clearbody s0. destruct Z as (Z1 & Z2 & Z3 & Z4 & Z5 & Z6).
  destruct (moveBody_core OnBase OnFocus p s0) as (M1 & M2 & M3).
  destruct (moveBody_same OnBase OnFocus p s0) as (M4 & M5 & M6).
  pose proof (moveBody_lands OnBase OnFocus p s0) as M7.
  generalize dependent (moveBody OnBase OnFocus p s0).
  intros sb M1 M2 M3 M4 M5 M6 M7.
  unfold adjustPlanet, adjustOrbit.
  repeat split; cbn; first [congruence | exact M7].
Qed.

(** The pointer leaves and the timeout that this arms runs, with no armed
    timeout before and no selection: the callback gets to [unfocusPlanet]. *)
Lemma leave_unfocuses (s : Scene) :
  unfocusTimeoutRef s = None ->
  selection (store s) = SelNone ->
  exists s', fireTimeout (nextTimer s) (maybeUnfocus s) = unfocusPlanet s' /\
             appRef s' = appRef s /\
             groupOrbitsRef s' = groupOrbitsRef s /\
             focusedPlanetIdRef s' = focusedPlanetIdRef s.
Proof.
  intros Hno Hsel. unfold maybeUnfocus. rewrite Hno. cbv zeta.
  unfold fireTimeout.
  cbn [timers set_unfocusTimeoutRef set_nextTimer set_timers].
  rewrite existsb_app. cbn [existsb]. rewrite Nat.eqb_refl, orb_true_r.
  unfold unfocusCallback. cbv zeta.
  match goal with
  | |- context [unfocusPlanet ?X] => set (s' := X)
  end.
  assert (Z : store s' = store s /\ appRef s' = appRef s /\
              groupOrbitsRef s' = groupOrbitsRef s /\
              focusedPlanetIdRef s' = focusedPlanetIdRef s)
    by now repeat split.
  clearbody s'. destruct Z as (Z1 & Z2 & Z3 & Z4).
  rewrite Z1, Hsel. cbn [isPersistentPlanet isGroup].
  exists s'. now repeat split.
Qed.

(** What [unfocusPlanet] does to a focused body that the search loop
    finds. *)
Lemma unfocusPlanet_found (s : Scene) (pid k : string) (q : Planet) :
  appRef s <> None ->
  focusedPlanetIdRef s = Some pid ->
  pid <> "" ->
  findPlanet pid (groupOrbitsRef s) = Some (k, q) ->
  groupOrbitsRef (unfocusPlanet s)
    = map_adjust k
        (fun o => set_planets
                    (map_adjust pid (unscaleSprite theme.hover.focusScale)
                                (planets o)) o)
        (groupOrbitsRef s) /\
  focusedPlanetIdRef (unfocusPlanet s) = None /\
  store (unfocusPlanet s) = initialStore /\
  overlayVisible (unfocusPlanet s) = false /\
  In (sprite q) (baseLayer (unfocusPlanet s)).
Proof.
  intros Happ Hfoc Hpid Hfind. unfold unfocusPlanet.
  destruct (appRef s) as [scr |] eqn:Eapp; [clear Happ | congruence].
  rewrite Hfoc.
  assert (Ht : truthy (Some pid) = true).
  { cbn. apply negb_true_iff. now apply String.eqb_neq. }
  rewrite Ht. cbn [negb]. cbv zeta.
  cbn [groupOrbitsRef set_store set_focusedPlanetIdRef].
  rewrite Hfind.
  match goal with
  | |- context [moveBody OnFocus OnBase q ?X] => set (s0 := X)
  end.
  assert (Z : groupOrbitsRef s0 = groupOrbitsRef s /\
              focusedPlanetIdRef s0 = None /\ store s0 = initialStore)
    by now repeat split.
  clearbody s0. destruct Z as (Z2 & Z3 & Z4).
  destruct (moveBody_core OnFocus OnBase q s0) as (M1 & M2 & M3).
  destruct (moveBody_same OnFocus OnBase q s0) as (M4 & M5 & M6).
  pose proof (moveBody_lands OnFocus OnBase q s0) as M7.
  generalize dependent (moveBody OnFocus OnBase q s0).
  intros sb M1 M2 M3 M4 M5 M6 M7.
  unfold adjustPlanet, adjustOrbit.
  repeat split; cbn; first [congruence | exact M7].
Qed.

(** X25. Hover and leave is a round trip.  On a mounted scene with no
    focus and no selection, the pointer going over a body focuses it: the
    focus ref and the hover of the store name it, the overlay is shown and
    its sprite is a child of the focus layer.  When the pointer leaves and
    the timeout that this arms runs, the rings and bodies are exactly as
    before the hover (sizes are real numbers here, so the division undoes
    the multiplication), no body is focused, the store is as at the mount,
    the overlay is hidden and the sprite is a child of the base layer
    again. *)
Theorem hover_and_leave_round_trip :
  forall (s : Scene) (pid k : string) (p : Planet),
    appRef s <> None ->
    map_wf (groupOrbitsRef s) ->
    focusedPlanetIdRef s = None ->
    selection (store s) = SelNone ->
    pid <> "" ->
    findPlanet pid (groupOrbitsRef s) = Some (k, p) ->
    let s1 := handleHover SelNone pid s in
    let s3 := fireTimeout (nextTimer s) (maybeUnfocus s1) in
    (focusedPlanetIdRef s1 = Some pid /\
     hover (store s1)
       = {| planetId := Some pid; hoverContainer := Some (container p) |} /\
     overlayVisible s1 = true /\
     In (sprite p) (focusLayer s1)) /\
    (groupOrbitsRef s3 = groupOrbitsRef s /\
     focusedPlanetIdRef s3 = None /\
     store s3 = initialStore /\
     overlayVisible s3 = false /\
     In (sprite p) (baseLayer s3)).
Proof.
  intros s pid k p Happ Hwf Hfoc Hsel Hpid Hfind s1 s3.
  destruct (hover_focuses s pid k p Happ Hfoc Hfind)
    as (D1 & D2 & D3 & D4 & D5 & D6 & D7 & D8).
  fold s1 in D1, D2, D3, D4, D5, D6, D7, D8.
  assert (Hsel1 : selection (store s1) = SelNone) by now rewrite D4.
  destruct (leave_unfocuses s1 D6 Hsel1) as (s' & E & C1 & C2 & C3).
  rewrite D5 in E. fold s3 in E.
  clearbody s3 s1. subst s3.
  split.
  { rewrite D4. now repeat split. }
  assert (Hfind' : findPlanet pid (groupOrbitsRef s')
                   = Some (k, scaleSprite theme.hover.focusScale p)).
  { rewrite C2, D2. now apply findPlanet_adjust. }
  destruct (unfocusPlanet_found s' pid k (scaleSprite theme.hover.focusScale p))
    as (U1 & U2 & U3 & U4 & U5); try congruence.
  repeat split; try assumption.
  rewrite U1, C2, D2. apply adjust_back.
Qed.

(** Body [a] of the scenario of the design document, hovered right after
    the first refresh. *)
Lemma hover_and_leave_round_trip_witness :
  exists k p,
    findPlanet "a" (groupOrbitsRef (reconcile noRandom [entA; entB] window0))
      = Some (k, p) /\
    let s1 := handleHover SelNone "a"
                (reconcile noRandom [entA; entB] window0) in
    let s3 := fireTimeout
                (nextTimer (reconcile noRandom [entA; entB] window0))
                (maybeUnfocus s1) in
    (focusedPlanetIdRef s1 = Some "a" /\
     hover (store s1)
       = {| planetId := Some "a"; hoverContainer := Some (container p) |} /\
     overlayVisible s1 = true /\
     In (sprite p) (focusLayer s1)) /\
    (groupOrbitsRef s3
       = groupOrbitsRef (reconcile noRandom [entA; entB] window0) /\
     focusedPlanetIdRef s3 = None /\
     store s3 = initialStore /\
     overlayVisible s3 = false /\
     In (sprite p) (baseLayer s3)).
Proof.
  eexists. eexists.
  split; [crunch; reflexivity |].
  eapply (hover_and_leave_round_trip
            (reconcile noRandom [entA; entB] window0) "a").
  - crunch. discriminate.
  - crunch. repeat constructor; simpl; intuition discriminate.
  - crunch. reflexivity.
  - crunch. reflexivity.
  - discriminate.
  - crunch. reflexivity.
Defined.

(** ** The VarInt codec of the Minecraft adapter *)

Section VarIntFacts.
Local Open Scope Z_scope.


(** The powers of two of the 32-bit conversions, as numerals. *)
Ltac pow32 :=
  change (2 ^ 32) with 4294967296 in *;
  change (2 ^ 31) with 2147483648 in *.

Ltac range32 := pow32; lia.

Lemma toInt32_range (x : Z) : - 2 ^ 31 <= toInt32 x < 2 ^ 31.
Proof. unfold toInt32. pose proof (Z.mod_pos_bound (x + 2 ^ 31) (2 ^ 32)). lia. Qed.

Lemma toInt32_id (x : Z) : - 2 ^ 31 <= x < 2 ^ 31 -> toInt32 x = x.
Proof. intros H. unfold toInt32. rewrite Z.mod_small; lia. Qed.

Lemma toInt32_wrap (x j : Z) : toInt32 (x + j * 2 ^ 32) = toInt32 x.
Proof.
  unfold toInt32.
  replace (x + j * 2 ^ 32 + 2 ^ 31) with (x + 2 ^ 31 + j * 2 ^ 32) by ring.
  now rewrite Z.mod_add by lia.
Qed.

Lemma toInt32_wraps (x : Z) : exists j, toInt32 x = x + j * 2 ^ 32.
Proof.
  exists (- ((x + 2 ^ 31) / 2 ^ 32)). unfold toInt32.
  rewrite Z.mod_eq by lia. ring.
Qed.

Lemma toUint32_id (x : Z) : 0 <= x < 2 ^ 32 -> toUint32 x = x.
Proof. intros H. unfold toUint32. now apply Z.mod_small. Qed.

(** [x & 127] is the remainder of [x] by 128. *)
Lemma jsAnd_127 (x : Z) : jsAnd x 127 = x mod 128.
Proof.
  unfold jsAnd. rewrite (toInt32_id 127) by range32.
  change 127 with (Z.ones 7). rewrite Z.land_ones by lia.
  change (2 ^ 7) with 128.
  destruct (toInt32_wraps x) as [j ->].
  replace (x + j * 2 ^ 32) with (x + (j * 2 ^ 25) * 128) by ring.
  rewrite Z.mod_add by lia.
  apply toInt32_id. pose proof (Z.mod_pos_bound x 128). range32.
Qed.

Lemma jsAnd_255 (b : Z) : 0 <= b < 256 -> jsAnd b 255 = b.
Proof.
  intros H. unfold jsAnd.
  rewrite (toInt32_id b), (toInt32_id 255) by range32.
  change 255 with (Z.ones 8). rewrite Z.land_ones by lia.
  change (2 ^ 8) with 256. rewrite Z.mod_small by lia.
  apply toInt32_id. range32.
Qed.

(** [x >>> 7] is the quotient of the unsigned value by 128. *)
Lemma jsShr_7 (x : Z) : jsShr x 7 = toUint32 x / 128.
Proof.
  unfold jsShr. change (toUint32 7 mod 32) with 7.
  now rewrite Z.shiftr_div_pow2 by lia.
Qed.

(** Bit 7 of a byte. *)
Lemma land_128_low (t : Z) : 0 <= t < 128 -> Z.land t 128 = 0.
Proof.
  intros H. rewrite <- (Z.mod_small t 128) by lia.
  change 128 with (2 ^ 7) at 1. rewrite <- Z.land_ones by lia.
  rewrite <- Z.land_assoc. change (Z.land (Z.ones 7) 128) with 0.
  apply Z.land_0_r.
Qed.

Lemma lor_128 (t : Z) : 0 <= t < 128 -> Z.lor t 128 = t + 128.
Proof.
  intros H. rewrite <- Z.lxor_lor by now apply land_128_low.
  symmetry. apply Z.add_nocarry_lxor. now apply land_128_low.
Qed.

Lemma jsOr_128 (t : Z) : 0 <= t < 128 -> jsOr t 128 = t + 128.
Proof.
  intros H. unfold jsOr.
  rewrite (toInt32_id t), (toInt32_id 128) by range32.
  rewrite lor_128 by lia. apply toInt32_id. range32.
Qed.

Lemma jsAnd_128_final (t : Z) : 0 <= t < 128 -> jsAnd t 128 = 0.
Proof.
  intros H. unfold jsAnd.
  rewrite (toInt32_id t), (toInt32_id 128) by range32.
  now rewrite land_128_low.
Qed.

Lemma jsAnd_128_continued (b : Z) : 128 <= b < 256 -> jsAnd b 128 = 128.
Proof.
  intros H. unfold jsAnd.
  rewrite (toInt32_id b), (toInt32_id 128) by range32.
  replace b with ((b - 128) + 128) by ring.
  rewrite <- lor_128 by lia.
  rewrite Z.land_lor_distr_l, land_128_low by lia.
  reflexivity.
Qed.

(** A value below [2^k] and a multiple of [2^k] share no bit. *)
Lemma lor_disjoint (r c k : Z) :
  0 <= k -> 0 <= r < 2 ^ k -> Z.lor r (c * 2 ^ k) = r + c * 2 ^ k.
Proof.
  intros Hk Hr.
  assert (H0 : Z.land r (c * 2 ^ k) = 0).
  { apply Z.bits_inj'. intros i Hi.
    rewrite Z.land_spec, Z.bits_0.
    destruct (Z.lt_ge_cases i k) as [Hlt | Hge].
    - rewrite Z.mul_pow2_bits_low by assumption. apply andb_false_r.
    - rewrite <- (Z.mod_small r (2 ^ k)) by assumption.
      now rewrite Z.mod_pow2_bits_high by lia. }
  rewrite <- Z.lxor_lor by assumption.
  symmetry. now apply Z.add_nocarry_lxor.
Qed.

(** The accumulation step of [readVarInt]: [result |= value << k]. *)
Lemma jsOr_jsShl (r m k : Z) :
  0 <= k < 32 -> 0 <= r < 2 ^ k -> 0 <= m < 128 ->
  jsOr r (jsShl m k) = toInt32 (r + m * 2 ^ k).
Proof.
  intros Hk Hr Hm.
  assert (Hpow : 2 ^ k <= 2 ^ 31) by (apply Z.pow_le_mono_r; lia).
  unfold jsOr, jsShl.
  rewrite (toInt32_id r) by lia. rewrite (toInt32_id m) by range32.
  rewrite (toUint32_id k) by range32. rewrite (Z.mod_small k 32) by lia.
  rewrite Z.shiftl_mul_pow2 by lia.
  rewrite (toInt32_id (toInt32 _)) by apply toInt32_range.
  destruct (toInt32_wraps (m * 2 ^ k)) as [j ->].
  replace (m * 2 ^ k + j * 2 ^ 32) with ((m + j * 2 ^ (32 - k)) * 2 ^ k).
  2:{ rewrite Z.mul_add_distr_r, <- Z.mul_assoc, <- Z.pow_add_r by lia.
      now replace (32 - k + k) with 32 by ring. }
  rewrite lor_disjoint by lia.
  replace (r + (m + j * 2 ^ (32 - k)) * 2 ^ k) with (r + m * 2 ^ k + j * 2 ^ 32).
  2:{ rewrite Z.mul_add_distr_r, <- (Z.mul_assoc j), <- Z.pow_add_r by lia.
      replace (32 - k + k) with 32 by ring. ring. }
  apply toInt32_wrap.
Qed.

Lemma toUint32_mod_128 (v : Z) : toUint32 v mod 128 = v mod 128.
Proof.
  unfold toUint32. rewrite (Z.mod_eq v (2 ^ 32)) by (pow32; lia).
  replace (v - 2 ^ 32 * (v / 2 ^ 32))
    with (v + (- (v / 2 ^ 32) * 2 ^ 25) * 128) by (pow32; ring).
  now rewrite Z.mod_add by lia.
Qed.

Lemma toUint32_range (v : Z) : 0 <= toUint32 v < 2 ^ 32.
Proof. unfold toUint32. apply Z.mod_pos_bound. pow32. lia. Qed.

(** The loop reads its argument through the 32-bit conversions only. *)
Lemma writeVarInt_loop_unsigned (rounds : nat) (v : Z) :
  writeVarInt_loop rounds v = writeVarInt_loop rounds (toUint32 v).
Proof.
  destruct rounds as [| rounds]; [reflexivity |].
  cbn [writeVarInt_loop].
  rewrite !jsAnd_127, !jsShr_7, toUint32_mod_128.
  now rewrite (toUint32_id (toUint32 v)) by apply toUint32_range.
Qed.

Lemma VarIntBytes_bytes (bs : list Z) :
  VarIntBytes bs -> Forall (fun b => 0 <= b < 256) bs.
Proof.
  induction 1; constructor; try lia; auto.
Qed.

Lemma bufferFrom_id (bs : list Z) :
  Forall (fun b => 0 <= b < 256) bs -> bufferFrom bs = bs.
Proof.
  induction 1 as [| b bs Hb _ IH]; [reflexivity |].
  cbn. rewrite jsAnd_255 by assumption. f_equal. exact IH.
Qed.

(** Writing with [rounds] rounds in hand a value that needs no more, and
    reading the bytes back from round [n] on. *)
Lemma varint_loop_round_trip (rounds : nat) :
  forall (n : nat) (x r : Z) (rest : list Z),
    (n + rounds = 5)%nat ->
    0 <= x < 2 ^ (32 - 7 * Z.of_nat n) ->
    0 <= r < 2 ^ (7 * Z.of_nat n) ->
    exists bytes,
      writeVarInt_loop rounds x = Some bytes /\
      (List.length bytes <= rounds)%nat /\
      VarIntBytes bytes /\
      readVarInt_loop (bytes ++ rest) n r =
        Ok {| value := toInt32 (r + x * 2 ^ (7 * Z.of_nat n));
              bytesRead := n + List.length bytes |}.
Proof.
  induction rounds as [| rounds IH]; intros n x r rest Hn Hx Hr.
  - assert (n = 5%nat) by lia. subst n. cbn in Hx. lia.
  - assert (Hn4 : (n <= 4)%nat) by lia.
    assert (Hk : 0 <= 7 * Z.of_nat n < 32) by lia.
    assert (Hx32 : 0 <= x < 2 ^ 32).
    { split; [lia |]. apply Z.lt_le_trans with (1 := proj2 Hx).
      apply Z.pow_le_mono_r; lia. }
    pose proof (Z.mod_pos_bound x 128 ltac:(lia)) as Hm.
    cbn [writeVarInt_loop].
    rewrite jsAnd_127, jsShr_7, (toUint32_id x) by assumption.
    destruct (x / 128 =? 0) eqn:E.
    + apply Z.eqb_eq in E.
      assert (Hsmall : x mod 128 = x).
      { rewrite Z.mod_eq by lia. rewrite E. ring. }
      exists [x mod 128].
      split; [reflexivity |]. split; [cbn; lia |].
      split; [constructor; lia |].
      cbn [app readVarInt_loop].
      rewrite jsAnd_127, Z.mod_mod by lia.
      rewrite jsOr_jsShl by assumption.
      replace (5 <? S n)%nat with false by (symmetry; apply Nat.ltb_ge; lia).
      rewrite jsAnd_128_final by assumption.
      cbn [Z.eqb List.length]. rewrite Hsmall.
      do 2 f_equal. lia.
    + apply Z.eqb_neq in E.
      assert (Hn3 : (n <= 3)%nat).
      { destruct (Nat.eq_dec n 4) as [-> |]; [| lia].
        exfalso. apply E. apply Z.div_small. cbn in Hx. lia. }
      assert (Hx' : 0 <= x / 128 < 2 ^ (32 - 7 * Z.of_nat (S n))).
      { split; [apply Z.div_pos; lia |].
        apply Z.div_lt_upper_bound; [lia |].
        replace (128 * 2 ^ (32 - 7 * Z.of_nat (S n)))
          with (2 ^ (32 - 7 * Z.of_nat n)); [lia |].
        change 128 with (2 ^ 7). rewrite <- Z.pow_add_r by lia.
        f_equal. lia. }
      assert (Hpow : 2 ^ (7 * Z.of_nat (S n)) = 128 * 2 ^ (7 * Z.of_nat n)).
      { change 128 with (2 ^ 7). rewrite <- Z.pow_add_r by lia.
        f_equal. lia. }
      assert (Hr' : 0 <= r + x mod 128 * 2 ^ (7 * Z.of_nat n)
                    < 2 ^ (7 * Z.of_nat (S n))).
      { rewrite Hpow. nia. }
      destruct (IH (S n) (x / 128) (r + x mod 128 * 2 ^ (7 * Z.of_nat n)) rest
                  ltac:(lia) Hx' Hr')
        as (bytes & Hw & Hlen & Hshape & Hread).
      exists ((x mod 128 + 128) :: bytes).
      split; [rewrite Hw, jsOr_128 by assumption; reflexivity |].
      split; [cbn; lia |].
      split; [constructor; [lia | assumption] |].
      cbn [app readVarInt_loop].
      rewrite jsAnd_127.
      replace ((x mod 128 + 128) mod 128) with (x mod 128).
      2:{ replace (x mod 128 + 128) with (x mod 128 + 1 * 128) by ring.
          rewrite Z.mod_add, Z.mod_mod by lia. reflexivity. }
      rewrite jsOr_jsShl by assumption.
      replace (5 <? S n)%nat with false by (symmetry; apply Nat.ltb_ge; lia).
      rewrite jsAnd_128_continued by lia.
      cbn [Z.eqb].
      assert (Hlt : 2 ^ (7 * Z.of_nat (S n)) <= 2 ^ 31)
        by (apply Z.pow_le_mono_r; lia).
      rewrite (toInt32_id (r + _)) by lia.
      rewrite Hread. cbn [List.length].
      f_equal. f_equal; [| lia].
      f_equal. rewrite Hpow.
      transitivity (r + (128 * (x / 128) + x mod 128) * 2 ^ (7 * Z.of_nat n));
        [ring | now rewrite <- Z.div_mod by lia].
Qed.

Lemma skipn_length_app {A : Type} (pre l : list A) :
  skipn (List.length pre) (pre ++ l) = l.
Proof. induction pre; [reflexivity | assumption]. Qed.

(** The bytes that [writeVarInt] gives, and what [readVarInt] makes of
    them. *)
Lemma writeVarInt_read (v : Z) :
  exists bytes,
    writeVarInt v = Some bytes /\
    (List.length bytes <= 5)%nat /\
    VarIntBytes bytes /\
    forall pre rest,
      readVarInt (pre ++ bytes ++ rest) (List.length pre) =
        Ok {| value := toInt32 v; bytesRead := List.length bytes |}.
Proof.
  destruct (varint_loop_round_trip 5 0 (toUint32 v) 0 []
              eq_refl (toUint32_range v) ltac:(cbn; lia))
    as (bytes & Hw & Hlen & Hshape & _).
  exists bytes. unfold writeVarInt.
  rewrite writeVarInt_loop_unsigned, Hw. cbn [option_map].
  rewrite bufferFrom_id by now apply VarIntBytes_bytes.
  split; [reflexivity |]. split; [exact Hlen |]. split; [exact Hshape |].
  intros pre rest. unfold readVarInt. rewrite skipn_length_app.
  destruct (varint_loop_round_trip 5 0 (toUint32 v) 0 rest
              eq_refl (toUint32_range v) ltac:(cbn; lia))
    as (bytes' & Hw' & _ & _ & Hread).
  rewrite Hw in Hw'. injection Hw' as <-.
  rewrite Hread. cbn [Nat.add]. do 2 f_equal.
  change (7 * Z.of_nat 0) with 0. rewrite Z.pow_0_r, Z.mul_1_r, Z.add_0_l.
  unfold toUint32.
  rewrite (Z.mod_eq v (2 ^ 32)) by (pow32; lia).
  replace (v - 2 ^ 32 * (v / 2 ^ 32)) with (v + (- (v / 2 ^ 32)) * 2 ^ 32) by ring.
  apply toInt32_wrap.
Qed.

(** More rounds than five change nothing. *)
Lemma writeVarInt_loop_enough (rounds : nat) :
  forall (n : nat) (x : Z) (more : nat),
    (n + rounds = 5)%nat ->
    0 <= x < 2 ^ (32 - 7 * Z.of_nat n) ->
    writeVarInt_loop (rounds + more) x = writeVarInt_loop rounds x.
Proof.
  induction rounds as [| rounds IH]; intros n x more Hn Hx.
  - assert (n = 5%nat) by lia. subst n. cbn in Hx. lia.
  - cbn [Nat.add writeVarInt_loop].
    assert (Hx32 : 0 <= x < 2 ^ 32).
    { split; [lia |]. apply Z.lt_le_trans with (1 := proj2 Hx).
      apply Z.pow_le_mono_r; lia. }
    rewrite jsShr_7, (toUint32_id x) by assumption.
    destruct (x / 128 =? 0) eqn:E; [reflexivity |].
    apply Z.eqb_neq in E.
    assert (Hn3 : (n <= 3)%nat).
    { destruct (Nat.eq_dec n 4) as [-> |]; [| lia].
      exfalso. apply E. apply Z.div_small. cbn in Hx. lia. }
    rewrite (IH (S n)); [reflexivity | lia |].
    split; [apply Z.div_pos; lia |].
    apply Z.div_lt_upper_bound; [lia |].
    replace (128 * 2 ^ (32 - 7 * Z.of_nat (S n)))
      with (2 ^ (32 - 7 * Z.of_nat n)); [lia |].
    change 128 with (2 ^ 7). rewrite <- Z.pow_add_r by lia.
    f_equal. lia.
Qed.

Lemma VarIntBytes_split (bs : list Z) :
  VarIntBytes bs ->
  exists init last,
    bs = init ++ [last] /\ Forall (fun b => 128 <= b < 256) init /\
    0 <= last < 128.
Proof.
  induction 1 as [b Hb | b bs Hb _ (init & last & -> & Hinit & Hlast)].
  - exists [], b. repeat split; auto; lia.
  - exists (b :: init), last. repeat split; auto; lia.
Qed.

(** Reading continuation bytes only. *)
Lemma readVarInt_loop_short (cs : list Z) :
  forall (n : nat) (r : Z),
    Forall (fun b => 128 <= b < 256) cs ->
    (n + List.length cs <= 5)%nat ->
    readVarInt_loop cs n r = Throw "VarInt is too short".
Proof.
  induction cs as [| b cs IH]; intros n r Hcs Hlen; [reflexivity |].
  inversion Hcs as [| ? ? Hb Hcs']; subst.
  cbn [readVarInt_loop List.length] in *.
  replace (5 <? S n)%nat with false by (symmetry; apply Nat.ltb_ge; lia).
  rewrite (jsAnd_128_continued b) by assumption. cbn [Z.eqb].
  apply IH; [assumption | lia].
Qed.

Lemma readVarInt_loop_big (cs : list Z) :
  forall (n : nat) (r b : Z) (rest : list Z),
    Forall (fun b => 128 <= b < 256) cs ->
    (n + List.length cs = 5)%nat ->
    readVarInt_loop (cs ++ b :: rest) n r = Throw "VarInt is too big".
Proof.
  induction cs as [| c cs IH]; intros n r b rest Hcs Hlen.
  - cbn [List.length] in Hlen. assert (n = 5%nat) by lia. subst n.
    reflexivity.
  - inversion Hcs as [| ? ? Hc Hcs']; subst.
    cbn [readVarInt_loop List.length app] in *.
    replace (5 <? S n)%nat with false by (symmetry; apply Nat.ltb_ge; lia).
    rewrite (jsAnd_128_continued c) by assumption. cbn [Z.eqb].
    apply IH; [assumption | lia].
Qed.

(** What a successful read tells. *)
Lemma readVarInt_loop_ok (bytes : list Z) :
  forall (n : nat) (res : Z) (r : VarInt),
    readVarInt_loop bytes n res = Ok r ->
    (n < bytesRead r <= 5)%nat /\
    (bytesRead r - n <= List.length bytes)%nat /\
    - 2 ^ 31 <= value r < 2 ^ 31 /\
    forall extra, readVarInt_loop (bytes ++ extra) n res = Ok r.
Proof.
  induction bytes as [| b bytes IH]; intros n res r H; [discriminate |].
  cbn [readVarInt_loop app List.length] in *.
  destruct (5 <? S n)%nat eqn:E5; [discriminate |].
  apply Nat.ltb_ge in E5.
  destruct (jsAnd b 128 =? 0).
  - injection H as <-. cbn [bytesRead value].
    split; [lia |]. split; [lia |].
    split; [unfold jsOr; apply toInt32_range | reflexivity].
  - destruct (IH _ _ _ H) as (H1 & H2 & H3 & H4).
    split; [lia |]. split; [lia |]. split; [exact H3 | exact H4].
Qed.

(** X1. [writeVarInt] and [readVarInt] are inverse to each other on 32-bit
    integers: the bytes written for an integer [v], found at any offset of a
    buffer and followed by anything, are read back as the signed 32-bit value
    of [v], which is [v] itself from [-2^31] to [2^31 - 1], and [bytesRead]
    is the number of bytes written. *)
Theorem varint_round_trip :
  forall (v : Z) (pre rest : list Z),
    exists bytes,
      writeVarInt v = Some bytes /\
      readVarInt (pre ++ bytes ++ rest) (List.length pre) =
        Ok {| value := toInt32 v; bytesRead := List.length bytes |} /\
      (- 2 ^ 31 <= v < 2 ^ 31 -> toInt32 v = v).
Proof.
  intros v pre rest.
  destruct (writeVarInt_read v) as (bytes & Hw & _ & _ & Hread).
  exists bytes. split; [exact Hw |]. split; [apply Hread |].
  apply toInt32_id.
Qed.

(** X2. [writeVarInt] ends for every integer, within five rounds of its
    loop (more rounds give the same bytes), and returns one to five bytes:
    continuation bytes from 128 to 255, then one final byte below 128.  An
    integer from 0 to 127 is written as itself. *)
Theorem writeVarInt_shape :
  forall v : Z,
    exists init last,
      writeVarInt v = Some (init ++ [last]) /\
      (List.length init <= 4)%nat /\
      Forall (fun b => 128 <= b < 256) init /\
      0 <= last < 128 /\
      (forall more,
         option_map bufferFrom (writeVarInt_loop (5 + more) v) =
         writeVarInt v) /\
      (0 <= v < 128 -> init = [] /\ last = v).
Proof.
  intros v.
  destruct (writeVarInt_read v) as (bytes & Hw & Hlen & Hshape & _).
  destruct (VarIntBytes_split bytes Hshape) as (init & last & -> & Hinit & Hlast).
  exists init, last. rewrite Hw.
  split; [reflexivity |].
  split; [rewrite length_app in Hlen; cbn in Hlen; lia |].
  split; [exact Hinit |]. split; [exact Hlast |]. split.
  - intros more. rewrite <- Hw. unfold writeVarInt.
    rewrite (writeVarInt_loop_unsigned (5 + more)), (writeVarInt_loop_unsigned 5).
    now rewrite (writeVarInt_loop_enough 5 0 (toUint32 v) more eq_refl
                   (toUint32_range v)).
  - intros Hv. unfold writeVarInt in Hw. cbn [writeVarInt_loop] in Hw.
    rewrite jsAnd_127, jsShr_7, toUint32_id in Hw by range32.
    rewrite Z.div_small, Z.mod_small in Hw by lia.
    cbn [Z.eqb option_map bufferFrom List.map] in Hw.
    rewrite jsAnd_255 in Hw by lia.
    injection Hw as Hw. destruct init as [| b [| b' init]]; cbn in Hw.
    + injection Hw as ->. now split.
    + discriminate.
    + discriminate.
Qed.

(** X3. A successful [readVarInt] has read one to five bytes, all of them
    inside the buffer; its value is a signed 32-bit integer; and the bytes
    that follow those it has read do not matter: with more bytes appended
    to the buffer the result is the same. *)
Theorem readVarInt_sound :
  forall (buffer : list Z) (offset : nat) (r : VarInt),
    readVarInt buffer offset = Ok r ->
    (1 <= bytesRead r <= 5)%nat /\
    (offset + bytesRead r <= List.length buffer)%nat /\
    - 2 ^ 31 <= value r < 2 ^ 31 /\
    forall extra, readVarInt (buffer ++ extra) offset = Ok r.
Proof.
  intros buffer offset r H. unfold readVarInt in *.
  destruct (readVarInt_loop_ok _ _ _ _ H) as (H1 & H2 & H3 & H4).
  rewrite length_skipn in H2.
  assert (Hoff : (offset < List.length buffer)%nat).
  { destruct (Nat.lt_ge_cases offset (List.length buffer)) as [Hlt | Hge];
      [exact Hlt |].
    rewrite skipn_all2 in H by exact Hge. discriminate. }
  split; [lia |]. split; [lia |]. split; [exact H3 |].
  intros extra. rewrite skipn_app.
  replace (offset - List.length buffer)%nat with 0%nat by lia.
  apply H4.
Qed.

Lemma readVarInt_sound_witness :
  (1 <= 2 <= 5)%nat /\
  (1 + 2 <= List.length [9; 172; 2; 7])%nat /\
  - 2 ^ 31 <= 300 < 2 ^ 31 /\
  forall extra,
    readVarInt ([9; 172; 2; 7] ++ extra) 1 = Ok {| value := 300; bytesRead := 2 |}.
Proof.
  apply (readVarInt_sound [9; 172; 2; 7] 1 {| value := 300; bytesRead := 2 |}).
  reflexivity.
Defined.

(** X4. What [readVarInt] rejects.  Up to five continuation bytes with
    nothing after them are "too short", and so is every cut of the bytes
    written by [writeVarInt] that drops at least the last byte; five
    continuation bytes followed by any sixth byte are "too big". *)
Theorem readVarInt_rejects :
  (forall cs : list Z,
     Forall (fun b => 128 <= b < 256) cs ->
     (List.length cs <= 5)%nat ->
     readVarInt cs 0 = Throw "VarInt is too short") /\
  (forall (cs : list Z) (b : Z) (rest : list Z),
     Forall (fun b => 128 <= b < 256) cs ->
     List.length cs = 5%nat ->
     readVarInt (cs ++ b :: rest) 0 = Throw "VarInt is too big") /\
  (forall (v : Z) (k : nat),
     exists bytes,
       writeVarInt v = Some bytes /\
       ((k < List.length bytes)%nat ->
        readVarInt (firstn k bytes) 0 = Throw "VarInt is too short")).
Proof.
  split; [| split].
  - intros cs Hcs Hlen. now apply readVarInt_loop_short.
  - intros cs b rest Hcs Hlen. now apply readVarInt_loop_big.
  - intros v k.
    destruct (writeVarInt_read v) as (bytes & Hw & Hlen & Hshape & _).
    exists bytes. split; [exact Hw |]. intros Hk.
    destruct (VarIntBytes_split bytes Hshape) as (init & last & -> & Hinit & _).
    rewrite length_app in Hk, Hlen. cbn [List.length] in Hk, Hlen.
    rewrite firstn_app.
    replace (k - List.length init)%nat with 0%nat by lia.
    cbn [firstn]. rewrite app_nil_r.
    unfold readVarInt. cbn [skipn].
    apply readVarInt_loop_short.
    + rewrite <- (firstn_skipn k init) in Hinit.
      now apply Forall_app in Hinit.
    + rewrite length_firstn. lia.
Qed.

Lemma length_utf8Bytes (s : string) :
  List.length (utf8Bytes s) = String.length s.
Proof.
  unfold utf8Bytes. rewrite length_map.
  induction s as [| ch s IH]; [reflexivity | cbn; now rewrite IH].
Qed.

Lemma jsSar_8 (p : Z) : 0 <= p < 65536 -> jsSar p 8 = p / 256.
Proof.
  intros H. unfold jsSar. rewrite toInt32_id by range32.
  change (toUint32 8 mod 32) with 8.
  now rewrite Z.shiftr_div_pow2 by lia.
Qed.

Lemma jsAnd_255_mod (p : Z) : 0 <= p < 65536 -> jsAnd p 255 = p mod 256.
Proof.
  intros H. unfold jsAnd.
  rewrite (toInt32_id p), (toInt32_id 255) by range32.
  change 255 with (Z.ones 8). rewrite Z.land_ones by lia.
  change (2 ^ 8) with 256.
  apply toInt32_id. pose proof (Z.mod_pos_bound p 256). range32.
Qed.

(** X5. The handshake packet is framed as the protocol asks, for a host
    name of fewer than [2^31 - 10] bytes: the VarInt at its head is the
    number of bytes after it; then come the packet id 0, the protocol
    version 47, the length of the host name as a VarInt and the bytes of the
    host name; and, for a port from 0 to 65535, the packet ends with the
    port as two bytes, high byte first, and the next state 1. *)
Theorem handshake_packet_framing :
  forall (host : string) (port : Z),
    Z.of_nat (String.length host) < 2 ^ 31 - 10 ->
    exists (packet : list Z) (n m : nat),
      buildHandshakePacket host port = Some packet /\
      readVarInt packet 0 =
        Ok {| value := Z.of_nat (List.length packet - n); bytesRead := n |} /\
      readVarInt packet n = Ok {| value := 0; bytesRead := 1 |} /\
      readVarInt packet (n + 1) = Ok {| value := 47; bytesRead := 1 |} /\
      readVarInt packet (n + 2) =
        Ok {| value := Z.of_nat (String.length host); bytesRead := m |} /\
      firstn (String.length host) (skipn (n + 2 + m) packet) = utf8Bytes host /\
      (0 <= port < 65536 ->
       skipn (n + 2 + m + String.length host) packet =
         [port / 256; port mod 256; 1]).
Proof.
  intros host port Hhost.
  set (hostBuffer := utf8Bytes host).
  set (pb := bufferFrom [jsSar port 8; jsAnd port 255]).
  assert (Hlenhost : List.length hostBuffer = String.length host)
    by apply length_utf8Bytes.
  destruct (writeVarInt_read (Z.of_nat (List.length hostBuffer)))
    as (hl & Hhl & Hhl5 & _ & Hreadhl).
  set (data := [47] ++ hl ++ hostBuffer ++ pb ++ [1]).
  destruct (writeVarInt_read (Z.of_nat (List.length data) + 1))
    as (pl & Hpl & Hpl5 & _ & Hreadpl).
  assert (Hdata : (List.length data = 1 + List.length hl + String.length host + 3)%nat).
  { unfold data. rewrite !length_app, Hlenhost. cbn. lia. }
  exists (pl ++ [0] ++ data), (List.length pl), (List.length hl).
  split.
  { unfold buildHandshakePacket. cbv zeta.
    change (writeVarInt 47) with (Some [47]).
    change (writeVarInt 1) with (Some [1]).
    change (writeVarInt 0) with (Some [0]).
    fold hostBuffer. cbn [andThen]. rewrite Hhl. cbn [andThen].
    fold pb. fold data. rewrite Hpl. reflexivity. }
  split.
  { change (readVarInt (pl ++ [0] ++ data) 0)
      with (readVarInt ([] ++ pl ++ [0] ++ data) (List.length (@nil Z))).
    rewrite (Hreadpl [] ([0] ++ data)). do 2 f_equal.
    rewrite toInt32_id by (pow32; lia).
    rewrite !length_app. cbn [List.length]. lia. }
  split.
  { unfold readVarInt. rewrite skipn_length_app. reflexivity. }
  split.
  { replace (List.length pl + 1)%nat with (List.length (pl ++ [0]))
      by (rewrite length_app; reflexivity).
    unfold readVarInt.
    replace (pl ++ [0] ++ data) with ((pl ++ [0]) ++ data)
      by (now rewrite <- app_assoc).
    rewrite skipn_length_app. reflexivity. }
  split.
  { replace (List.length pl + 2)%nat with (List.length (pl ++ [0; 47]))
      by (rewrite length_app; reflexivity).
    replace (pl ++ [0] ++ data)
      with ((pl ++ [0; 47]) ++ hl ++ hostBuffer ++ pb ++ [1])
      by (unfold data; now rewrite <- app_assoc).
    rewrite Hreadhl. do 2 f_equal.
    rewrite toInt32_id by (pow32; lia). now rewrite Hlenhost. }
  split.
  { replace (List.length pl + 2 + List.length hl)%nat
      with (List.length (pl ++ [0; 47] ++ hl))
      by (rewrite !length_app; cbn [List.length]; lia).
    replace (pl ++ [0] ++ data)
      with ((pl ++ [0; 47] ++ hl) ++ hostBuffer ++ pb ++ [1])
      by (unfold data; now rewrite <- !app_assoc).
    rewrite skipn_length_app, <- Hlenhost.
    rewrite firstn_app, Nat.sub_diag, firstn_all. cbn [firstn].
    apply app_nil_r. }
  intros Hport.
  replace (List.length pl + 2 + List.length hl + String.length host)%nat
    with (List.length (pl ++ [0; 47] ++ hl ++ hostBuffer))
    by (rewrite !length_app; cbn [List.length]; lia).
  replace (pl ++ [0] ++ data)
    with ((pl ++ [0; 47] ++ hl ++ hostBuffer) ++ pb ++ [1])
    by (unfold data; now rewrite <- !app_assoc).
  rewrite skipn_length_app. unfold pb, bufferFrom. cbn [List.map app].
  rewrite (jsSar_8 port), (jsAnd_255_mod port) by assumption.
  pose proof (Z.mod_pos_bound port 256 ltac:(lia)).
  assert (0 <= port / 256 < 256).
  { split; [apply Z.div_pos; lia | apply Z.div_lt_upper_bound; lia]. }
  now rewrite !jsAnd_255 by lia.
Qed.

Lemma handshake_packet_framing_witness :
  exists (packet : list Z) (n m : nat),
    buildHandshakePacket "mc" 25565 = Some packet /\
    readVarInt packet 0 =
      Ok {| value := Z.of_nat (List.length packet - n); bytesRead := n |} /\
    readVarInt packet n = Ok {| value := 0; bytesRead := 1 |} /\
    readVarInt packet (n + 1) = Ok {| value := 47; bytesRead := 1 |} /\
    readVarInt packet (n + 2) =
      Ok {| value := Z.of_nat (String.length "mc"); bytesRead := m |} /\
    firstn (String.length "mc") (skipn (n + 2 + m) packet) = utf8Bytes "mc" /\
    (0 <= 25565 < 65536 ->
     skipn (n + 2 + m + String.length "mc") packet =
       [25565 / 256; 25565 mod 256; 1]).
Proof.
  apply (handshake_packet_framing "mc" 25565).
  vm_compute. reflexivity.
Defined.

End VarIntFacts.
